(** * Object detection demo: detector adapter, proximity tracker, ROI monitor

    A shallow embedding of [src/utils/objectDetection.ts] (class
    [ObjectDetector]) and of the zone-violation effect of
    [src/components/ROIAlerts.tsx], with the properties of the
    specification stated and proved over it.

    Number model.  JavaScript numbers are IEEE doubles.  A finite double
    is a rational ([Q]); each arithmetic operation of the adapter takes
    the exact result and rounds it to the nearest double, ties to even
    ([Js.fl]).  The division [width / height], which can leave the finite
    range, returns a [Number] with the two infinities and NaN.  Every
    field that goes through [Math.round] is an integer ([Z]); the
    track-id counter is an integer and [++] is exact (doubles count
    exactly up to 2^53).  The exponent of a double is not bounded above
    in the model: results of magnitude [2^1024] and more, which
    JavaScript turns into an infinity, are outside it, and so is the
    sign of zero.  The ROI monitor adds integers and halves of integers,
    the pixel coordinates of the records and of the zones, on which the
    operations of doubles are exact; its arithmetic is taken as exact. *)

From Stdlib Require Import ZArith QArith Qround Qabs Qpower List Bool Lia.
From Stdlib Require Import String Ascii DecimalString.
From Stdlib Require Import Reals Lra Lqa.
From Stdlib Require DecimalZ Floats.
Import ListNotations.

Open Scope Z_scope.

(** ** JavaScript numbers *)

Module Js.

(** A double: a finite value, [Infinity], [-Infinity] or [NaN]. *)
Inductive Number : Type :=
| Finite (q : Q)
| PosInfinity
| NegInfinity
| NaN.

(** *** Rounding to the nearest double

    The finite doubles are the rationals [m * 2^e] with [|m| < 2^53] and
    [e >= -1074]. *)

(** The integer [k] with [2^k <= a < 2^(k+1)], for [0 < a]. *)
Definition ilog2 (a : Q) : Z :=
  let k := Z.log2 (Qnum a) - Z.log2 (Zpos (Qden a)) in
  if Qle_bool (2 ^ k) a then k else k - 1.

(** The integer nearest to [s]; a tie goes to the even one. *)
Definition roundTiesToEven (s : Q) : Z :=
  let f := Qfloor s in
  match (s - inject_Z f ?= 1 # 2)%Q with
  | Lt => f
  | Gt => f + 1
  | Eq => if Z.even f then f else f + 1
  end.

(** The exponent of the last bit of the doubles around [a], for [0 < a]:
    53 significant bits, and [2^-1074] in the subnormal range. *)
Definition exponent (a : Q) : Z := Z.max (-1074) (ilog2 a - 52).

(** The double nearest to [a], for [0 < a]. *)
Definition nearest (a : Q) : Q :=
  let e := exponent a in (inject_Z (roundTiesToEven (a / 2 ^ e)) * 2 ^ e)%Q.

(** The double nearest to [q], as a reduced fraction. *)
Definition fl (q : Q) : Q :=
  let q := Qred q in
  match (q ?= 0)%Q with
  | Eq => 0%Q
  | Gt => Qred (nearest q)
  | Lt => Qred (- nearest (- q))
  end.

(** [a + b], [a * b] and [a / b] (for [b] not zero) on finite doubles. *)
Definition add (a b : Q) : Q := fl (a + b).
Definition mul (a b : Q) : Q := fl (a * b).
Definition quot (a b : Q) : Q := fl (a / b).

(** [Math.round(q)]: the integer [floor(q + 0.5)] (ties go up).  On a
    double the result is a double, so no rounding follows. *)
Definition Math_round (q : Q) : Z := Qfloor (q + (1 # 2)).

(** [a / b] on finite operands. *)
Definition div (a b : Q) : Number :=
  if Qeq_bool b 0 then
    match Qcompare a 0 with
    | Gt => PosInfinity
    | Lt => NegInfinity
    | Eq => NaN
    end
  else Finite (quot a b).

(** [Math.round(n * 100) / 100]. *)
Definition round2 (n : Number) : Number :=
  match n with
  | Finite q => Finite (quot (inject_Z (Math_round (mul q 100))) 100)
  | PosInfinity => PosInfinity
  | NegInfinity => NegInfinity
  | NaN => NaN
  end.

(** Template-literal rendering of an integer, [`${n}`]. *)
Definition toString (n : Z) : string := NilZero.string_of_int (Z.to_int n).

End Js.

(** ** The doubles of the kernel

    Rocq's primitive floats are the binary64 numbers with the operations
    of IEEE 754, rounding to nearest, ties to even.  [Binary64.all_agree]
    compares [Js.fl], applied to the exact sum, difference, product and
    quotient of two doubles, with the result of the primitive operation,
    on every pair of [samples] whose result is finite. *)

Module Binary64.
Import Floats.

(** The rational a finite double stands for. *)
Definition toQ (f : float) : option Q :=
  match Prim2SF f with
  | S754_zero _ => Some 0%Q
  | S754_finite s m e =>
      Some (Qred ((if s then - inject_Z (Zpos m) else inject_Z (Zpos m)) * 2 ^ e))
  | _ => None
  end.

Definition agree (op : float -> float -> float) (exact : Q -> Q -> Q)
  (a b : float) : bool :=
  match toQ a, toQ b, toQ (op a b) with
  | Some p, Some q, Some r => Qeq_bool (Js.fl (exact p q)) r
  | _, _, _ => true
  end.

(** The double of an integer of magnitude below [2^53], and the
    quotient of two of them. *)
Definition ofZ (n : Z) : float :=
  if Z.ltb n 0 then PrimFloat.opp (PrimFloat.of_uint63 (Uint63.of_Z (- n)))
  else PrimFloat.of_uint63 (Uint63.of_Z n).

Definition ratio (n d : Z) : float := PrimFloat.div (ofZ n) (ofZ d).

(** [2^-1054], in the subnormal range. *)
Definition tiny : float :=
  let t := ratio 1 4611686018427387904 in
  let t4 := PrimFloat.mul (PrimFloat.mul t t) (PrimFloat.mul t t) in
  let t16 := PrimFloat.mul (PrimFloat.mul t4 t4) (PrimFloat.mul t4 t4) in
  PrimFloat.mul t16 t.

Definition samples : list float :=
  [ratio 453 10; ratio 4744 10; ofZ 100; ratio 64 10; ofZ 23; ofZ 40;
   ofZ 94906267; ofZ 10000000001; ratio 1 3; ratio (-1004) 10; ratio 994 10;
   ratio 14 10; ofZ (-7); ratio 15625 1000; ofZ 9007199254740993; tiny;
   PrimFloat.mul tiny (ratio 453 10); ratio 2 3; ofZ 1; ofZ 2].

Definition all_agree : bool :=
  forallb (fun ab : float * float =>
             let (a, b) := ab in
             agree PrimFloat.add Qplus a b && agree PrimFloat.sub Qminus a b &&
             agree PrimFloat.mul Qmult a b && agree PrimFloat.div Qdiv a b)
          (list_prod samples samples).

End Binary64.

(** ** Data model *)

(** A raw prediction of the COCO-SSD model: [bbox = [x, y, width, height]],
    [class] and [score].  The box holds doubles: a rational that is not
    a double stands for the double nearest to it, as a numeric literal
    does. *)
Record Prediction : Type := mkPrediction {
  bbox : Q * Q * Q * Q;
  class : string;
  score : Q
}.

(** [interface DetectionResult]. *)
Record DetectionResult : Type := mkDetection {
  id : string;
  label : string;
  confidence : Q;
  x : Z;
  y : Z;
  width : Z;
  height : Z;
  centerX : Z;
  centerY : Z;
  area : Z;
  aspectRatio : Js.Number;
  trackId : option Z;
  timestamp : Z
}.

(** [detection.trackId = t], the one field the tracker writes. *)
Definition set_trackId (d : DetectionResult) (t : option Z) : DetectionResult :=
  {| id := id d; label := label d; confidence := confidence d;
     x := x d; y := y d; width := width d; height := height d;
     centerX := centerX d; centerY := centerY d; area := area d;
     aspectRatio := aspectRatio d; trackId := t; timestamp := timestamp d |}.

(** ** Detector adapter: the callback of [predictions.map] in [detectObjects] *)

(** The four values of the box are read as doubles; the sums, the
    product and the quotients are those of doubles. *)
Definition toDetection (timestamp : Z) (index : nat) (prediction : Prediction)
  : DetectionResult :=
  let '(x, y, width, height) := bbox prediction in
  let x := Js.fl x in
  let y := Js.fl y in
  let width := Js.fl width in
  let height := Js.fl height in
  let centerX := Js.add x (Js.quot width 2) in
  let centerY := Js.add y (Js.quot height 2) in
  let area := Js.mul width height in
  let aspectRatio := Js.div width height in
  {| id := Js.toString timestamp ++ "-" ++ Js.toString (Z.of_nat index);
     label := class prediction;
     confidence := score prediction;
     x := Js.Math_round x;
     y := Js.Math_round y;
     width := Js.Math_round width;
     height := Js.Math_round height;
     centerX := Js.Math_round centerX;
     centerY := Js.Math_round centerY;
     area := Js.Math_round area;
     aspectRatio := Js.round2 aspectRatio;
     trackId := None;
     timestamp := timestamp |}.

(** [array.map((element, index) => f)], with the index counted from [i]. *)
Fixpoint mapi_from {A B : Type} (f : nat -> A -> B) (i : nat) (l : list A)
  : list B :=
  match l with
  | [] => []
  | a :: l' => f i a :: mapi_from f (S i) l'
  end.

Definition adaptPredictions (timestamp : Z) (predictions : list Prediction)
  : list DetectionResult :=
  mapi_from (toDetection timestamp) 0 predictions.

(** ** The [ObjectDetector] object and its methods *)

(** A thrown value: the message of the [Error]. *)
Definition Error : Type := string.

(** How an awaited promise settles, or how a call returns. *)
Inductive Outcome (A : Type) : Type :=
| Resolved (a : A)
| Rejected (e : Error).
Arguments Resolved {A} a.
Arguments Rejected {A} e.

(** The handle [cocoSsd.load] resolves to. *)
Record ObjectDetection : Type := mkModel { base : string }.

(** The private fields of [class ObjectDetector]. *)
Record ObjectDetector : Type := mkDetector {
  model : option ObjectDetection;
  isLoading : bool;
  trackingId : Z;
  previousDetections : list DetectionResult
}.

(** [new ObjectDetector()]. *)
Definition newObjectDetector : ObjectDetector :=
  {| model := None; isLoading := false; trackingId := 0;
     previousDetections := [] |}.

(** A method body: it reads and writes [this] and returns or throws.
    Writes made before a throw stay (JavaScript rolls nothing back). *)
Definition Method (A : Type) : Type := ObjectDetector -> Outcome A * ObjectDetector.

Module Method.

Definition ret {A} (a : A) : Method A := fun this => (Resolved a, this).

Definition throw {A} (e : Error) : Method A := fun this => (Rejected e, this).

Definition bind {A B} (m : Method A) (k : A -> Method B) : Method B :=
  fun this =>
    match m this with
    | (Resolved a, this') => k a this'
    | (Rejected e, this') => (Rejected e, this')
    end.

(** [await p]: the value the promise resolves to, or its rejection thrown. *)
Definition await {A} (p : Outcome A) : Method A := fun this => (p, this).

Definition get : Method ObjectDetector := fun this => (Resolved this, this).

(** [try { m } catch (error) { h error }]. *)
Definition tryCatch {A} (m : Method A) (h : Error -> Method A) : Method A :=
  fun this =>
    match m this with
    | (Resolved a, this') => (Resolved a, this')
    | (Rejected e, this') => h e this'
    end.

(** [try { m } finally { f }]: [f] runs on every exit of [m]; the outcome
    is that of [m] unless [f] itself throws. *)
Definition tryFinally {A} (m : Method A) (f : Method unit) : Method A :=
  fun this =>
    let (r, this') := m this in
    match f this' with
    | (Resolved _, this'') => (r, this'')
    | (Rejected e, this'') => (Rejected e, this'')
    end.

(** [array.forEach(a => f a)] where [f] mutates [a] in place: the
    elements as they are afterwards, visited front to back. *)
Fixpoint forEach {A B} (f : A -> Method B) (l : list A) : Method (list B) :=
  match l with
  | [] => ret []
  | a :: l' => bind (f a) (fun b => bind (forEach f l') (fun bs => ret (b :: bs)))
  end.

End Method.

Declare Scope method_scope.
Delimit Scope method_scope with method.
Notation "x <- m ;; k" := (Method.bind m (fun x => k))
  (at level 61, m at next level, right associativity) : method_scope.
Notation "m ;; k" := (Method.bind m (fun _ => k))
  (at level 61, right associativity) : method_scope.

(** Field assignments [this.f = v]. *)
Definition set_model (m : option ObjectDetection) : Method unit :=
  fun this =>
    (Resolved tt,
     {| model := m; isLoading := isLoading this; trackingId := trackingId this;
        previousDetections := previousDetections this |}).

Definition set_isLoading (b : bool) : Method unit :=
  fun this =>
    (Resolved tt,
     {| model := model this; isLoading := b; trackingId := trackingId this;
        previousDetections := previousDetections this |}).

Definition set_trackingId (n : Z) : Method unit :=
  fun this =>
    (Resolved tt,
     {| model := model this; isLoading := isLoading this; trackingId := n;
        previousDetections := previousDetections this |}).

Definition set_previousDetections (l : list DetectionResult) : Method unit :=
  fun this =>
    (Resolved tt,
     {| model := model this; isLoading := isLoading this;
        trackingId := trackingId this; previousDetections := l |}).

(** *** [loadModel] *)

(** What the three awaited calls of one [loadModel] run settle to:
    [tf.setBackend('webgl')], [tf.ready()] and [cocoSsd.load(...)]. *)
Record LoadEnv : Type := mkLoadEnv {
  tf_setBackend : Outcome bool;
  tf_ready : Outcome unit;
  cocoSsd_load : Outcome ObjectDetection
}.

Definition truthy {A} (o : option A) : bool :=
  match o with Some _ => true | None => false end.

Definition loadModel (env : LoadEnv) : Method unit :=
  (this <- Method.get ;;
   if truthy (model this) || isLoading this then Method.ret tt
   else
     set_isLoading true ;;
     Method.tryFinally
       (Method.tryCatch
          (_ <- Method.await (tf_setBackend env) ;;
           _ <- Method.await (tf_ready env) ;;
           m <- Method.await (cocoSsd_load env) ;;
           set_model (Some m))
          (fun error => Method.throw error))
       (set_isLoading false))%method.

(** *** [assignTrackingIds] *)

(** The square of the value the source calls [distance]; the centres are
    integers, so comparing squares is comparing the square roots (lemmas
    [distance_lt_iff] and [distance_lt_100_iff] below). *)
Definition distance2 (detection prevDetection : DetectionResult) : Z :=
  (centerX detection - centerX prevDetection) ^ 2 +
  (centerY detection - centerY prevDetection) ^ 2.

(** [Math.sqrt(Math.pow(dx, 2) + Math.pow(dy, 2))] as a real number. *)
Definition distance (detection prevDetection : DetectionResult) : R :=
  sqrt (IZR (distance2 detection prevDetection)).

(** [distance < minDistance], where [minDistance] starts at [Infinity]
    ([None]) and otherwise holds a squared distance. *)
Definition lt_minDistance (distance2 : Z) (minDistance : option Z) : bool :=
  match minDistance with
  | None => true
  | Some m => distance2 <? m
  end.

(** One turn of [this.previousDetections.forEach(prevDetection => ...)],
    on the pair of locals [(minDistance, bestMatch)]. *)
Definition considerPrev (detection : DetectionResult)
  (locals : option Z * option DetectionResult) (prevDetection : DetectionResult)
  : option Z * option DetectionResult :=
  let (minDistance, bestMatch) := locals in
  if String.eqb (label prevDetection) (label detection) then
    let distance := distance2 detection prevDetection in
    if lt_minDistance distance minDistance && (distance <? 100 * 100)
    then (Some distance, Some prevDetection)
    else (minDistance, bestMatch)
  else (minDistance, bestMatch).

(** The value of [bestMatch] after the inner loop. *)
Definition findBestMatch (previousDetections : list DetectionResult)
  (detection : DetectionResult) : option DetectionResult :=
  snd (fold_left (considerPrev detection) previousDetections (None, None)).

(** The body of [trackedDetections.forEach(detection => ...)]. *)
Definition trackDetection (detection : DetectionResult) : Method DetectionResult :=
  (this <- Method.get ;;
   match findBestMatch (previousDetections this) detection with
   | Some bestMatch => Method.ret (set_trackId detection (trackId bestMatch))
   | None =>
       set_trackingId (trackingId this + 1) ;;
       Method.ret (set_trackId detection (Some (trackingId this + 1)))
   end)%method.

Definition assignTrackingIds (currentDetections : list DetectionResult)
  : Method (list DetectionResult) :=
  Method.forEach trackDetection currentDetections.

(** *** [detectObjects]

    [detect] is how [this.model.detect(imageElement)] settles for this
    call and [now] is what [Date.now()] returns. *)
Definition detectObjects (detect : Outcome (list Prediction)) (now : Z)
  : Method (list DetectionResult) :=
  (this <- Method.get ;;
   match model this with
   | None => Method.throw "Model not loaded. Call loadModel() first."%string
   | Some _ =>
       Method.tryCatch
         (predictions <- Method.await detect ;;
          let timestamp := now in
          let detections := adaptPredictions timestamp predictions in
          trackedDetections <- assignTrackingIds detections ;;
          set_previousDetections trackedDetections ;;
          Method.ret trackedDetections)
         (fun error => Method.ret [])
   end)%method.

Definition isModelLoaded : Method bool :=
  (this <- Method.get ;; Method.ret (truthy (model this)))%method.

Definition isModelLoading : Method bool :=
  (this <- Method.get ;; Method.ret (isLoading this))%method.

(** ** ROI monitor: the component state and zone-violation effect of
    [ROIAlerts.tsx] *)

Module ROI.

(** The fields the effect reads of an element of [detectionResults]
    (typed [any[]] in the component). *)
Module Detection.
Record t : Type := mk {
  id : string;
  label : string;
  x : Q;
  y : Q;
  width : Q;
  height : Q
}.
End Detection.

(** A detection of [ObjectDetector] as the component receives it. *)
Definition ofDetectionResult (d : DetectionResult) : Detection.t :=
  {| Detection.id := id d;
     Detection.label := label d;
     Detection.x := inject_Z (x d);
     Detection.y := inject_Z (y d);
     Detection.width := inject_Z (width d);
     Detection.height := inject_Z (height d) |}.

Inductive ZoneType : Type := restricted | monitored | counting.

Definition ZoneType_eqb (a b : ZoneType) : bool :=
  match a, b with
  | restricted, restricted | monitored, monitored | counting, counting => true
  | _, _ => false
  end.

Record Coordinates : Type := mkCoordinates {
  x : Q;
  y : Q;
  width : Q;
  height : Q
}.

(** [interface ROIZone]. *)
Module Zone.
Record t : Type := mk {
  id : string;
  name : string;
  type : ZoneType;
  coordinates : Coordinates;
  alertCount : Z;
  isActive : bool;
  color : string
}.
End Zone.

Inductive Severity : Type := low | medium | high.

(** An element of the [alerts] state. *)
Module Alert.
Record t : Type := mk {
  id : string;
  zoneName : string;
  objectType : string;
  timestamp : Z;
  severity : Severity
}.
End Alert.

(** The two pieces of React state the effect updates. *)
Record State : Type := mkState {
  zones : list Zone.t;
  alerts : list Alert.t
}.

(** The initial values given to [useState]. *)
Definition initialState : State :=
  {| zones :=
       [ {| Zone.id := "1"; Zone.name := "Restricted Area";
            Zone.type := restricted;
            Zone.coordinates := {| x := 100; y := 100; width := 200; height := 150 |};
            Zone.alertCount := 0; Zone.isActive := true;
            Zone.color := "#ef4444" |};
         {| Zone.id := "2"; Zone.name := "Monitoring Zone";
            Zone.type := monitored;
            Zone.coordinates := {| x := 350; y := 200; width := 180; height := 120 |};
            Zone.alertCount := 0; Zone.isActive := true;
            Zone.color := "#f59e0b" |} ];
     alerts := [] |}.

(** [{ ...z, alertCount: z.alertCount + 1 }]. *)
Definition bumpAlertCount (z : Zone.t) : Zone.t :=
  {| Zone.id := Zone.id z; Zone.name := Zone.name z; Zone.type := Zone.type z;
     Zone.coordinates := Zone.coordinates z;
     Zone.alertCount := Zone.alertCount z + 1;
     Zone.isActive := Zone.isActive z; Zone.color := Zone.color z |}.

(** [{ ...z, isActive: !z.isActive }]. *)
Definition flipActive (z : Zone.t) : Zone.t :=
  {| Zone.id := Zone.id z; Zone.name := Zone.name z; Zone.type := Zone.type z;
     Zone.coordinates := Zone.coordinates z;
     Zone.alertCount := Zone.alertCount z;
     Zone.isActive := negb (Zone.isActive z); Zone.color := Zone.color z |}.

(** The test of one (detection, zone) pair, up to the construction of
    [newAlert]: [None] where the callback returns early or skips the
    [if].  [now] is the clock as [Date.now()] and [new Date()] read it. *)
Definition violation (now : Z) (detection : Detection.t) (zone : Zone.t)
  : option Alert.t :=
  if negb (Zone.isActive zone) then None
  else
    let detectionCenter :=
      ((Detection.x detection + Detection.width detection / 2)%Q,
       (Detection.y detection + Detection.height detection / 2)%Q) in
    let isInZone :=
      Qle_bool (x (Zone.coordinates zone)) (fst detectionCenter) &&
      Qle_bool (fst detectionCenter)
               (x (Zone.coordinates zone) + width (Zone.coordinates zone)) &&
      Qle_bool (y (Zone.coordinates zone)) (snd detectionCenter) &&
      Qle_bool (snd detectionCenter)
               (y (Zone.coordinates zone) + height (Zone.coordinates zone)) in
    if isInZone && ZoneType_eqb (Zone.type zone) restricted then
      Some {| Alert.id := Js.toString now ++ "-" ++ Detection.id detection;
              Alert.zoneName := Zone.name zone;
              Alert.objectType := Detection.label detection;
              Alert.timestamp := now;
              Alert.severity := high |}
    else None.

(** The updater given to [setAlerts]: [[newAlert, ...prev.slice(0, 9)]]. *)
Definition pushAlert (newAlert : Alert.t) (prev : list Alert.t) : list Alert.t :=
  newAlert :: firstn 9 prev.

(** The updater given to [setZones] on a violation. *)
Definition countAlert (zoneId : string) (prev : list Zone.t) : list Zone.t :=
  map (fun z => if String.eqb (Zone.id z) zoneId then bumpAlertCount z else z) prev.

(** The two [setState] calls of one violation, applied to the state. *)
Definition recordViolation (newAlert : Alert.t) (zoneId : string) (st : State)
  : State :=
  {| zones := countAlert zoneId (zones st);
     alerts := pushAlert newAlert (alerts st) |}.

(** The callback of [zones.forEach] for one detection. *)
Definition checkZone (now : Z) (detection : Detection.t) (st : State)
  (zone : Zone.t) : State :=
  match violation now detection zone with
  | Some newAlert => recordViolation newAlert (Zone.id zone) st
  | None => st
  end.

(** One run of the effect: [zonesSeen] is the [zones] value of the render
    the effect closes over, [st] the state its updaters are applied to. *)
Definition effect (now : Z) (detectionResults : list Detection.t)
  (zonesSeen : list Zone.t) (st : State) : State :=
  fold_left
    (fun st detection => fold_left (checkZone now detection) zonesSeen st)
    detectionResults st.

(** A frame: the effect of a render whose [zones] is the current state. *)
Definition onFrame (now : Z) (detectionResults : list Detection.t) (st : State)
  : State :=
  effect now detectionResults (zones st) st.

(** [addZone], [removeZone] and [toggleZone]. *)
Definition addZone (now : Z) (st : State) : State :=
  let newZoneData :=
    {| Zone.id := Js.toString now;
       Zone.name := "Zone " ++ Js.toString (Z.of_nat (List.length (zones st)) + 1);
       Zone.type := monitored;
       Zone.coordinates := {| x := 50; y := 50; width := 150; height := 100 |};
       Zone.alertCount := 0; Zone.isActive := true;
       Zone.color := "#10b981" |} in
  {| zones := zones st ++ [newZoneData]; alerts := alerts st |}.

Definition removeZone (zoneId : string) (st : State) : State :=
  {| zones := filter (fun z => negb (String.eqb (Zone.id z) zoneId)) (zones st);
     alerts := alerts st |}.

Definition toggleZone (zoneId : string) (st : State) : State :=
  {| zones := map (fun z => if String.eqb (Zone.id z) zoneId then flipActive z else z)
                  (zones st);
     alerts := alerts st |}.

(** What can change the component state. *)
Inductive Action : Type :=
| Frame (now : Z) (detectionResults : list Detection.t)
| AddZone (now : Z)
| RemoveZone (zoneId : string)
| ToggleZone (zoneId : string).

Definition step (st : State) (a : Action) : State :=
  match a with
  | Frame now ds => onFrame now ds st
  | AddZone now => addZone now st
  | RemoveZone zoneId => removeZone zoneId st
  | ToggleZone zoneId => toggleZone zoneId st
  end.

(** The (alert, zone id) pairs one run of the effect raises, in the
    order the loops meet them. *)
Definition violations (now : Z) (detectionResults : list Detection.t)
  (zonesSeen : list Zone.t) : list (Alert.t * string) :=
  flat_map
    (fun detection =>
       flat_map
         (fun zone =>
            match violation now detection zone with
            | Some newAlert => [(newAlert, Zone.id zone)]
            | None => []
            end)
         zonesSeen)
    detectionResults.

End ROI.

(** ** Vocabulary of the specification *)

(** [z] is an integer nearest to [q]. *)
Definition nearest_integer (z : Z) (q : Q) : Prop :=
  forall n : Z, (Qabs (inject_Z z - q) <= Qabs (inject_Z n - q))%Q.

(** [z] is [q] up to the tolerance [tol]. *)
Definition within (tol : Q) (z : Z) (q : Q) : Prop :=
  (Qabs (inject_Z z - q) <= tol)%Q.

(** [r] is [q] rounded to two decimal places: the double of a number
    [k / 100] of hundredths, and no other number of hundredths is nearer
    to [q]. *)
Definition rounded_to_2_decimals (r : Js.Number) (q : Q) : Prop :=
  exists k : Z,
    r = Js.Finite (Js.fl (inject_Z k / 100)) /\ nearest_integer k (q * 100).

(** The geometry fields of [d] are those of the raw box
    [(bx, by_, bw, bh)]: sides and corner rounded to a nearest integer,
    centre and area within 1 of the exact values, and, when the height
    is not zero, the aspect ratio rounded to two decimal places. *)
Definition geometry_of (d : DetectionResult) (bx by_ bw bh : Q) : Prop :=
  nearest_integer (x d) bx /\
  nearest_integer (y d) by_ /\
  nearest_integer (width d) bw /\
  nearest_integer (height d) bh /\
  within 1 (centerX d) (bx + bw / 2) /\
  within 1 (centerY d) (by_ + bh / 2) /\
  within 1 (area d) (bw * bh) /\
  (~ (bh == 0)%Q -> rounded_to_2_decimals (aspectRatio d) (bw / bh)).

(** [q] is a double of magnitude at most [2^25], which covers the
    coordinates of any image. *)
Definition pixel_value (q : Q) : Prop :=
  (Js.fl q == q)%Q /\ (Qabs q <= 2 ^ 25)%Q.

(** [r] is the double of a number [k / 100] of hundredths, and [k] is
    within [1/2 + tol] of [q * 100]: [q] rounded to two decimal places,
    except that a [q * 100] within [tol] of a half-integer can go either
    way. *)
Definition rounded_to_2_decimals_within (tol : Q) (r : Js.Number) (q : Q) : Prop :=
  exists k : Z,
    r = Js.Finite (Js.fl (inject_Z k / 100)) /\ within ((1 # 2) + tol) k (q * 100).

(** The geometry fields of [d] as the doubles of the code give them for
    the raw box [(bx, by_, bw, bh)]: as in [geometry_of], with the
    aspect ratio rounded up to the errors of the two operations before
    [Math.round], for a quotient of magnitude at most [2^25]. *)
Definition pixel_geometry_of (d : DetectionResult) (bx by_ bw bh : Q) : Prop :=
  nearest_integer (x d) bx /\
  nearest_integer (y d) by_ /\
  nearest_integer (width d) bw /\
  nearest_integer (height d) bh /\
  within 1 (centerX d) (bx + bw / 2) /\
  within 1 (centerY d) (by_ + bh / 2) /\
  within 1 (area d) (bw * bh) /\
  (~ (bh == 0)%Q -> (Qabs (bw / bh) <= 2 ^ 25)%Q ->
   rounded_to_2_decimals_within (2 ^ (-20)) (aspectRatio d) (bw / bh)).

(** Equality of numbers up to the representation of fractions. *)
Definition Number_eq (a b : Js.Number) : Prop :=
  match a, b with
  | Js.Finite p, Js.Finite q => (p == q)%Q
  | Js.PosInfinity, Js.PosInfinity => True
  | Js.NegInfinity, Js.NegInfinity => True
  | Js.NaN, Js.NaN => True
  | _, _ => False
  end.

(** *** Tracker *)

(** [p] is a candidate for [d]: a detection of the previous frame with
    the label of [d]. *)
Definition candidate (prev : list DetectionResult) (d p : DetectionResult) : Prop :=
  In p prev /\ label p = label d.

(** [p] is a candidate for [d] and no candidate is nearer to [d]. *)
Definition nearest_candidate (prev : list DetectionResult) (d p : DetectionResult)
  : Prop :=
  candidate prev d p /\
  forall q, candidate prev d q -> (distance d p <= distance d q)%R.

(** Some candidate for [d] is less than 100 pixels away. *)
Definition has_match (prev : list DetectionResult) (d : DetectionResult) : bool :=
  existsb (fun p => String.eqb (label p) (label d) && (distance2 d p <? 100 * 100)) prev.

(** What the locals [(minDistance, bestMatch)] hold once the detections
    [seen] of the previous frame have been visited. *)
Definition locals_inv (d : DetectionResult) (seen : list DetectionResult)
  (locals : option Z * option DetectionResult) : Prop :=
  match locals with
  | (None, None) =>
      forall q, In q seen -> label q = label d -> 100 * 100 <= distance2 d q
  | (Some m, Some p) =>
      In p seen /\ label p = label d /\ m = distance2 d p /\ m < 100 * 100 /\
      forall q, In q seen -> label q = label d -> m <= distance2 d q
  | _ => False
  end.

(** How many detections of [ds] have no candidate within the threshold. *)
Definition newTracks (prev ds : list DetectionResult) : Z :=
  Z.of_nat (List.length (filter (fun d => negb (has_match prev d)) ds)).

(** The track id [t] was never handed out before the detection at
    position [i] of the frame was processed: it is above the counter the
    frame started with, it is carried by no detection of the previous
    frame and by no earlier detection of this frame. *)
Definition unused_before (this : ObjectDetector) (tracked : list DetectionResult)
  (i : nat) (t : Z) : Prop :=
  trackingId this < t /\
  (forall p, In p (previousDetections this) -> trackId p <> Some t) /\
  (forall j d', (j < i)%nat -> nth_error tracked j = Some d' -> trackId d' <> Some t).

(** What holds of the tracker fields between calls: the counter is not
    negative, every remembered detection carries a track id between 1 and
    the counter, and detections that share a track id share their label. *)
Definition tracker_inv (this : ObjectDetector) : Prop :=
  0 <= trackingId this /\
  (forall p, In p (previousDetections this) ->
     exists t, trackId p = Some t /\ 1 <= t <= trackingId this) /\
  (forall p q, In p (previousDetections this) -> In q (previousDetections this) ->
     trackId p = trackId q -> label p = label q).

(** The calls a client can make, each with what its awaited
    collaborators settle to.  [detectObjects] reads the tracker fields
    only after its one [await] and [loadModel] never touches them, so
    taking each call as one step loses no interleaving of tracker
    state. *)
Inductive Call : Type :=
| LoadModel (env : LoadEnv)
| DetectObjects (detect : Outcome (list Prediction)) (now : Z).

Definition after (c : Call) (this : ObjectDetector) : ObjectDetector :=
  match c with
  | LoadModel env => snd (loadModel env this)
  | DetectObjects detect now => snd (detectObjects detect now this)
  end.

(** The states of the exported [objectDetector]. *)
Inductive reachable : ObjectDetector -> Prop :=
| reachable_new : reachable newObjectDetector
| reachable_after (c : Call) (this : ObjectDetector) :
    reachable this -> reachable (after c this).

(** The model is loaded. *)
Definition loaded (this : ObjectDetector) : Prop := model this <> None.

(** The first rejection among the awaited calls of [loadModel], if any. *)
Definition loadFailure (env : LoadEnv) : option Error :=
  match tf_setBackend env with
  | Rejected e => Some e
  | Resolved _ =>
      match tf_ready env with
      | Rejected e => Some e
      | Resolved _ =>
          match cocoSsd_load env with
          | Rejected e => Some e
          | Resolved _ => None
          end
      end
  end.

(** *** The tracker run as plain functions

    [assignTrackingIds] reads [previousDetections], which it never
    writes, and the counter, which it only increments; the functions
    below are what its loop computes, as shown by [assignTrackingIds_run]. *)

(** [this] with its counter set to [n]. *)
Definition with_trackingId (this : ObjectDetector) (n : Z) : ObjectDetector :=
  {| model := model this; isLoading := isLoading this; trackingId := n;
     previousDetections := previousDetections this |}.

(** [this] with its previous-frame snapshot set to [l]. *)
Definition with_previousDetections (this : ObjectDetector)
  (l : list DetectionResult) : ObjectDetector :=
  {| model := model this; isLoading := isLoading this;
     trackingId := trackingId this; previousDetections := l |}.

(** The detection [d] as the loop body leaves it when the counter reads [c]. *)
Definition tracked_at (prev : list DetectionResult) (c : Z) (d : DetectionResult)
  : DetectionResult :=
  match findBestMatch prev d with
  | Some bestMatch => set_trackId d (trackId bestMatch)
  | None => set_trackId d (Some (c + 1))
  end.

(** The counter after the loop body has run on [d]. *)
Definition counter_after (prev : list DetectionResult) (c : Z) (d : DetectionResult)
  : Z :=
  if has_match prev d then c else c + 1.

Fixpoint tracked_from (prev : list DetectionResult) (c : Z)
  (ds : list DetectionResult) : list DetectionResult :=
  match ds with
  | [] => []
  | d :: ds' => tracked_at prev c d :: tracked_from prev (counter_after prev c d) ds'
  end.

(** *** ROI monitor *)

(** The centre of [d] lies in the rectangle of [z], borders included. *)
Definition inside (d : ROI.Detection.t) (z : ROI.Zone.t) : Prop :=
  let cx := (ROI.Detection.x d + ROI.Detection.width d / 2)%Q in
  let cy := (ROI.Detection.y d + ROI.Detection.height d / 2)%Q in
  let r := ROI.Zone.coordinates z in
  (ROI.x r <= cx /\ cx <= ROI.x r + ROI.width r /\
   ROI.y r <= cy /\ cy <= ROI.y r + ROI.height r)%Q.

(** [d] violates [z]: the zone is active and restricted and [d] is in it. *)
Definition violates (d : ROI.Detection.t) (z : ROI.Zone.t) : Prop :=
  ROI.Zone.isActive z = true /\ ROI.Zone.type z = ROI.restricted /\ inside d z.

(** The state after the violations [vs], oldest first, are recorded. *)
Definition recordAll (vs : list (ROI.Alert.t * string)) (st : ROI.State) : ROI.State :=
  fold_left (fun st v => ROI.recordViolation (fst v) (snd v) st) vs st.

(** From [st] to [st'] every zone keeps its place and its id and its
    alert counter has not gone down. *)
Definition counters_kept (st st' : ROI.State) : Prop :=
  forall j z, nth_error (ROI.zones st) j = Some z ->
    exists z', nth_error (ROI.zones st') j = Some z' /\
               ROI.Zone.id z' = ROI.Zone.id z /\
               ROI.Zone.alertCount z <= ROI.Zone.alertCount z'.

(** [z] with its alert counter set to [n]. *)
Definition with_alertCount (z : ROI.Zone.t) (n : Z) : ROI.Zone.t :=
  {| ROI.Zone.id := ROI.Zone.id z; ROI.Zone.name := ROI.Zone.name z;
     ROI.Zone.type := ROI.Zone.type z;
     ROI.Zone.coordinates := ROI.Zone.coordinates z;
     ROI.Zone.alertCount := n;
     ROI.Zone.isActive := ROI.Zone.isActive z; ROI.Zone.color := ROI.Zone.color z |}.

(** How many of the violations [vs] are of the zone id [zoneId]. *)
Definition hits (zoneId : string) (vs : list (ROI.Alert.t * string)) : Z :=
  Z.of_nat (List.length (filter (fun v => String.eqb zoneId (snd v)) vs)).

(** ** Sample runs *)

(** A load in which every awaited call resolves. *)
Definition okEnv : LoadEnv :=
  {| tf_setBackend := Resolved true;
     tf_ready := Resolved tt;
     cocoSsd_load := Resolved {| base := "mobilenet_v2" |} |}.

(** A load whose model download is rejected. *)
Definition failingEnv : LoadEnv :=
  {| tf_setBackend := Resolved true;
     tf_ready := Resolved tt;
     cocoSsd_load := Rejected "Failed to fetch"%string |}.

Definition prediction (c : string) (bx by_ bw bh : Q) : Prediction :=
  {| bbox := (bx, by_, bw, bh); class := c; score := 9 # 10 |}.

(** The detector once its model is loaded. *)
Definition readyDetector : ObjectDetector :=
  after (LoadModel okEnv) newObjectDetector.

(** The detector after a first frame showing one person, centre (125, 150). *)
Definition afterFirstFrame : ObjectDetector :=
  after (DetectObjects (Resolved [prediction "person" 100 100 50 100]) 1000)
        readyDetector.

(** A second frame with two people, each within 100 pixels of the person
    of the first frame: centres (135, 150) and (95, 150). *)
Definition twoPeople : list Prediction :=
  [prediction "person" 110 100 50 100; prediction "person" 70 100 50 100].

(** A second frame with a car exactly where the person of the first
    frame was. *)
Definition carInPlace : list Prediction := [prediction "car" 100 100 50 100].

(** The first of the two initial zones. *)
Definition restrictedArea : ROI.Zone.t :=
  {| ROI.Zone.id := "1"; ROI.Zone.name := "Restricted Area";
     ROI.Zone.type := ROI.restricted;
     ROI.Zone.coordinates :=
       {| ROI.x := 100; ROI.y := 100; ROI.width := 200; ROI.height := 150 |};
     ROI.Zone.alertCount := 0; ROI.Zone.isActive := true;
     ROI.Zone.color := "#ef4444" |}.

(** A detection centred on the right border of that zone, (300, 160). *)
Definition onBorder : ROI.Detection.t :=
  {| ROI.Detection.id := "5-0"; ROI.Detection.label := "person";
     ROI.Detection.x := 290; ROI.Detection.y := 150;
     ROI.Detection.width := 20; ROI.Detection.height := 20 |}.

(** A detection whose centre (160, 160) is in the initial restricted zone. *)
Definition intruder : ROI.Detection.t :=
  {| ROI.Detection.id := "1000-0"; ROI.Detection.label := "person";
     ROI.Detection.x := 150; ROI.Detection.y := 150;
     ROI.Detection.width := 20; ROI.Detection.height := 20 |}.

(** Eleven frames, each showing the intruder, at times 1 to 11. *)
Definition elevenFrames : list ROI.Action :=
  map (fun now => ROI.Frame now [intruder]) [1; 2; 3; 4; 5; 6; 7; 8; 9; 10; 11].

(** Eleven alerts of the initial restricted zone, raised at times 1 to 11. *)
Definition elevenAlerts : list ROI.Alert.t :=
  map (fun n => ROI.Alert.mk (Js.toString n) "Restricted Area" "person" n ROI.high)
      [1; 2; 3; 4; 5; 6; 7; 8; 9; 10; 11].

(** ** Further vocabulary: runs of calls *)

(** The detector after the calls [cs], made in order. *)
Definition afterAll (cs : list Call) (this : ObjectDetector) : ObjectDetector :=
  fold_left (fun s c => after c s) cs this.

(** The per-frame id of the record at position [i] of a frame stamped
    [now]: [`${timestamp}-${index}`]. *)
Definition frameId (now : Z) (i : nat) : string :=
  Js.toString now ++ "-" ++ Js.toString (Z.of_nat i).

(** What the locals of the inner loop hold once [seen] has been visited,
    with the place of [bestMatch] in [seen]: every same-label detection
    before it is strictly farther, every one after it is at least as far. *)
Definition locals_first (d : DetectionResult) (seen : list DetectionResult)
  (locals : option Z * option DetectionResult) : Prop :=
  match locals with
  | (None, None) =>
      forall q, In q seen -> label q = label d -> 100 * 100 <= distance2 d q
  | (Some m, Some p) =>
      m = distance2 d p /\ m < 100 * 100 /\
      exists before after_,
        seen = before ++ p :: after_ /\
        (forall q, In q before -> label q = label d -> m < distance2 d q) /\
        (forall q, In q after_ -> label q = label d -> m <= distance2 d q)
  | _ => False
  end.

(** A frame with two people 40 pixels apart, centres (100, 100) and
    (140, 100), and the detector after it. *)
Definition pairFrame : list Prediction :=
  [prediction "person" 75 50 50 100; prediction "person" 115 50 50 100].

Definition afterPairFrame : ObjectDetector :=
  after (DetectObjects (Resolved pairFrame) 1000) readyDetector.

(** A person detected midway between the two, centre (120, 100). *)
Definition between : DetectionResult :=
  toDetection 2000 0 (prediction "person" 95 50 50 100).

(** ** Further vocabulary: the ROI component *)

(** The states the ROI component can be in. *)
Inductive roi_reachable : ROI.State -> Prop :=
| roi_initial : roi_reachable ROI.initialState
| roi_step (st : ROI.State) (a : ROI.Action) :
    roi_reachable st -> roi_reachable (ROI.step st a).

(** How many detections of [ds] raise an alert in [z]. *)
Definition intrusions (now : Z) (ds : list ROI.Detection.t) (z : ROI.Zone.t) : Z :=
  Z.of_nat (List.length (filter (fun d => truthy (ROI.violation now d z)) ds)).

(** A raw box whose stored centre, (100, 160), is on the left border of
    the initial restricted zone, while the centre of its rounded box is
    at (99.5, 160). *)
Definition grazing : Prediction :=
  prediction "person" (994 # 10) 150 (14 # 10) 20.

(** A box of width 100 and height 6.4, the height being the double
    nearest to 6.4, and a square box of side [10^10 + 1]. *)
Definition flatBox : Prediction :=
  prediction "person" 0 0 100 (Js.fl (64 # 10)).

Definition hugeBox : Prediction :=
  prediction "car" 0 0 10000000001 10000000001.

(** A detection whose centre (400, 50) is in neither initial zone. *)
Definition outsider : ROI.Detection.t :=
  {| ROI.Detection.id := "3-2"; ROI.Detection.label := "dog";
     ROI.Detection.x := 390; ROI.Detection.y := 40;
     ROI.Detection.width := 20; ROI.Detection.height := 20 |}.

(** ** The tracking panel: the effect and helpers of [ObjectTracking.tsx] *)

Module Tracking.

(** What the [id] of a tracked object can hold at run time: the interface
    says [number], the spread of a detection puts a string there. *)
Inductive Value : Type :=
| Num (n : Z)
| Str (s : string).

(** [a === b]: values of different types are never equal. *)
Definition strictEq (a b : Value) : bool :=
  match a, b with
  | Num m, Num n => m =? n
  | Str s, Str t => String.eqb s t
  | _, _ => false
  end.

(** An element of [trajectory]; [timestamp] is the [Date] in milliseconds. *)
Module Point.
Record t : Type := mk {
  x : Z;
  y : Z;
  timestamp : Z
}.
End Point.

(** A tracked object as the effect builds it: the properties of the
    detection spread into it (its string [id] among them, kept here also
    as [id]), and the four properties of [TrackedObject] that a
    detection does not have. *)
Module TrackedObject.
Record t : Type := mk {
  id : Value;
  fields : DetectionResult;
  firstSeen : Z;
  lastSeen : Z;
  frameCount : Z;
  trajectory : list Point.t
}.
End TrackedObject.

(** [s.toLowerCase()], on the ASCII letters. *)
Definition lowerAscii (c : ascii) : ascii :=
  let n := nat_of_ascii c in
  if (65 <=? n)%nat && (n <=? 90)%nat then ascii_of_nat (n + 32) else c.

Fixpoint toLowerCase (s : string) : string :=
  match s with
  | EmptyString => EmptyString
  | String c s' => String (lowerAscii c) (toLowerCase s')
  end.

(** [s.includes(sub)]. *)
Fixpoint includes (s sub : string) : bool :=
  if String.prefix sub s then true
  else
    match s with
    | EmptyString => false
    | String _ s' => includes s' sub
    end.

(** [l.slice(-10)]: the last ten elements. *)
Definition lastTen {A : Type} (l : list A) : list A :=
  skipn (List.length l - 10) l.

(** The test of [trackedObjects.find]:
    [obj.id === detection.trackId || obj.id === index + 1].  An absent
    [trackId] is [undefined], which no id equals. *)
Definition sameTrack (detection : DetectionResult) (index : nat)
  (obj : TrackedObject.t) : bool :=
  match trackId detection with
  | Some t => strictEq (TrackedObject.id obj) (Num t)
  | None => false
  end
  || strictEq (TrackedObject.id obj) (Num (Z.of_nat index + 1)).

(** [{ ...existingObject, ...detection }] on the detection's properties:
    those of the detection win; [trackId], the one optional property, is
    kept from the existing object when the detection has none. *)
Definition spread (existingObject : TrackedObject.t) (detection : DetectionResult)
  : DetectionResult :=
  set_trackId detection
    (match trackId detection with
     | Some t => Some t
     | None => trackId (TrackedObject.fields existingObject)
     end).

(** The callback of [detectionResults.map].  In both object literals
    [...detection] comes after [id], so the object's [id] is the
    detection's own string id. *)
Definition updateObject (now : Z) (trackedObjects : list TrackedObject.t)
  (index : nat) (detection : DetectionResult) : TrackedObject.t :=
  match find (sameTrack detection index) trackedObjects with
  | Some existingObject =>
      {| TrackedObject.id := Str (id detection);
         TrackedObject.fields := spread existingObject detection;
         TrackedObject.firstSeen := TrackedObject.firstSeen existingObject;
         TrackedObject.lastSeen := now;
         TrackedObject.frameCount := TrackedObject.frameCount existingObject + 1;
         TrackedObject.trajectory :=
           lastTen (TrackedObject.trajectory existingObject) ++
           [ {| Point.x := x detection; Point.y := y detection;
                Point.timestamp := now |} ] |}
  | None =>
      {| TrackedObject.id := Str (id detection);
         TrackedObject.fields := detection;
         TrackedObject.firstSeen := now;
         TrackedObject.lastSeen := now;
         TrackedObject.frameCount := 1;
         TrackedObject.trajectory :=
           [ {| Point.x := x detection; Point.y := y detection;
                Point.timestamp := now |} ] |}
  end.

(** The [totalCounts] state. *)
Record Counts : Type := mkCounts {
  person : Z;
  car : Z;
  bicycle : Z;
  truck : Z
}.

(** The callback of [updatedObjects.forEach], on the local [counts]. *)
Definition countObject (counts : Counts) (obj : TrackedObject.t) : Counts :=
  let label := toLowerCase (label (TrackedObject.fields obj)) in
  if includes label "person" then
    {| person := person counts + 1; car := car counts;
       bicycle := bicycle counts; truck := truck counts |}
  else if includes label "car" then
    {| person := person counts; car := car counts + 1;
       bicycle := bicycle counts; truck := truck counts |}
  else if includes label "bicycle" then
    {| person := person counts; car := car counts;
       bicycle := bicycle counts + 1; truck := truck counts |}
  else if includes label "truck" then
    {| person := person counts; car := car counts;
       bicycle := bicycle counts; truck := truck counts + 1 |}
  else counts.

(** The two pieces of state of the component. *)
Record State : Type := mkState {
  trackedObjects : list TrackedObject.t;
  totalCounts : Counts
}.

Definition initialState : State :=
  {| trackedObjects := [];
     totalCounts := {| person := 0; car := 0; bicycle := 0; truck := 0 |} |}.

(** One run of the effect; [now] is [new Date()]. *)
Definition effect (now : Z) (detectionResults : list DetectionResult) (st : State)
  : State :=
  if (0 <? List.length detectionResults)%nat then
    let updatedObjects :=
      mapi_from (updateObject now (trackedObjects st)) 0 detectionResults in
    {| trackedObjects := updatedObjects;
       totalCounts :=
         fold_left countObject updatedObjects
           {| person := 0; car := 0; bicycle := 0; truck := 0 |} |}
  else st.

(** [trajectory.reduce((path, point, index) => ..., '')], from [index]. *)
Fixpoint reducePath (path : string) (index : nat) (trajectory : list Point.t)
  : string :=
  match trajectory with
  | [] => path
  | point :: rest =>
      let command := (if (index =? 0)%nat then "M" else "L")%string in
      reducePath
        (path ++ " " ++ command ++ " " ++ Js.toString (Point.x point) ++ " " ++
         Js.toString (Point.y point))
        (S index) rest
  end.

Definition getTrajectoryPath (trajectory : list Point.t) : string :=
  if (List.length trajectory <? 2)%nat then EmptyString
  else reducePath EmptyString 0 trajectory.

End Tracking.

(** The states the tracking panel can be in. *)
Inductive tracking_reachable : Tracking.State -> Prop :=
| tracking_initial : tracking_reachable Tracking.initialState
| tracking_effect (now : Z) (detectionResults : list DetectionResult)
    (st : Tracking.State) :
    tracking_reachable st ->
    tracking_reachable (Tracking.effect now detectionResults st).

(** The lower-cased label contains [word]. *)
Definition mentions (word : string) (d : DetectionResult) : bool :=
  Tracking.includes (Tracking.toLowerCase (label d)) word.

(** How many detections of [ds] satisfy [f]. *)
Definition howMany (f : DetectionResult -> bool) (ds : list DetectionResult) : Z :=
  Z.of_nat (List.length (filter f ds)).

(** A frame with a person and a carrot. *)
Definition snack : list DetectionResult :=
  [toDetection 1000 0 (prediction "person" 100 100 50 100);
   toDetection 1000 1 (prediction "carrot" 10 10 20 20)].

(** One piece of a path: [` ${command} ${point.x} ${point.y}`]. *)
Definition segment (command : string) (point : Tracking.Point.t) : string :=
  " " ++ command ++ " " ++ Js.toString (Tracking.Point.x point) ++ " " ++
  Js.toString (Tracking.Point.y point).

(** The strings of [l] put end to end. *)
Definition joinAll (l : list string) : string :=
  fold_right String.append EmptyString l.

(** ** The detection panel: [processImage] of [DetectionModes.tsx], wired
    as the page wires it *)

Module Panel.

(** [isProcessing] and [detections] are state of the panel;
    [detectionResults] is the state of the page, whose setter the panel
    receives as [onDetectionResults]. *)
Record State : Type := mkState {
  isProcessing : bool;
  detections : list DetectionResult;
  detectionResults : list DetectionResult
}.

Definition setIsProcessing (b : bool) (ui : State) : State :=
  {| isProcessing := b; detections := detections ui;
     detectionResults := detectionResults ui |}.

Definition setDetections (l : list DetectionResult) (ui : State) : State :=
  {| isProcessing := isProcessing ui; detections := l;
     detectionResults := detectionResults ui |}.

Definition onDetectionResults (l : list DetectionResult) (ui : State) : State :=
  {| isProcessing := isProcessing ui; detections := detections ui;
     detectionResults := l |}.

(** [processImage(imageElement)]: [detect] is how the model call on the
    image settles, [now] what [Date.now()] returns. *)
Definition processImage (detect : Outcome (list Prediction)) (now : Z)
  (this : ObjectDetector) (ui : State) : Outcome unit * ObjectDetector * State :=
  match isModelLoaded this with
  | (Rejected e, this1) => (Rejected e, this1, ui)
  | (Resolved false, this1) => (Resolved tt, this1, ui)
  | (Resolved true, this1) =>
      let ui1 := setIsProcessing true ui in
      match detectObjects detect now this1 with
      | (Resolved results, this2) =>
          (Resolved tt, this2,
           setIsProcessing false (onDetectionResults results (setDetections results ui1)))
      | (Rejected error, this2) =>
          (Resolved tt, this2, setIsProcessing false ui1)
      end
  end.

End Panel.

(** * Properties *)

(** ** Rounding *)

Lemma Math_round_bounds (q : Q) :
  (inject_Z (Js.Math_round q) - (1 # 2) <= q /\
   q < inject_Z (Js.Math_round q) + (1 # 2))%Q.
Proof.
  unfold Js.Math_round.
  pose proof (Qfloor_le (q + (1 # 2))) as Hlo.
  pose proof (Qlt_floor (q + (1 # 2))) as Hhi.
  rewrite inject_Z_plus in Hhi; change (inject_Z 1) with 1%Q in Hhi.
  split; Lqa.lra.
Qed.

Lemma Math_round_nearest (q : Q) : nearest_integer (Js.Math_round q) q.
Proof.
  intro n.
  destruct (Math_round_bounds q) as [Hlo Hhi].
  set (r := Js.Math_round q) in *.
  assert (Hcases : n + 1 <= r \/ n = r \/ r + 1 <= n) by lia.
  destruct Hcases as [Hn | [Hn | Hn]].
  - rewrite Zle_Qle, inject_Z_plus in Hn; change (inject_Z 1) with 1%Q in Hn.
    apply Qabs_case; intros; apply Qabs_case; intros; simpl in *; Lqa.lra.
  - subst n. apply Qle_refl.
  - rewrite Zle_Qle, inject_Z_plus in Hn; change (inject_Z 1) with 1%Q in Hn.
    apply Qabs_case; intros; apply Qabs_case; intros; simpl in *; Lqa.lra.
Qed.

Lemma Math_round_within_half (q : Q) : within (1 # 2) (Js.Math_round q) q.
Proof.
  unfold within.
  destruct (Math_round_bounds q) as [Hlo Hhi].
  apply Qabs_case; intros; Lqa.lra.
Qed.

Lemma Math_round_within_1 (q : Q) : within 1 (Js.Math_round q) q.
Proof.
  unfold within.
  apply Qle_trans with (1 # 2)%Q; [apply Math_round_within_half | discriminate].
Qed.

Lemma Math_round_inject_Z (n : Z) : Js.Math_round (inject_Z n) = n.
Proof.
  destruct (Math_round_bounds (inject_Z n)) as [Hlo Hhi].
  set (r := Js.Math_round (inject_Z n)) in *.
  assert (Hl : (inject_Z r <= inject_Z n + (1 # 2))%Q) by Lqa.lra.
  assert (Hr : (inject_Z n < inject_Z r + 1)%Q) by Lqa.lra.
  assert (r <= n).
  { destruct (Z_le_gt_dec r n) as [|Hgt]; [assumption|exfalso].
    assert (Hq : n + 1 <= r) by lia.
    rewrite Zle_Qle, inject_Z_plus in Hq; change (inject_Z 1) with 1%Q in Hq.
    Lqa.lra. }
  assert (n < r + 1).
  { change 1%Q with (inject_Z 1) in Hr. rewrite <- inject_Z_plus in Hr.
    now rewrite Zlt_Qlt. }
  lia.
Qed.

(** ** Doubles *)

Lemma pow2_pos (e : Z) : (0 < 2 ^ e)%Q.
Proof. apply Qpower_0_lt. reflexivity. Qed.

Lemma pow2_plus (a b : Z) : (2 ^ (a + b) == 2 ^ a * 2 ^ b)%Q.
Proof. apply Qpower_plus. discriminate. Qed.

Lemma pow2_succ (e : Z) : (2 ^ (e + 1) == 2 * 2 ^ e)%Q.
Proof. rewrite pow2_plus. change (2 ^ 1)%Q with 2%Q. ring. Qed.

Lemma pow2_le (a b : Z) : a <= b -> (2 ^ a <= 2 ^ b)%Q.
Proof. intro H. apply Qpower_le_compat_l; [assumption | discriminate]. Qed.

Lemma pow2_lt (a b : Z) : a < b -> (2 ^ a < 2 ^ b)%Q.
Proof. intro H. apply Qpower_lt_compat_l; [assumption | reflexivity]. Qed.

Lemma pow2_lt_inv (a b : Z) : (2 ^ a < 2 ^ b)%Q -> a < b.
Proof. intro H. apply (Qpower_lt_compat_l_inv 2); [assumption | reflexivity]. Qed.

Lemma pow2_Z (n : Z) : 0 <= n -> (inject_Z (2 ^ n) == 2 ^ n)%Q.
Proof. intro H. now rewrite Zpower_Qpower. Qed.

Lemma Qmult_lt_le_compat (a b c d : Q) :
  (0 <= a)%Q -> (a < b)%Q -> (0 < c)%Q -> (c <= d)%Q -> (a * c < b * d)%Q.
Proof.
  intros Ha Hab Hc Hcd.
  apply Qlt_le_trans with (b * c)%Q.
  - apply Qmult_lt_compat_r; assumption.
  - rewrite (Qmult_comm b c), (Qmult_comm b d).
    apply Qmult_le_compat_r; [assumption|]. Lqa.lra.
Qed.

Lemma ilog2_spec (a : Q) :
  (0 < a)%Q -> (2 ^ Js.ilog2 a <= a /\ a < 2 ^ (Js.ilog2 a + 1))%Q.
Proof.
  intro Ha. destruct a as [n d].
  assert (Hn : 0 < n) by (unfold Qlt in Ha; cbn in Ha; lia).
  unfold Js.ilog2. cbn [Qnum Qden].
  set (ln := Z.log2 n). set (ld := Z.log2 (Z.pos d)).
  destruct (Z.log2_spec n Hn) as [Hn1 Hn2].
  destruct (Z.log2_spec (Z.pos d) eq_refl) as [Hd1 Hd2].
  fold ln in Hn1, Hn2. fold ld in Hd1, Hd2.
  assert (Hln : 0 <= ln) by apply Z.log2_nonneg.
  assert (Hld : 0 <= ld) by apply Z.log2_nonneg.
  rewrite Zle_Qle in Hn1, Hd1. rewrite Zlt_Qlt in Hn2, Hd2.
  unfold Z.succ in Hn2, Hd2.
  rewrite pow2_Z in Hn1, Hn2, Hd1, Hd2 by lia.
  rewrite pow2_succ in Hn2, Hd2.
  set (A := (2 ^ ln)%Q) in *. set (B := (2 ^ ld)%Q) in *.
  assert (HA : (0 < A)%Q) by apply pow2_pos.
  assert (HB : (0 < B)%Q) by apply pow2_pos.
  set (N := inject_Z n) in *. set (D := inject_Z (Z.pos d)) in *.
  assert (HD : (0 < D)%Q) by Lqa.lra.
  assert (Ea : (n # d == N / D)%Q) by apply Qmake_Qdiv.
  assert (Ek : (2 ^ (ln - ld) == A / B)%Q) by (apply Qpower_minus; discriminate).
  assert (HDne : ~ (D == 0)%Q) by Lqa.lra.
  assert (HBne : ~ (B == 0)%Q) by Lqa.lra.
  destruct (Qle_bool (2 ^ (ln - ld)) (n # d)) eqn:E.
  - apply Qle_bool_iff in E. split; [exact E|].
    rewrite pow2_succ, Ek, Ea.
    apply Qlt_shift_div_r; [assumption|].
    setoid_replace (2 * (A / B) * D)%Q with ((2 * A * D) / B)%Q by (field; assumption).
    apply Qlt_shift_div_l; [assumption|].
    apply (Qmult_lt_le_compat N (2 * A) B D); Lqa.lra.
  - assert (E' : ~ (2 ^ (ln - ld) <= n # d)%Q).
    { intro H. apply Qle_bool_iff in H. congruence. }
    apply Qnot_le_lt in E'. split.
    + assert (Ek1 : (2 ^ (ln - ld - 1) == A / (2 * B))%Q).
      { replace (ln - ld - 1) with (ln - (ld + 1)) by lia.
        rewrite Qpower_minus by discriminate. rewrite pow2_succ. reflexivity. }
      rewrite Ek1, Ea.
      apply Qle_shift_div_l; [assumption|].
      setoid_replace (A / (2 * B) * D)%Q with ((A * D) / (2 * B))%Q by (field; assumption).
      apply Qle_shift_div_r; [Lqa.lra|].
      apply Qlt_le_weak.
      setoid_replace (N * (2 * B))%Q with ((2 * B) * N)%Q by ring.
      setoid_replace (A * D)%Q with (D * A)%Q by ring.
      apply Qle_lt_trans with (D * N)%Q.
      * rewrite (Qmult_comm D A), (Qmult_comm D N).
        apply Qmult_le_compat_r; Lqa.lra.
      * apply Qmult_lt_compat_r; Lqa.lra.
    + replace (ln - ld - 1 + 1) with (ln - ld) by lia. exact E'.
Qed.

(** ** Rounding to an integer, ties to even *)

Lemma rne_cases (s : Q) :
  let f := Qfloor s in
  (Js.roundTiesToEven s = f /\ (s - inject_Z f <= 1 # 2)%Q) \/
  (Js.roundTiesToEven s = f + 1 /\ (1 # 2 <= s - inject_Z f)%Q).
Proof.
  cbv zeta. unfold Js.roundTiesToEven.
  destruct (Qcompare_spec (s - inject_Z (Qfloor s)) (1 # 2)) as [H|H|H].
  - destruct (Z.even (Qfloor s)); [left | right]; split; try reflexivity;
      rewrite H; apply Qle_refl.
  - left. split; [reflexivity | now apply Qlt_le_weak].
  - right. split; [reflexivity | now apply Qlt_le_weak].
Qed.

Lemma Qfloor_bounds (s : Q) :
  (inject_Z (Qfloor s) <= s /\ s < inject_Z (Qfloor s) + 1)%Q.
Proof.
  split; [apply Qfloor_le|].
  pose proof (Qlt_floor s) as H.
  rewrite inject_Z_plus in H. exact H.
Qed.

Lemma rne_bounds (s : Q) :
  (inject_Z (Js.roundTiesToEven s) - (1 # 2) <= s /\
   s <= inject_Z (Js.roundTiesToEven s) + (1 # 2))%Q.
Proof.
  destruct (Qfloor_bounds s) as [Hlo Hhi].
  destruct (rne_cases s) as [[-> H] | [-> H]].
  - split; Lqa.lra.
  - rewrite inject_Z_plus. change (inject_Z 1) with 1%Q. split; Lqa.lra.
Qed.

Lemma rne_comp (s t : Q) : (s == t)%Q -> Js.roundTiesToEven s = Js.roundTiesToEven t.
Proof.
  intro H. unfold Js.roundTiesToEven.
  rewrite (Qfloor_comp _ _ H).
  assert (E : (s - inject_Z (Qfloor t) == t - inject_Z (Qfloor t))%Q) by (rewrite H; reflexivity).
  now rewrite (Qcompare_comp _ _ E _ _ (Qeq_refl (1 # 2))).
Qed.

Lemma rne_Z (z : Z) : Js.roundTiesToEven (inject_Z z) = z.
Proof.
  unfold Js.roundTiesToEven. rewrite Qfloor_Z.
  assert (E : (inject_Z z - inject_Z z == 0)%Q) by ring.
  now rewrite (Qcompare_comp _ _ E _ _ (Qeq_refl (1 # 2))).
Qed.

Lemma rne_le (s t : Q) : (s <= t)%Q -> Js.roundTiesToEven s <= Js.roundTiesToEven t.
Proof.
  intro Hst.
  pose proof (Qfloor_resp_le _ _ Hst) as Hf.
  destruct (Qfloor_bounds s) as [Hs1 Hs2].
  destruct (Qfloor_bounds t) as [Ht1 Ht2].
  destruct (Z.eq_dec (Qfloor s) (Qfloor t)) as [E|NE].
  - unfold Js.roundTiesToEven. rewrite <- E.
    destruct (Qcompare_spec (s - inject_Z (Qfloor s)) (1 # 2)) as [H|H|H];
      destruct (Qcompare_spec (t - inject_Z (Qfloor s)) (1 # 2)) as [H'|H'|H'];
      destruct (Z.even (Qfloor s)); try lia; exfalso; Lqa.lra.
  - assert (Hlt : Qfloor s + 1 <= Qfloor t) by lia.
    destruct (rne_cases s) as [[-> _] | [-> _]];
      destruct (rne_cases t) as [[-> _] | [-> _]]; lia.
Qed.

(** ** The nearest double of a positive rational *)

Lemma exponent_spec (a : Q) :
  (0 < a)%Q ->
  let e := Js.exponent a in
  -1074 <= e /\ (a < 2 ^ (e + 53))%Q /\ (e = -1074 \/ (2 ^ (e + 52) <= a)%Q).
Proof.
  intro Ha. cbv zeta. unfold Js.exponent.
  destruct (ilog2_spec a Ha) as [Hlo Hhi].
  split; [lia|]. split.
  - apply Qlt_le_trans with (1 := Hhi). apply pow2_le. lia.
  - destruct (Z.max_spec (-1074) (Js.ilog2 a - 52)) as [[_ ->] | [_ ->]].
    + right. now replace (Js.ilog2 a - 52 + 52) with (Js.ilog2 a) by lia.
    + now left.
Qed.

Lemma exponent_le (a b : Q) :
  (0 < a)%Q -> (a <= b)%Q -> Js.exponent a <= Js.exponent b.
Proof.
  intros Ha Hab.
  assert (Hb : (0 < b)%Q) by Lqa.lra.
  destruct (ilog2_spec a Ha) as [Hlo _].
  destruct (ilog2_spec b Hb) as [_ Hhi].
  assert (Js.ilog2 a < Js.ilog2 b + 1) by (apply pow2_lt_inv; Lqa.lra).
  unfold Js.exponent. lia.
Qed.

Lemma scaled (a : Q) (e : Z) : (a / 2 ^ e * 2 ^ e == a)%Q.
Proof. field. pose proof (pow2_pos e). Lqa.lra. Qed.

Lemma scaled_le (a b : Q) (e : Z) : (a <= b * 2 ^ e)%Q -> (a / 2 ^ e <= b)%Q.
Proof. intro H. apply Qle_shift_div_r; [apply pow2_pos | assumption]. Qed.

Lemma scaled_ge (a b : Q) (e : Z) : (b * 2 ^ e <= a)%Q -> (b <= a / 2 ^ e)%Q.
Proof. intro H. apply Qle_shift_div_l; [apply pow2_pos | assumption]. Qed.

Lemma inject_Z_pow2 (n : Z) : 0 <= n -> (inject_Z (2 ^ n) == 2 ^ n)%Q.
Proof. exact (pow2_Z n). Qed.

(** The significand is at most [2^53], and at least [2^52] for a normal
    number. *)
Lemma significand_spec (a : Q) :
  (0 < a)%Q ->
  let e := Js.exponent a in
  let m := Js.roundTiesToEven (a / 2 ^ e) in
  0 <= m <= 2 ^ 53 /\ (e = -1074 \/ 2 ^ 52 <= m).
Proof.
  intro Ha. cbv zeta.
  destruct (exponent_spec a Ha) as (He & Hhi & Hlo).
  set (e := Js.exponent a) in *.
  pose proof (pow2_pos e) as HP.
  split; [split|].
  - rewrite <- (rne_Z 0). apply rne_le. apply scaled_ge.
    change (inject_Z 0) with 0%Q. Lqa.lra.
  - rewrite <- (rne_Z (2 ^ 53)). apply rne_le. apply scaled_le.
    rewrite inject_Z_pow2 by lia. rewrite <- pow2_plus.
    replace (53 + e) with (e + 53) by lia. now apply Qlt_le_weak.
  - destruct Hlo as [Hlo | Hlo]; [now left | right].
    rewrite <- (rne_Z (2 ^ 52)). apply rne_le. apply scaled_ge.
    rewrite inject_Z_pow2 by lia. rewrite <- pow2_plus.
    now replace (52 + e) with (e + 52) by lia.
Qed.

Lemma nearest_bounds (a : Q) :
  let e := Js.exponent a in
  (Js.nearest a - 2 ^ e / 2 <= a /\ a <= Js.nearest a + 2 ^ e / 2)%Q.
Proof.
  cbv zeta. unfold Js.nearest.
  set (e := Js.exponent a).
  pose proof (pow2_pos e) as HP.
  destruct (rne_bounds (a / 2 ^ e)) as [Hlo Hhi].
  set (m := inject_Z (Js.roundTiesToEven (a / 2 ^ e))) in *.
  pose proof (scaled a e) as Hs.
  split.
  - setoid_replace (m * 2 ^ e - 2 ^ e / 2)%Q with ((m - (1 # 2)) * 2 ^ e)%Q by field.
    assert (H : ((m - (1 # 2)) * 2 ^ e <= a / 2 ^ e * 2 ^ e)%Q)
      by (apply Qmult_le_compat_r; Lqa.lra).
    now rewrite Hs in H.
  - setoid_replace (m * 2 ^ e + 2 ^ e / 2)%Q with ((m + (1 # 2)) * 2 ^ e)%Q by field.
    assert (H : (a / 2 ^ e * 2 ^ e <= (m + (1 # 2)) * 2 ^ e)%Q)
      by (apply Qmult_le_compat_r; Lqa.lra).
    now rewrite Hs in H.
Qed.

Lemma half_ulp (a : Q) :
  (0 < a)%Q -> (2 ^ Js.exponent a / 2 <= a * 2 ^ (-53) + 2 ^ (-1075))%Q.
Proof.
  intro Ha.
  destruct (exponent_spec a Ha) as (He & _ & Hlo).
  set (e := Js.exponent a) in *.
  pose proof (pow2_pos (-53)) as H53. pose proof (pow2_pos (-1075)) as H1075.
  destruct Hlo as [-> | Hlo].
  - assert (E : (2 ^ (-1074) / 2 == 2 ^ (-1075))%Q).
    { change (-1074) with (-1075 + 1). rewrite pow2_succ. field. }
    rewrite E.
    assert (0 <= a * 2 ^ (-53))%Q by (apply Qmult_le_0_compat; Lqa.lra).
    Lqa.lra.
  - assert (E : (2 ^ e / 2 == 2 ^ (e + 52) * 2 ^ (-53))%Q).
    { rewrite <- pow2_plus. replace (e + 52 + -53) with (e - 1) by lia.
      replace e with (e - 1 + 1) at 1 by lia. rewrite pow2_succ. field. }
    rewrite E.
    assert (2 ^ (e + 52) * 2 ^ (-53) <= a * 2 ^ (-53))%Q
      by (apply Qmult_le_compat_r; Lqa.lra).
    Lqa.lra.
Qed.

Lemma nearest_nonneg (a : Q) : (0 < a)%Q -> (0 <= Js.nearest a)%Q.
Proof.
  intro Ha. destruct (significand_spec a Ha) as [[Hm _] _].
  unfold Js.nearest. apply Qmult_le_0_compat.
  - now rewrite Zle_Qle in Hm.
  - apply Qlt_le_weak, pow2_pos.
Qed.

Lemma nearest_exact (a : Q) (z k : Z) :
  0 < z < 2 ^ 53 -> -1074 <= k ->
  (a == inject_Z z * 2 ^ k)%Q -> (Js.nearest a == a)%Q.
Proof.
  intros [Hz0 Hz] Hk Ea.
  pose proof (pow2_pos k) as Hk0.
  assert (Ha : (0 < a)%Q).
  { rewrite Ea. apply Qmult_lt_0_compat; [|assumption].
    rewrite Zlt_Qlt in Hz0. exact Hz0. }
  destruct (ilog2_spec a Ha) as [Hlo _].
  assert (Hlt : (a < 2 ^ (k + 53))%Q).
  { rewrite Ea, pow2_plus, (Qmult_comm (2 ^ k)).
    apply Qmult_lt_compat_r; [assumption|].
    rewrite <- inject_Z_pow2 by lia. now rewrite <- Zlt_Qlt. }
  assert (Js.ilog2 a < k + 53) by (apply pow2_lt_inv; Lqa.lra).
  unfold Js.nearest.
  assert (He : Js.exponent a <= k) by (unfold Js.exponent; lia).
  set (e := Js.exponent a) in *.
  assert (Es : (a / 2 ^ e == inject_Z (z * 2 ^ (k - e)))%Q).
  { rewrite inject_Z_mult, inject_Z_pow2 by lia.
    rewrite Qpower_minus by discriminate. rewrite Ea. field.
    pose proof (pow2_pos e). Lqa.lra. }
  rewrite (rne_comp _ _ Es), rne_Z.
  rewrite <- Es. apply scaled.
Qed.

Lemma nearest_le (a b : Q) :
  (0 < a)%Q -> (a <= b)%Q -> (Js.nearest a <= Js.nearest b)%Q.
Proof.
  intros Ha Hab.
  assert (Hb : (0 < b)%Q) by Lqa.lra.
  pose proof (exponent_le a b Ha Hab) as He.
  destruct (significand_spec a Ha) as [[_ Hma] _].
  destruct (significand_spec b Hb) as [_ Hmb].
  destruct (exponent_spec a Ha) as (Hea & _ & _).
  unfold Js.nearest.
  set (ea := Js.exponent a) in *. set (eb := Js.exponent b) in *.
  set (ma := Js.roundTiesToEven (a / 2 ^ ea)) in *.
  set (mb := Js.roundTiesToEven (b / 2 ^ eb)) in *.
  pose proof (pow2_pos ea) as Hpa. pose proof (pow2_pos eb) as Hpb.
  destruct (Z.eq_dec ea eb) as [E | NE].
  - subst ma mb eb. rewrite <- E in *.
    apply Qmult_le_compat_r; [|Lqa.lra].
    rewrite <- Zle_Qle. apply rne_le.
    unfold Qdiv. apply Qmult_le_compat_r; [assumption|].
    apply Qlt_le_weak, Qinv_lt_0_compat, pow2_pos.
  - destruct Hmb as [Hmb | Hmb]; [lia|].
    apply Qle_trans with (2 ^ (ea + 53))%Q.
    + rewrite pow2_plus, (Qmult_comm (2 ^ ea)).
      apply Qmult_le_compat_r; [|Lqa.lra].
      rewrite <- inject_Z_pow2 by lia. now rewrite <- Zle_Qle.
    + apply Qle_trans with (2 ^ (eb + 52))%Q; [apply pow2_le; lia|].
      rewrite pow2_plus, (Qmult_comm (2 ^ eb)).
      apply Qmult_le_compat_r; [|Lqa.lra].
      rewrite <- inject_Z_pow2 by lia. now rewrite <- Zle_Qle.
Qed.

(** ** The nearest double of a rational *)

Lemma fl_comp (p q : Q) : (p == q)%Q -> Js.fl p = Js.fl q.
Proof. intro H. unfold Js.fl. now rewrite (Qred_complete _ _ H). Qed.

Lemma fl_zero (q : Q) : (q == 0)%Q -> Js.fl q = 0%Q.
Proof. intro H. rewrite (fl_comp _ _ H). reflexivity. Qed.

Lemma fl_pos (q : Q) : (0 < q)%Q -> (Js.fl q == Js.nearest (Qred q))%Q.
Proof.
  intro H. unfold Js.fl.
  destruct (Qcompare_spec (Qred q) 0) as [E|E|E];
    rewrite Qred_correct in E; try (exfalso; Lqa.lra).
  apply Qred_correct.
Qed.

Lemma fl_neg (q : Q) : (q < 0)%Q -> (Js.fl q == - Js.nearest (- Qred q))%Q.
Proof.
  intro H. unfold Js.fl.
  destruct (Qcompare_spec (Qred q) 0) as [E|E|E];
    rewrite Qred_correct in E; try (exfalso; Lqa.lra).
  apply Qred_correct.
Qed.

Lemma Qopp_opp (q : Q) : (- - q)%Q = q.
Proof. destruct q as [n d]. unfold Qopp; cbn. now rewrite Z.opp_involutive. Qed.

Lemma fl_opp (q : Q) : (Js.fl (- q) == - Js.fl q)%Q.
Proof.
  destruct (Q_dec q 0) as [[H|H]|H].
  - rewrite fl_pos, (fl_neg q) by Lqa.lra. rewrite Qred_opp. ring.
  - rewrite fl_neg, (fl_pos q) by Lqa.lra. rewrite Qred_opp, Qopp_opp.
    reflexivity.
  - rewrite (fl_zero q H), (fl_zero (- q)) by (rewrite H; reflexivity).
    reflexivity.
Qed.

Lemma fl_error_pos (q : Q) :
  (0 < q)%Q ->
  (Js.fl q - (q * 2 ^ (-53) + 2 ^ (-1075)) <= q /\
   q <= Js.fl q + (q * 2 ^ (-53) + 2 ^ (-1075)))%Q.
Proof.
  intro H. rewrite (fl_pos q H).
  assert (Hr : (0 < Qred q)%Q) by now rewrite Qred_correct.
  pose proof (nearest_bounds (Qred q)) as [Hlo Hhi]. cbv zeta in Hlo, Hhi.
  pose proof (half_ulp (Qred q) Hr) as Hu.
  set (n := Js.nearest (Qred q)) in *.
  set (u := (2 ^ Js.exponent (Qred q) / 2)%Q) in *.
  assert (E : (Qred q * 2 ^ (-53) == q * 2 ^ (-53))%Q) by now rewrite Qred_correct.
  pose proof (Qred_correct q) as Er.
  split; Lqa.lra.
Qed.

(** The relative error of one rounding is at most [2^-53], apart from
    an absolute [2^-1075] in the subnormal range. *)
Lemma fl_error (q : Q) :
  (Qabs (Js.fl q - q) <= Qabs q * 2 ^ (-53) + 2 ^ (-1075))%Q.
Proof.
  pose proof (pow2_pos (-53)) as H53. pose proof (pow2_pos (-1075)) as H1075.
  destruct (Q_dec q 0) as [[H|H]|H].
  - assert (Hn : (0 < - q)%Q) by Lqa.lra.
    destruct (fl_error_pos (- q) Hn) as [Hlo Hhi].
    rewrite fl_opp in Hlo, Hhi.
    rewrite (Qabs_neg q) by Lqa.lra.
    apply Qabs_case; intros; Lqa.lra.
  - destruct (fl_error_pos q H) as [Hlo Hhi].
    rewrite (Qabs_pos q) by Lqa.lra.
    apply Qabs_case; intros; Lqa.lra.
  - rewrite (fl_zero q H). rewrite H. cbn [Qabs Z.abs Qnum Qden].
    setoid_replace (0 - 0)%Q with 0%Q by ring.
    cbn [Qabs Z.abs Qnum Qden]. Lqa.lra.
Qed.

Lemma fl_nonneg (q : Q) : (0 <= q)%Q -> (0 <= Js.fl q)%Q.
Proof.
  intro H. destruct (Qle_lt_or_eq _ _ H) as [Hp | Hz].
  - rewrite (fl_pos q Hp). apply nearest_nonneg. now rewrite Qred_correct.
  - rewrite (fl_zero q) by (symmetry; exact Hz). apply Qle_refl.
Qed.

Lemma fl_le_pos (a b : Q) : (0 < a)%Q -> (a <= b)%Q -> (Js.fl a <= Js.fl b)%Q.
Proof.
  intros Ha Hab. rewrite (fl_pos a), (fl_pos b) by Lqa.lra.
  apply nearest_le; rewrite !Qred_correct; assumption.
Qed.

(** Rounding is monotone. *)
Lemma fl_le (a b : Q) : (a <= b)%Q -> (Js.fl a <= Js.fl b)%Q.
Proof.
  intro Hab.
  destruct (Q_dec a 0) as [[Ha|Ha]|Ha].
  - destruct (Qlt_le_dec b 0) as [Hb|Hb].
    + assert (H : (Js.fl (- b) <= Js.fl (- a))%Q) by (apply fl_le_pos; Lqa.lra).
      rewrite !fl_opp in H. Lqa.lra.
    + pose proof (fl_nonneg b Hb).
      assert (H0 : (0 <= Js.fl (- a))%Q) by (apply fl_nonneg; Lqa.lra).
      rewrite fl_opp in H0. Lqa.lra.
  - now apply fl_le_pos.
  - rewrite (fl_zero a Ha). apply fl_nonneg. Lqa.lra.
Qed.

(** Numbers [z * 2^k] with [|z| < 2^53] and [k >= -1074] are doubles. *)
Lemma fl_exact (q : Q) (z k : Z) :
  - 2 ^ 53 < z < 2 ^ 53 -> -1074 <= k ->
  (q == inject_Z z * 2 ^ k)%Q -> (Js.fl q == q)%Q.
Proof.
  intros Hz Hk Eq.
  assert (Hpos : forall q z, 0 < z < 2 ^ 53 -> (q == inject_Z z * 2 ^ k)%Q ->
                             (Js.fl q == q)%Q).
  { clear q z Hz Eq. intros q z Hz Eq.
    assert (Hq : (0 < q)%Q).
    { rewrite Eq. apply Qmult_lt_0_compat; [|apply pow2_pos].
      destruct Hz as [Hz _]. rewrite Zlt_Qlt in Hz. exact Hz. }
    rewrite (fl_pos q Hq).
    rewrite <- (Qred_correct q) at 2.
    apply (nearest_exact _ z k); try assumption.
    now rewrite Qred_correct. }
  assert (Hc : z < 0 \/ z = 0 \/ 0 < z) by lia.
  destruct Hc as [Hc | [Hc | Hc]].
  - assert (H : (Js.fl (- q) == - q)%Q).
    { apply (Hpos _ (- z)); [lia|]. rewrite Eq, inject_Z_opp. ring. }
    rewrite fl_opp in H. Lqa.lra.
  - subst z. assert (H0 : (q == 0)%Q) by (rewrite Eq; ring).
    rewrite (fl_zero q H0). now rewrite H0.
  - apply (Hpos _ z); [lia | assumption].
Qed.

Lemma fl_inject_Z (n : Z) :
  - 2 ^ 53 < n < 2 ^ 53 -> (Js.fl (inject_Z n) == inject_Z n)%Q.
Proof.
  intro H. apply (fl_exact _ n 0); [assumption | lia |].
  change (2 ^ 0)%Q with 1%Q. ring.
Qed.

Lemma fl_half (n : Z) :
  - 2 ^ 53 < n < 2 ^ 53 -> (Js.fl (inject_Z n / 2) == inject_Z n / 2)%Q.
Proof.
  intro H. apply (fl_exact _ n (-1)); [assumption | lia |].
  change (2 ^ (-1))%Q with (/ 2)%Q. reflexivity.
Qed.

(** The result of a rounding is a double. *)
Lemma fl_representable (q : Q) :
  exists z k, - 2 ^ 53 < z < 2 ^ 53 /\ -1074 <= k /\
              (Js.fl q == inject_Z z * 2 ^ k)%Q.
Proof.
  assert (Hpos : forall q, (0 < q)%Q ->
    exists z k, 0 <= z < 2 ^ 53 /\ -1074 <= k /\
                (Js.fl q == inject_Z z * 2 ^ k)%Q).
  { clear q. intros q Hq.
    assert (Hr : (0 < Qred q)%Q) by now rewrite Qred_correct.
    destruct (significand_spec _ Hr) as [[Hm0 Hm] _].
    destruct (exponent_spec _ Hr) as (He & _ & _).
    set (e := Js.exponent (Qred q)) in *.
    set (m := Js.roundTiesToEven (Qred q / 2 ^ e)) in *.
    assert (E : (Js.fl q == inject_Z m * 2 ^ e)%Q) by (rewrite (fl_pos q Hq); reflexivity).
    destruct (Z.eq_dec m (2 ^ 53)) as [Hmax | Hne].
    - exists (2 ^ 52), (e + 1). split; [lia|]. split; [lia|].
      rewrite E, Hmax, pow2_succ.
      change (2 ^ 53) with (2 * 2 ^ 52). rewrite inject_Z_mult.
      change (inject_Z 2) with 2%Q. ring.
    - exists m, e. split; [lia|]. split; [lia | exact E]. }
  destruct (Q_dec q 0) as [[H|H]|H].
  - destruct (Hpos (- q)%Q) as (z & k & Hz & Hk & E); [Lqa.lra|].
    exists (- z), k. split; [lia|]. split; [lia|].
    rewrite fl_opp in E. rewrite inject_Z_opp.
    setoid_replace (- inject_Z z * 2 ^ k)%Q with (- (inject_Z z * 2 ^ k))%Q by ring.
    rewrite <- E. ring.
  - destruct (Hpos q H) as (z & k & Hz & Hk & E).
    exists z, k. split; [lia|]. split; assumption.
  - exists 0, 0. split; [lia|]. split; [lia|].
    rewrite (fl_zero q H). reflexivity.
Qed.

Lemma fl_fl (q : Q) : (Js.fl (Js.fl q) == Js.fl q)%Q.
Proof.
  destruct (fl_representable q) as (z & k & Hz & Hk & E).
  exact (fl_exact _ z k Hz Hk E).
Qed.
(** [Js.fl] is the rounding of the primitive doubles on the samples. *)
Example fl_agrees_with_binary64 : Binary64.all_agree = true.
Proof. vm_compute. reflexivity. Qed.

(** Two roundings that decide a field.  The doubles nearest to 45.3 and
    to 237.2 add up to a little less than 282.5, and their sum as
    doubles is 282.5, which [Math.round] takes to 283; [23 / 40 * 100]
    is 57.5, and as a product of doubles a little less, which
    [Math.round] takes to 57. *)
Example fl_examples :
  Js.Math_round (Js.fl (453 # 10) + Js.fl (4744 # 10) / 2)%Q = 282 /\
  Js.Math_round (Js.add (Js.fl (453 # 10)) (Js.quot (Js.fl (4744 # 10)) 2)) = 283 /\
  Js.Math_round (23 / 40 * 100)%Q = 58 /\
  Js.Math_round (Js.mul (Js.quot 23 40) 100) = 57.
Proof. vm_compute. repeat split; reflexivity. Qed.

Lemma Math_round_comp (p q : Q) :
  (p == q)%Q -> Js.Math_round p = Js.Math_round q.
Proof. intro H. unfold Js.Math_round. apply Qfloor_comp. now rewrite H. Qed.

(** One rounding moves a number of magnitude at most [B] by at most
    [B * 2^-53 + 2^-60]. *)
Lemma fl_close (q B : Q) :
  (- B <= q <= B)%Q ->
  (- (B * 2 ^ (-53) + 2 ^ (-60)) <= Js.fl q - q <= B * 2 ^ (-53) + 2 ^ (-60))%Q.
Proof.
  intro HB. apply Qabs_Qle_condition in HB.
  apply Qabs_Qle_condition.
  apply Qle_trans with (1 := fl_error q).
  assert (H1 : (Qabs q * 2 ^ (-53) <= B * 2 ^ (-53))%Q).
  { apply Qmult_le_compat_r; [assumption | apply Qlt_le_weak, pow2_pos]. }
  assert (H2 : (2 ^ (-1075) <= 2 ^ (-60))%Q) by (apply pow2_le; lia).
  Lqa.lra.
Qed.

(** ** Detector adapter *)

Lemma div_nonzero (a b : Q) :
  ~ (b == 0)%Q -> Js.div a b = Js.Finite (Js.quot a b).
Proof.
  intro Hb. unfold Js.div.
  destruct (Qeq_bool b 0) eqn:E; [|reflexivity].
  apply Qeq_bool_iff in E. contradiction.
Qed.

(** With a zero height the quotient is not finite and stays so through
    the rounding. *)
Lemma aspectRatio_zero_height (timestamp : Z) (index : nat) (bx by_ bw bh : Q)
  (c : string) (s : Q) :
  (bh == 0)%Q ->
  aspectRatio (toDetection timestamp index (mkPrediction (bx, by_, bw, bh) c s)) =
  match (Js.fl bw ?= 0)%Q with
  | Gt => Js.PosInfinity
  | Lt => Js.NegInfinity
  | Eq => Js.NaN
  end.
Proof.
  intro Hbh. unfold toDetection; cbn [bbox aspectRatio].
  rewrite (fl_zero bh Hbh). unfold Js.div. change (Qeq_bool 0 0) with true.
  now destruct (Js.fl bw ?= 0)%Q.
Qed.

(** The centre: the two roundings of [a + b / 2] move it by less than
    [1/8] at magnitudes up to [2^26]. *)
Lemma centre_close (a b : Q) :
  (- 2 ^ 26 <= a <= 2 ^ 26)%Q -> (- 2 ^ 26 <= b <= 2 ^ 26)%Q ->
  (- (1 # 8) <= Js.add a (Js.quot b 2) - (a + b / 2) <= 1 # 8)%Q.
Proof.
  intros Ha Hb. unfold Js.add, Js.quot.
  change (2 ^ 26)%Q with 67108864%Q in Ha, Hb.
  assert (Hh : (- 2 ^ 25 <= b / 2 <= 2 ^ 25)%Q).
  { change (2 ^ 25)%Q with 33554432%Q.
    unfold Qdiv; change (/ 2)%Q with (1 # 2)%Q. split; Lqa.lra. }
  pose proof (fl_close (b / 2) (2 ^ 25) Hh) as Ht.
  set (t := Js.fl (b / 2)) in *.
  assert (Hs : (- 2 ^ 27 <= a + t <= 2 ^ 27)%Q).
  { change (2 ^ 25)%Q with 33554432%Q in *.
    change (2 ^ 27)%Q with 134217728%Q.
    change (2 ^ (-53))%Q with (1 # 9007199254740992)%Q in *.
    change (2 ^ (-60))%Q with (1 # 1152921504606846976)%Q in *.
    unfold Qdiv in *; change (/ 2)%Q with (1 # 2)%Q in *. split; Lqa.lra. }
  pose proof (fl_close (a + t) (2 ^ 27) Hs) as Hc.
  set (c := Js.fl (a + t)) in *.
  change (2 ^ 25)%Q with 33554432%Q in *.
  change (2 ^ 27)%Q with 134217728%Q in *.
  change (2 ^ (-53))%Q with (1 # 9007199254740992)%Q in *.
  change (2 ^ (-60))%Q with (1 # 1152921504606846976)%Q in *.
  unfold Qdiv in *; change (/ 2)%Q with (1 # 2)%Q in *. split; Lqa.lra.
Qed.

Lemma product_bound (a b B : Q) :
  (- B <= a <= B)%Q -> (- B <= b <= B)%Q -> (- (B * B) <= a * b <= B * B)%Q.
Proof.
  intros Ha Hb. apply Qabs_Qle_condition in Ha, Hb.
  apply Qabs_Qle_condition. rewrite Qabs_Qmult.
  apply Qmult_le_compat_nonneg; split; try assumption; apply Qabs_nonneg.
Qed.

(** The area: the rounding of a product of magnitude up to [2^50] moves
    it by less than [1/4]. *)
Lemma area_close (a b : Q) :
  (- 2 ^ 25 <= a <= 2 ^ 25)%Q -> (- 2 ^ 25 <= b <= 2 ^ 25)%Q ->
  (- (1 # 4) <= Js.mul a b - a * b <= 1 # 4)%Q.
Proof.
  intros Ha Hb. unfold Js.mul.
  pose proof (product_bound a b _ Ha Hb) as Hp.
  pose proof (fl_close (a * b) _ Hp) as Hc.
  set (c := Js.fl (a * b)) in *. set (ab := (a * b)%Q) in *.
  change (2 ^ 25)%Q with 33554432%Q in *.
  change (2 ^ (-53))%Q with (1 # 9007199254740992)%Q in *.
  change (2 ^ (-60))%Q with (1 # 1152921504606846976)%Q in *.
  split; Lqa.lra.
Qed.

(** The aspect ratio: the quotient and its product by 100 are rounded
    before [Math.round] sees them; together the two roundings move
    [q * 100] by less than [2^-20] for a quotient of magnitude up to
    [2^25]. *)
Lemma hundredths_close (q : Q) :
  (- 2 ^ 25 <= q <= 2 ^ 25)%Q ->
  (- 2 ^ (-20) <= Js.mul (Js.fl q) 100 - q * 100 <= 2 ^ (-20))%Q.
Proof.
  intro Hq. unfold Js.mul.
  pose proof (fl_close q _ Hq) as Ha.
  set (a := Js.fl q) in *.
  change (2 ^ 25)%Q with 33554432%Q in *.
  change (2 ^ (-20))%Q with (1 # 1048576)%Q.
  change (2 ^ (-53))%Q with (1 # 9007199254740992)%Q in *.
  change (2 ^ (-60))%Q with (1 # 1152921504606846976)%Q in *.
  assert (Hp : (- (3355443300) <= a * 100 <= 3355443300)%Q) by (split; Lqa.lra).
  pose proof (fl_close (a * 100) _ Hp) as Ht.
  set (t := Js.fl (a * 100)) in *.
  change (2 ^ (-53))%Q with (1 # 9007199254740992)%Q in *.
  change (2 ^ (-60))%Q with (1 # 1152921504606846976)%Q in *.
  split; Lqa.lra.
Qed.

Lemma within_rounded (tol : Q) (c q : Q) :
  (- tol <= c - q <= tol)%Q -> (tol <= 1 # 2)%Q -> within 1 (Js.Math_round c) q.
Proof.
  intros Hc Htol. unfold within.
  destruct (Math_round_bounds c) as [Hlo Hhi].
  apply Qabs_Qle_condition. split; Lqa.lra.
Qed.

Lemma pixel_value_bounds (q : Q) :
  pixel_value q -> (- 2 ^ 25 <= q <= 2 ^ 25)%Q.
Proof. intros [_ H]. now apply Qabs_Qle_condition in H. Qed.

(** The record the adapter builds from a raw box of pixel values. *)
Lemma toDetection_geometry (timestamp : Z) (index : nat) (bx by_ bw bh : Q)
  (c : string) (s : Q) :
  pixel_value bx -> pixel_value by_ -> pixel_value bw -> pixel_value bh ->
  pixel_geometry_of
    (toDetection timestamp index (mkPrediction (bx, by_, bw, bh) c s))
    bx by_ bw bh.
Proof.
  intros Hx Hy Hw Hh.
  pose proof (pixel_value_bounds _ Hx) as Bx.
  pose proof (pixel_value_bounds _ Hy) as By.
  pose proof (pixel_value_bounds _ Hw) as Bw.
  pose proof (pixel_value_bounds _ Hh) as Bh.
  destruct Hx as [Ex _], Hy as [Ey _], Hw as [Ew _], Hh as [Eh _].
  unfold pixel_geometry_of, toDetection;
    cbn [bbox x y width height centerX centerY area aspectRatio].
  assert (Hcentre : forall a b : Q,
    (Js.fl a == a)%Q -> (Js.fl b == b)%Q ->
    (- 2 ^ 25 <= a <= 2 ^ 25)%Q -> (- 2 ^ 25 <= b <= 2 ^ 25)%Q ->
    within 1 (Js.Math_round (Js.add (Js.fl a) (Js.quot (Js.fl b) 2))) (a + b / 2)).
  { intros a b Ea Eb Ba Bb.
    assert (E : Js.add (Js.fl a) (Js.quot (Js.fl b) 2) = Js.add a (Js.quot b 2)).
    { unfold Js.add, Js.quot.
      rewrite (fl_comp (Js.fl b / 2) (b / 2)) by (rewrite Eb; reflexivity).
      apply fl_comp. rewrite Ea. reflexivity. }
    rewrite E. apply (within_rounded (1 # 8)); [|discriminate].
    apply centre_close; change (2 ^ 25)%Q with 33554432%Q in *;
      change (2 ^ 26)%Q with 67108864%Q; split; Lqa.lra. }
  repeat split.
  - rewrite (Math_round_comp _ _ Ex). apply Math_round_nearest.
  - rewrite (Math_round_comp _ _ Ey). apply Math_round_nearest.
  - rewrite (Math_round_comp _ _ Ew). apply Math_round_nearest.
  - rewrite (Math_round_comp _ _ Eh). apply Math_round_nearest.
  - now apply Hcentre.
  - now apply Hcentre.
  - assert (E : Js.mul (Js.fl bw) (Js.fl bh) = Js.mul bw bh).
    { unfold Js.mul. apply fl_comp. rewrite Ew, Eh. reflexivity. }
    rewrite E. apply (within_rounded (1 # 4)); [|discriminate].
    now apply area_close.
  - intros Hbh Hq.
    assert (Hbh' : ~ (Js.fl bh == 0)%Q) by now rewrite Eh.
    rewrite (div_nonzero _ _ Hbh'). cbn [Js.round2].
    assert (E : Js.quot (Js.fl bw) (Js.fl bh) = Js.fl (bw / bh)).
    { unfold Js.quot. apply fl_comp. rewrite Ew, Eh. reflexivity. }
    rewrite E.
    exists (Js.Math_round (Js.mul (Js.fl (bw / bh)) 100)).
    split; [reflexivity|].
    apply Qabs_Qle_condition in Hq.
    pose proof (hundredths_close _ Hq) as Hc.
    destruct (Math_round_bounds (Js.mul (Js.fl (bw / bh)) 100)) as [Hlo Hhi].
    unfold within. apply Qabs_Qle_condition.
    set (t := Js.mul (Js.fl (bw / bh)) 100) in *.
    set (r := (bw / bh * 100)%Q) in *.
    change (2 ^ (-20))%Q with (1 # 1048576)%Q in *.
    split; Lqa.lra.
Qed.

Lemma pixel_geometry_of_set_trackId (d : DetectionResult) (t : option Z)
  (bx by_ bw bh : Q) :
  pixel_geometry_of d bx by_ bw bh ->
  pixel_geometry_of (set_trackId d t) bx by_ bw bh.
Proof. intro H. exact H. Qed.

(** The centre also agrees, up to 1, with the centre of the rounded box,
    at magnitudes up to [2^25]: twice their difference is an integer of
    absolute value below 3. *)
Lemma center_of_rounded_box (timestamp : Z) (index : nat) (bx by_ bw bh : Q)
  (c : string) (s : Q) :
  (Qabs bx <= 2 ^ 25)%Q -> (Qabs by_ <= 2 ^ 25)%Q ->
  (Qabs bw <= 2 ^ 25)%Q -> (Qabs bh <= 2 ^ 25)%Q ->
  let d := toDetection timestamp index (mkPrediction (bx, by_, bw, bh) c s) in
  within 1 (centerX d) (inject_Z (x d) + inject_Z (width d) / 2) /\
  within 1 (centerY d) (inject_Z (y d) + inject_Z (height d) / 2).
Proof.
  assert (Hread : forall q : Q,
    (Qabs q <= 2 ^ 25)%Q -> (- 2 ^ 26 <= Js.fl q <= 2 ^ 26)%Q).
  { intros q Hq. apply Qabs_Qle_condition in Hq.
    pose proof (fl_close q _ Hq) as H.
    change (2 ^ 25)%Q with 33554432%Q in *.
    change (2 ^ 26)%Q with 67108864%Q.
    change (2 ^ (-53))%Q with (1 # 9007199254740992)%Q in *.
    change (2 ^ (-60))%Q with (1 # 1152921504606846976)%Q in *.
    split; Lqa.lra. }
  assert (half : forall a b : Q,
    (- 2 ^ 26 <= a <= 2 ^ 26)%Q -> (- 2 ^ 26 <= b <= 2 ^ 26)%Q ->
    within 1 (Js.Math_round (Js.add a (Js.quot b 2)))
      (inject_Z (Js.Math_round a) + inject_Z (Js.Math_round b) / 2)).
  { intros a b Ha Hb. unfold within.
    pose proof (centre_close a b Ha Hb) as Hc.
    pose proof (Math_round_bounds a) as [? ?].
    pose proof (Math_round_bounds b) as [? ?].
    pose proof (Math_round_bounds (Js.add a (Js.quot b 2))) as [? ?].
    set (ra := Js.Math_round a) in *. set (rb := Js.Math_round b) in *.
    set (rc := Js.Math_round (Js.add a (Js.quot b 2))) in *.
    set (cc := Js.add a (Js.quot b 2)) in *.
    unfold Qdiv in *; change (/ 2)%Q with (1 # 2)%Q in *.
    assert (Hup : 4 * rc < 6 + 4 * ra + 2 * rb).
    { rewrite Zlt_Qlt, !inject_Z_plus, !inject_Z_mult.
      change (inject_Z 2) with 2%Q; change (inject_Z 4) with 4%Q;
        change (inject_Z 6) with 6%Q. Lqa.lra. }
    assert (Hdn : 4 * ra + 2 * rb < 6 + 4 * rc).
    { rewrite Zlt_Qlt, !inject_Z_plus, !inject_Z_mult.
      change (inject_Z 2) with 2%Q; change (inject_Z 4) with 4%Q;
        change (inject_Z 6) with 6%Q. Lqa.lra. }
    assert (Hz1 : 2 * rc <= 2 + 2 * ra + rb) by lia.
    assert (Hz2 : 2 * ra + rb <= 2 + 2 * rc) by lia.
    rewrite Zle_Qle, !inject_Z_plus, !inject_Z_mult in Hz1, Hz2.
    change (inject_Z 2) with 2%Q in Hz1, Hz2.
    apply Qabs_case; intros; Lqa.lra. }
  intros Hx Hy Hw Hh. cbv zeta.
  unfold toDetection; cbn [bbox x y width height centerX centerY].
  split; apply half; now apply Hread.
Qed.

(** The [area] field rounds the product of the raw sides; it is not the
    product of the rounded sides. *)
Remark area_is_not_product_of_rounded_sides :
  let d := toDetection 0 0 (mkPrediction (0, 0, 1004 # 10, 1004 # 10)%Q "person" 1) in
  area d = 10080 /\ width d * height d = 10000.
Proof. vm_compute. split; reflexivity. Qed.

(** ** Distances *)

Lemma distance2_nonneg (d p : DetectionResult) : 0 <= distance2 d p.
Proof. unfold distance2. nia. Qed.

Lemma distance_lt_iff (d p q : DetectionResult) :
  (distance d p < distance d q)%R <-> distance2 d p < distance2 d q.
Proof.
  unfold distance.
  pose proof (distance2_nonneg d p) as Hp.
  pose proof (distance2_nonneg d q) as Hq.
  apply IZR_le in Hp, Hq.
  split; intro H.
  - apply lt_IZR. now apply sqrt_lt_0_alt.
  - apply sqrt_lt_1_alt. split; [assumption | now apply IZR_lt].
Qed.

Lemma distance_le_iff (d p q : DetectionResult) :
  (distance d p <= distance d q)%R <-> distance2 d p <= distance2 d q.
Proof.
  split; intro H.
  - destruct (Z_le_gt_dec (distance2 d p) (distance2 d q)) as [|Hgt]; [assumption|].
    exfalso. apply Z.gt_lt, distance_lt_iff in Hgt. Lra.lra.
  - unfold distance. apply sqrt_le_1_alt. now apply IZR_le.
Qed.

Lemma distance_lt_100_iff (d p : DetectionResult) :
  (distance d p < 100)%R <-> distance2 d p < 100 * 100.
Proof.
  unfold distance.
  pose proof (distance2_nonneg d p) as Hp. apply IZR_le in Hp.
  assert (H100 : sqrt (IZR (100 * 100)) = 100%R).
  { rewrite mult_IZR. apply sqrt_square. Lra.lra. }
  rewrite <- H100 at 1.
  split; intro H.
  - apply lt_IZR. apply sqrt_lt_0_alt. exact H.
  - apply sqrt_lt_1_alt. split; [assumption | now apply IZR_lt].
Qed.

Lemma distance_ge_100_iff (d p : DetectionResult) :
  (100 <= distance d p)%R <-> 100 * 100 <= distance2 d p.
Proof.
  pose proof (distance_lt_100_iff d p) as H.
  split; intro Hge.
  - destruct (Z_le_gt_dec (100 * 100) (distance2 d p)) as [|Hgt]; [assumption|].
    exfalso. apply Z.gt_lt, H in Hgt. Lra.lra.
  - destruct (Rle_lt_dec 100 (distance d p)) as [|Hlt]; [assumption|].
    apply H in Hlt. lia.
Qed.

(** ** The inner loop: [bestMatch] *)

(** A member of [seen ++ [q]] is a member of [seen] or is [q]. *)
Ltac in_snoc H := apply in_app_or in H as [H | [<- | []]].

Section InnerLoop.

Variable d : DetectionResult.

Lemma considerPrev_inv (seen : list DetectionResult)
  (locals : option Z * option DetectionResult) (q : DetectionResult) :
  locals_inv d seen locals ->
  locals_inv d (seen ++ [q]) (considerPrev d locals q).
Proof.
  destruct locals as [[m|] [p|]]; cbn [locals_inv]; try contradiction.
  - intros (Hin & Hl & Hm & Hlt & Hmin). unfold considerPrev.
    destruct (String.eqb_spec (label q) (label d)) as [Hq|Hq].
    + cbn [lt_minDistance].
      destruct (Z.ltb_spec (distance2 d q) m) as [Hqm|Hqm]; cbn [andb].
      * destruct (Z.ltb_spec (distance2 d q) (100 * 100)) as [Hq100|Hq100];
          cbn [locals_inv].
        -- repeat split; try assumption; try reflexivity.
           ++ apply in_or_app; right; now left.
           ++ intros r Hr Hrl. in_snoc Hr.
              ** specialize (Hmin r Hr Hrl). lia.
              ** lia.
        -- lia.
      * cbn [locals_inv]. repeat split; try assumption.
        -- apply in_or_app; now left.
        -- intros r Hr Hrl. in_snoc Hr.
           ++ now apply Hmin.
           ++ assumption.
    + cbn [locals_inv]. repeat split; try assumption.
      * apply in_or_app; now left.
      * intros r Hr Hrl. in_snoc Hr.
        -- now apply Hmin.
        -- contradiction.
  - intros Hnone. unfold considerPrev.
    destruct (String.eqb_spec (label q) (label d)) as [Hq|Hq].
    + cbn [lt_minDistance andb].
      destruct (Z.ltb_spec (distance2 d q) (100 * 100)) as [Hq100|Hq100];
        cbn [locals_inv].
      * repeat split; try assumption; try reflexivity.
        -- apply in_or_app; right; now left.
        -- intros r Hr Hrl. in_snoc Hr.
           ++ specialize (Hnone r Hr Hrl). lia.
           ++ lia.
      * intros r Hr Hrl. in_snoc Hr.
        -- now apply Hnone.
        -- assumption.
    + cbn [locals_inv].
      intros r Hr Hrl. in_snoc Hr.
      * now apply Hnone.
      * contradiction.
Qed.

Lemma fold_considerPrev_inv (rest seen : list DetectionResult)
  (locals : option Z * option DetectionResult) :
  locals_inv d seen locals ->
  locals_inv d (seen ++ rest) (fold_left (considerPrev d) rest locals).
Proof.
  revert seen locals.
  induction rest as [|q rest IH]; intros seen locals H; cbn [fold_left].
  - now rewrite app_nil_r.
  - replace (seen ++ q :: rest) with ((seen ++ [q]) ++ rest)
      by (now rewrite <- app_assoc).
    apply IH. now apply considerPrev_inv.
Qed.

End InnerLoop.

(** The result of the inner loop, in squared distances. *)
Lemma findBestMatch_spec (prev : list DetectionResult) (d : DetectionResult) :
  match findBestMatch prev d with
  | Some p =>
      In p prev /\ label p = label d /\ distance2 d p < 100 * 100 /\
      forall q, In q prev -> label q = label d -> distance2 d p <= distance2 d q
  | None =>
      forall q, In q prev -> label q = label d -> 100 * 100 <= distance2 d q
  end.
Proof.
  unfold findBestMatch.
  assert (H0 : locals_inv d [] (None, None)) by (intros q []).
  pose proof (fold_considerPrev_inv d prev [] _ H0) as H.
  cbn [app] in H.
  destruct (fold_left (considerPrev d) prev (None, None)) as [[m|] [p|]];
    cbn [locals_inv snd] in *; try contradiction.
  - destruct H as (Hin & Hl & -> & Hlt & Hmin). auto.
  - assumption.
Qed.

Lemma has_match_true_iff (prev : list DetectionResult) (d : DetectionResult) :
  has_match prev d = true <->
  exists p, candidate prev d p /\ (distance d p < 100)%R.
Proof.
  unfold has_match, candidate. rewrite existsb_exists. split.
  - intros (p & Hin & Hb). apply andb_true_iff in Hb as [Hl Hd].
    apply String.eqb_eq in Hl. apply Z.ltb_lt in Hd.
    exists p. repeat split; try assumption. now apply distance_lt_100_iff.
  - intros (p & [Hin Hl] & Hd). exists p. split; [assumption|].
    apply andb_true_iff. split.
    + now apply String.eqb_eq.
    + apply Z.ltb_lt. now apply distance_lt_100_iff.
Qed.

Lemma findBestMatch_has_match (prev : list DetectionResult) (d : DetectionResult) :
  has_match prev d = truthy (findBestMatch prev d).
Proof.
  pose proof (findBestMatch_spec prev d) as H.
  destruct (findBestMatch prev d) as [p|]; cbn [truthy].
  - destruct H as (Hin & Hl & Hd & _).
    apply has_match_true_iff. exists p. split; [now split|].
    now apply distance_lt_100_iff.
  - destruct (has_match prev d) eqn:E; [|reflexivity].
    apply has_match_true_iff in E as (p & [Hin Hl] & Hd).
    apply distance_lt_100_iff in Hd. specialize (H p Hin Hl). lia.
Qed.

(** ** The outer loop: [assignTrackingIds] *)

Lemma with_trackingId_same (this : ObjectDetector) :
  with_trackingId this (trackingId this) = this.
Proof. now destruct this. Qed.

Lemma trackDetection_run (d : DetectionResult) (this : ObjectDetector) :
  trackDetection d this =
  (Resolved (tracked_at (previousDetections this) (trackingId this) d),
   with_trackingId this
     (counter_after (previousDetections this) (trackingId this) d)).
Proof.
  unfold trackDetection, tracked_at, counter_after, Method.bind, Method.get.
  rewrite findBestMatch_has_match.
  destruct (findBestMatch (previousDetections this) d) as [p|]; cbn [truthy].
  - unfold Method.ret. now rewrite with_trackingId_same.
  - reflexivity.
Qed.

Lemma newTracks_cons (prev : list DetectionResult) (d : DetectionResult)
  (ds : list DetectionResult) (c : Z) :
  counter_after prev c d + newTracks prev ds = c + newTracks prev (d :: ds).
Proof.
  unfold counter_after, newTracks. cbn [filter].
  destruct (has_match prev d); cbn [negb List.length]; lia.
Qed.

Lemma assignTrackingIds_run (ds : list DetectionResult) (this : ObjectDetector) :
  assignTrackingIds ds this =
  (Resolved (tracked_from (previousDetections this) (trackingId this) ds),
   with_trackingId this
     (trackingId this + newTracks (previousDetections this) ds)).
Proof.
  unfold assignTrackingIds. revert this.
  induction ds as [|d ds IH]; intro this; cbn [Method.forEach tracked_from].
  - unfold Method.ret, newTracks; cbn. rewrite Z.add_0_r.
    now rewrite with_trackingId_same.
  - unfold Method.bind at 1. rewrite trackDetection_run.
    unfold Method.bind at 1. rewrite IH.
    cbn [with_trackingId previousDetections trackingId model isLoading].
    unfold Method.ret, with_trackingId;
      cbn [previousDetections trackingId model isLoading].
    now rewrite newTracks_cons.
Qed.

Lemma newTracks_nonneg (prev ds : list DetectionResult) : 0 <= newTracks prev ds.
Proof. unfold newTracks. lia. Qed.

Lemma newTracks_firstn_S (prev ds : list DetectionResult) (i : nat)
  (d : DetectionResult) :
  nth_error ds i = Some d ->
  newTracks prev (firstn (S i) ds) =
  counter_after prev (newTracks prev (firstn i ds)) d.
Proof.
  revert i. induction ds as [|a ds IH]; intros [|i] H; try discriminate.
  - injection H as ->. cbn [firstn].
    pose proof (newTracks_cons prev d [] 0) as H1.
    unfold counter_after, newTracks in *; cbn [filter List.length] in *.
    destruct (has_match prev d); cbn in *; lia.
  - cbn [nth_error] in H. specialize (IH i H).
    change (firstn (S (S i)) (a :: ds)) with (a :: firstn (S i) ds).
    change (firstn (S i) (a :: ds)) with (a :: firstn i ds).
    pose proof (newTracks_cons prev a (firstn (S i) ds) 0) as H1.
    pose proof (newTracks_cons prev a (firstn i ds) 0) as H2.
    unfold counter_after in *. destruct (has_match prev a), (has_match prev d); lia.
Qed.

Lemma newTracks_firstn_mono (prev ds : list DetectionResult) (j i : nat) :
  (j <= i)%nat ->
  newTracks prev (firstn j ds) <= newTracks prev (firstn i ds).
Proof.
  revert j i. induction ds as [|a ds IH]; intros j i Hji.
  - rewrite !firstn_nil. lia.
  - destruct j as [|j]; [cbn [firstn]; apply newTracks_nonneg|].
    destruct i as [|i]; [lia|].
    cbn [firstn].
    pose proof (newTracks_cons prev a (firstn j ds) 0) as H1.
    pose proof (newTracks_cons prev a (firstn i ds) 0) as H2.
    specialize (IH j i ltac:(lia)). lia.
Qed.

Lemma newTracks_firstn_le (prev ds : list DetectionResult) (i : nat) :
  newTracks prev (firstn i ds) <= newTracks prev ds.
Proof.
  rewrite <- (firstn_all ds) at 2.
  destruct (Nat.le_gt_cases i (List.length ds)) as [H|H].
  - now apply newTracks_firstn_mono.
  - rewrite (firstn_all2 (n := i)) by lia. rewrite firstn_all. lia.
Qed.

Lemma tracked_from_length (prev : list DetectionResult) (c : Z)
  (ds : list DetectionResult) :
  List.length (tracked_from prev c ds) = List.length ds.
Proof.
  revert c. induction ds as [|d ds IH]; intro c; cbn [tracked_from List.length].
  - reflexivity.
  - now rewrite IH.
Qed.

(** The detection at position [i] is tracked with the counter at its
    value after the [i] detections before it. *)
Lemma tracked_from_nth (prev : list DetectionResult) (ds : list DetectionResult)
  (c : Z) (i : nat) (d : DetectionResult) :
  nth_error ds i = Some d ->
  nth_error (tracked_from prev c ds) i =
  Some (tracked_at prev (c + newTracks prev (firstn i ds)) d).
Proof.
  revert c i. induction ds as [|a ds IH]; intros c [|i] H; try discriminate.
  - injection H as ->. cbn. unfold newTracks; cbn. now rewrite Z.add_0_r.
  - cbn [nth_error] in H. cbn [tracked_from nth_error firstn].
    rewrite (IH _ _ H). now rewrite newTracks_cons.
Qed.

(** What the loop body does to one detection: it copies the track id of
    a nearest candidate within the threshold, or, when no candidate is
    within the threshold, takes the incremented counter. *)
Lemma tracked_at_spec (prev : list DetectionResult) (c : Z) (d : DetectionResult) :
  (has_match prev d = true /\
   exists p, findBestMatch prev d = Some p /\
             nearest_candidate prev d p /\ (distance d p < 100)%R /\
             tracked_at prev c d = set_trackId d (trackId p))
  \/
  (has_match prev d = false /\
   findBestMatch prev d = None /\
   (forall q, candidate prev d q -> (100 <= distance d q)%R) /\
   tracked_at prev c d = set_trackId d (Some (c + 1))).
Proof.
  pose proof (findBestMatch_spec prev d) as H.
  pose proof (findBestMatch_has_match prev d) as Hm.
  unfold tracked_at.
  destruct (findBestMatch prev d) as [p|]; cbn [truthy] in Hm.
  - left. split; [assumption|]. exists p.
    destruct H as (Hin & Hl & Hd & Hmin).
    repeat split; try assumption.
    + intros q [Hq Hql]. apply distance_le_iff. now apply Hmin.
    + now apply distance_lt_100_iff.
  - right. repeat split; try assumption.
    intros q [Hq Hql]. apply distance_ge_100_iff. now apply H.
Qed.

Lemma tracked_from_nth_inv (prev : list DetectionResult) (ds : list DetectionResult)
  (c : Z) (i : nat) (d' : DetectionResult) :
  nth_error (tracked_from prev c ds) i = Some d' ->
  exists d, nth_error ds i = Some d /\
            d' = tracked_at prev (c + newTracks prev (firstn i ds)) d.
Proof.
  intro H.
  assert (Hi : (i < List.length ds)%nat).
  { rewrite <- (tracked_from_length prev c). apply nth_error_Some. congruence. }
  destruct (nth_error ds i) as [d|] eqn:E.
  - exists d. split; [reflexivity|].
    rewrite (tracked_from_nth prev ds c i d E) in H. congruence.
  - apply nth_error_None in E. lia.
Qed.

(** The track id a detection of the frame ends up with, under the
    invariant: an id of the previous frame with the same label, or a
    fresh one above the old counter. *)
Lemma tracked_id_cases (this : ObjectDetector) (ds : list DetectionResult)
  (i : nat) (d : DetectionResult) :
  tracker_inv this ->
  nth_error ds i = Some d ->
  let prev := previousDetections this in
  let c := trackingId this in
  let d' := tracked_at prev (c + newTracks prev (firstn i ds)) d in
  label d' = label d /\
  ((has_match prev d = true /\
    exists p t, In p prev /\ label p = label d /\ trackId p = Some t /\
                trackId d' = Some t /\ 1 <= t <= c)
   \/
   (has_match prev d = false /\
    trackId d' = Some (c + newTracks prev (firstn i ds) + 1) /\
    c + newTracks prev (firstn i ds) + 1 <= c + newTracks prev ds)).
Proof.
  intros (Hc & Hids & _) Hd prev c d'.
  destruct (tracked_at_spec prev (c + newTracks prev (firstn i ds)) d)
    as [(Hm & p & _ & [[Hin Hl] _] & _ & Heq) | (Hm & _ & _ & Heq)];
    subst d'; rewrite Heq; (split; [reflexivity|]).
  - left. split; [assumption|].
    destruct (Hids p Hin) as (t & Ht & Hrange).
    exists p, t. cbn [set_trackId trackId]. auto.
  - right. split; [assumption|]. split; [reflexivity|].
    pose proof (newTracks_firstn_S prev ds i d Hd) as HS.
    pose proof (newTracks_firstn_le prev ds (S i)) as Hle.
    unfold counter_after in HS. rewrite Hm in HS. lia.
Qed.

(** The ids handed out fresh within one frame grow with the position. *)
Lemma fresh_ids_increase (prev ds : list DetectionResult) (j i : nat)
  (dj : DetectionResult) :
  (j < i)%nat -> nth_error ds j = Some dj -> has_match prev dj = false ->
  newTracks prev (firstn j ds) + 1 <= newTracks prev (firstn i ds).
Proof.
  intros Hji Hj Hm.
  pose proof (newTracks_firstn_S prev ds j dj Hj) as HS.
  pose proof (newTracks_firstn_mono prev ds (S j) i ltac:(lia)) as Hle.
  unfold counter_after in HS. rewrite Hm in HS. lia.
Qed.

(** ** [detectObjects] *)

Lemma detectObjects_unloaded (detect : Outcome (list Prediction)) (now : Z)
  (this : ObjectDetector) :
  model this = None ->
  detectObjects detect now this =
  (Rejected "Model not loaded. Call loadModel() first."%string, this).
Proof.
  intro H. unfold detectObjects, Method.bind, Method.get. now rewrite H.
Qed.

Lemma detectObjects_rejected (e : Error) (now : Z) (this : ObjectDetector) :
  loaded this ->
  detectObjects (Rejected e) now this = (Resolved [], this).
Proof.
  unfold loaded, detectObjects, Method.bind, Method.get. intro H.
  destruct (model this); [reflexivity | contradiction].
Qed.

Lemma detectObjects_resolved (predictions : list Prediction) (now : Z)
  (this : ObjectDetector) :
  loaded this ->
  let prev := previousDetections this in
  let tracked := tracked_from prev (trackingId this) (adaptPredictions now predictions) in
  detectObjects (Resolved predictions) now this =
  (Resolved tracked,
   with_previousDetections
     (with_trackingId this
        (trackingId this + newTracks prev (adaptPredictions now predictions)))
     tracked).
Proof.
  unfold loaded. intro H. cbv zeta.
  unfold detectObjects, Method.bind at 1, Method.get.
  destruct (model this) eqn:E; [|contradiction].
  unfold Method.tryCatch, Method.bind at 1, Method.await.
  unfold Method.bind at 1. rewrite assignTrackingIds_run.
  reflexivity.
Qed.

Lemma run_inv {A S : Type} (a a' : A) (s s' : S) :
  (Resolved a, s) = (Resolved a', s') -> a = a' /\ s = s'.
Proof. intro H. split; congruence. Qed.

Lemma after_model (c : Call) (this : ObjectDetector) :
  loaded this -> loaded (after c this).
Proof.
  unfold loaded. intro H. destruct c as [env | detect now]; cbn [after].
  - unfold loadModel, Method.bind, Method.get.
    destruct (model this) eqn:E; [|contradiction].
    cbn. now rewrite E.
  - destruct detect as [predictions | e].
    + now rewrite detectObjects_resolved.
    + now rewrite detectObjects_rejected.
Qed.

Lemma readyDetector_reachable : reachable readyDetector.
Proof. apply reachable_after, reachable_new. Qed.

Lemma readyDetector_loaded : loaded readyDetector.
Proof. unfold loaded. vm_compute. discriminate. Qed.

Lemma afterFirstFrame_reachable : reachable afterFirstFrame.
Proof. apply reachable_after, readyDetector_reachable. Qed.

Lemma afterFirstFrame_loaded : loaded afterFirstFrame.
Proof. apply after_model, readyDetector_loaded. Qed.

Lemma mapi_from_nth {A B : Type} (f : nat -> A -> B) (l : list A) (k i : nat)
  (a : A) :
  nth_error l i = Some a ->
  nth_error (mapi_from f k l) i = Some (f (k + i)%nat a).
Proof.
  revert k i. induction l as [|b l IH]; intros k [|i] H; try discriminate.
  - injection H as ->. cbn. now rewrite Nat.add_0_r.
  - cbn [nth_error mapi_from] in *. rewrite (IH (S k) i H).
    now rewrite Nat.add_succ_r.
Qed.

Lemma tracked_at_fields (prev : list DetectionResult) (c : Z) (d : DetectionResult) :
  tracked_at prev c d = set_trackId d (trackId (tracked_at prev c d)).
Proof. unfold tracked_at. now destruct (findBestMatch prev d). Qed.

(** C2 as stated fails on two counts.  The frame holds [flatBox] and
    [hugeBox], whose values are doubles.  For [flatBox] the quotient
    [100 / 6.4] is a little below 15.625, its product by 100 rounds to
    the double 1562.5, and the record holds 15.63 where [width / height]
    rounded to two decimal places is 15.62.  For [hugeBox] the product of
    the sides is rounded to a double 2049 below it, and the [area] of
    the record is not within 1 of [width * height]. *)
Lemma detection_geometry_counterexample :
  exists d1 d2 this',
    detectObjects (Resolved [flatBox; hugeBox]) 1000 readyDetector =
      (Resolved [d1; d2], this') /\
    aspectRatio d1 = Js.Finite (Js.fl (1563 # 100)) /\
    ~ rounded_to_2_decimals (aspectRatio d1) (100 / Js.fl (64 # 10)) /\
    area d2 = 10000000001 * 10000000001 - 2049 /\
    ~ within 1 (area d2) (10000000001 * 10000000001).
Proof.
  rewrite detectObjects_resolved by exact readyDetector_loaded.
  cbn [adaptPredictions mapi_from tracked_from].
  match goal with
  | |- exists d1 d2 this', (Resolved [?a; ?b], ?st) = _ /\ _ =>
      exists a, b, st; set (d1 := a); set (d2 := b)
  end.
  split; [reflexivity|].
  assert (E : aspectRatio d1 = Js.Finite (Js.fl (1563 # 100)))
    by (vm_compute; reflexivity).
  split; [exact E|]. split; [|split].
  -     rewrite E. intros (k & Hk & Hn).
    specialize (Hn 1562).
    set (r := (100 / Js.fl (64 # 10) * 100)%Q) in Hn.
    assert (Hr : (1562 < r)%Q /\ (r < 1562 + (1 # 2))%Q)
      by (split; vm_compute; reflexivity).
    destruct Hr as [Hr1 Hr2].
    change (inject_Z 1562) with 1562%Q in Hn.
    assert (Hk1 : 1561 < k).
    { rewrite Zlt_Qlt. change (inject_Z 1561) with 1561%Q.
      revert Hn. apply Qabs_case; intro; apply Qabs_case; intros; Lqa.lra. }
    assert (Hk2 : k < 1563).
    { rewrite Zlt_Qlt. change (inject_Z 1563) with 1563%Q.
      revert Hn. apply Qabs_case; intro; apply Qabs_case; intros; Lqa.lra. }
    assert (k = 1562) by lia. subst k.
    vm_compute in Hk. discriminate Hk.
  - vm_compute; reflexivity.
  - unfold within. vm_compute. intro H. now apply H.
Qed.

(** C2, amended.  On a loaded model, for a raw prediction at position
    [i] whose box [(bx, by, bw, bh)] is made of doubles of magnitude at
    most [2^25], the record returned has [x], [y], [width], [height]
    equal to an integer nearest to the raw value, [centerX], [centerY]
    within 1 of [bx + bw/2], [by + bh/2], [area] within 1 of [bw * bh],
    and, for a non-zero height and a quotient of magnitude at most
    [2^25], [aspectRatio] equal to the double of [k / 100] for an integer
    [k] within [1/2 + 2^-20] of [100 * bw / bh].  The box
    [(100, 100, 50, 100)] yields centre [(125, 150)], area [5000] and
    aspect ratio [0.5]. *)
Theorem detection_geometry :
  (forall (this : ObjectDetector) (predictions : list Prediction) (now : Z)
          (i : nat) (bx by_ bw bh : Q) (c : string) (s : Q),
     loaded this ->
     nth_error predictions i = Some (mkPrediction (bx, by_, bw, bh) c s) ->
     pixel_value bx -> pixel_value by_ -> pixel_value bw -> pixel_value bh ->
     exists tracked this' d,
       detectObjects (Resolved predictions) now this = (Resolved tracked, this') /\
       nth_error tracked i = Some d /\
       pixel_geometry_of d bx by_ bw bh)
  /\
  (forall (this : ObjectDetector) (now : Z) (c : string) (s : Q),
     loaded this ->
     exists d this',
       detectObjects (Resolved [mkPrediction (100, 100, 50, 100)%Q c s]) now this =
         (Resolved [d], this') /\
       x d = 100 /\ y d = 100 /\ width d = 50 /\ height d = 100 /\
       centerX d = 125 /\ centerY d = 150 /\ area d = 5000 /\
       Number_eq (aspectRatio d) (Js.Finite (1 # 2))).
Proof.
  split.
  - intros this predictions now i bx by_ bw bh c s Hloaded Hp Hx Hy Hw Hh.
    rewrite detectObjects_resolved by assumption.
    eexists; eexists; eexists. split; [reflexivity|].
    pose proof (mapi_from_nth (toDetection now) predictions 0 i _ Hp) as Hd.
    fold (adaptPredictions now predictions) in Hd. cbn [Nat.add] in Hd.
    rewrite (tracked_from_nth _ _ _ _ _ Hd). split; [reflexivity|].
    rewrite tracked_at_fields. apply pixel_geometry_of_set_trackId.
    now apply toDetection_geometry.
  - intros this now c s Hloaded.
    rewrite detectObjects_resolved by assumption.
    cbn [adaptPredictions mapi_from tracked_from].
    eexists; eexists. split; [reflexivity|].
    rewrite tracked_at_fields.
    unfold toDetection;
      cbn [bbox set_trackId x y width height centerX centerY area aspectRatio].
    repeat split; vm_compute; reflexivity.
Qed.

(** The record returned for the box of the example, on the first frame
    of a freshly loaded detector. *)
Lemma detection_geometry_witness :
  exists tracked this' d,
    detectObjects (Resolved [prediction "person" 100 100 50 100]) 1000 readyDetector =
      (Resolved tracked, this') /\
    nth_error tracked 0 = Some d /\
    pixel_geometry_of d 100 100 50 100.
Proof.
  apply (proj1 detection_geometry readyDetector
           [prediction "person" 100 100 50 100] 1000 0%nat
           100%Q 100%Q 50%Q 100%Q "person"%string (9 # 10)%Q).
  - exact readyDetector_loaded.
  - reflexivity.
  - split; [vm_compute; reflexivity | vm_compute; discriminate].
  - split; [vm_compute; reflexivity | vm_compute; discriminate].
  - split; [vm_compute; reflexivity | vm_compute; discriminate].
  - split; [vm_compute; reflexivity | vm_compute; discriminate].
Defined.

(** ** The invariant *)

Lemma tracker_inv_new : tracker_inv newObjectDetector.
Proof.
  unfold tracker_inv, newObjectDetector; cbn. repeat split.
  - lia.
  - intros p [].
  - intros p q [].
Qed.

Lemma tracker_inv_frame (this : ObjectDetector) (ds : list DetectionResult) :
  tracker_inv this ->
  let prev := previousDetections this in
  let tracked := tracked_from prev (trackingId this) ds in
  tracker_inv
    (with_previousDetections
       (with_trackingId this (trackingId this + newTracks prev ds)) tracked).
Proof.
  intros Hinv prev tracked.
  pose proof Hinv as (Hc & Hids & Hlabels).
  unfold tracker_inv, with_previousDetections, with_trackingId;
    cbn [trackingId previousDetections].
  pose proof (newTracks_nonneg prev ds) as Hn.
  split; [lia|]. split.
  - intros d' Hin. apply In_nth_error in Hin as [i Hi].
    apply tracked_from_nth_inv in Hi as (d & Hd & ->).
    destruct (tracked_id_cases this ds i d Hinv Hd)
      as (_ & [(_ & p & t & _ & _ & _ & Ht & Hr) | (_ & Ht & Hr)]).
    + exists t. split; [exact Ht|]. fold prev. lia.
    + eexists. split; [exact Ht|].
      pose proof (newTracks_nonneg prev (firstn i ds)). fold prev. fold prev in Hr. lia.
  - intros d1 d2 H1 H2 Heq.
    apply In_nth_error in H1 as [i Hi]. apply In_nth_error in H2 as [j Hj].
    apply tracked_from_nth_inv in Hi as (a & Ha & ->).
    apply tracked_from_nth_inv in Hj as (b & Hb & ->).
    destruct (tracked_id_cases this ds i a Hinv Ha) as (Hla & Hcase_a).
    destruct (tracked_id_cases this ds j b Hinv Hb) as (Hlb & Hcase_b).
    fold prev in Hla, Hlb, Hcase_a, Hcase_b, Heq |- *.
    rewrite Hla, Hlb.
    pose proof (newTracks_nonneg prev (firstn i ds)).
    pose proof (newTracks_nonneg prev (firstn j ds)).
    destruct Hcase_a as [(_ & p & t & Hp & Hpl & Hpt & Hat & Hr) | (Hma & Hat & _)];
      destruct Hcase_b as [(_ & q & u & Hq & Hql & Hqu & Hbu & Hs) | (Hmb & Hbu & _)];
      rewrite Hat, Hbu in Heq; injection Heq as Heq.
    + subst u. rewrite <- Hpl, <- Hql. apply Hlabels; try assumption. congruence.
    + lia.
    + lia.
    + destruct (Nat.lt_trichotomy i j) as [Hij | [-> | Hij]].
      * pose proof (fresh_ids_increase prev ds i j a Hij Ha Hma). lia.
      * congruence.
      * pose proof (fresh_ids_increase prev ds j i b Hij Hb Hmb). lia.
Qed.

Lemma loadModel_tracker (env : LoadEnv) (this : ObjectDetector) :
  trackingId (snd (loadModel env this)) = trackingId this /\
  previousDetections (snd (loadModel env this)) = previousDetections this.
Proof.
  unfold loadModel, Method.bind, Method.get, Method.tryFinally, Method.tryCatch,
    Method.await, Method.throw, Method.ret, set_isLoading, set_model.
  destruct (truthy (model this) || isLoading this); cbn; [auto|].
  destruct (tf_setBackend env), (tf_ready env), (cocoSsd_load env); cbn; auto.
Qed.

Lemma tracker_inv_after (c : Call) (this : ObjectDetector) :
  tracker_inv this -> tracker_inv (after c this).
Proof.
  intro Hinv. destruct c as [env | detect now]; cbn [after].
  - destruct (loadModel_tracker env this) as [Hc Hp].
    unfold tracker_inv. rewrite Hc, Hp. exact Hinv.
  - destruct (model this) as [m|] eqn:E.
    + assert (Hl : loaded this) by (unfold loaded; congruence).
      destruct detect as [predictions | e].
      * rewrite detectObjects_resolved by assumption. cbn [snd].
        now apply tracker_inv_frame.
      * rewrite detectObjects_rejected by assumption. exact Hinv.
    + rewrite detectObjects_unloaded by assumption. exact Hinv.
Qed.

(** The counter never goes down, so an id above it was never handed out. *)
Lemma trackingId_monotone (c : Call) (this : ObjectDetector) :
  trackingId this <= trackingId (after c this).
Proof.
  destruct c as [env | detect now]; cbn [after].
  - destruct (loadModel_tracker env this) as [-> _]. lia.
  - destruct (model this) as [m|] eqn:E.
    + assert (Hl : loaded this) by (unfold loaded; congruence).
      destruct detect as [predictions | e].
      * rewrite detectObjects_resolved by assumption.
        cbn [snd with_previousDetections with_trackingId trackingId].
        pose proof (newTracks_nonneg (previousDetections this)
                      (adaptPredictions now predictions)). lia.
      * rewrite detectObjects_rejected by assumption. cbn [snd]. lia.
    + rewrite detectObjects_unloaded by assumption. cbn [snd]. lia.
Qed.

Lemma reachable_inv (this : ObjectDetector) : reachable this -> tracker_inv this.
Proof.
  induction 1 as [|c this _ IH].
  - apply tracker_inv_new.
  - now apply tracker_inv_after.
Qed.

(** ** The tracker *)

Lemma fresh_id_unused (this : ObjectDetector) (ds : list DetectionResult)
  (i : nat) (d : DetectionResult) :
  tracker_inv this ->
  nth_error ds i = Some d ->
  let prev := previousDetections this in
  has_match prev d = false ->
  unused_before this (tracked_from prev (trackingId this) ds) i
    (trackingId this + newTracks prev (firstn i ds) + 1).
Proof.
  intros Hinv Hd prev Hm.
  pose proof Hinv as (Hc & Hids & _).
  pose proof (newTracks_nonneg prev (firstn i ds)) as Hn.
  unfold unused_before. split; [lia|]. split.
  - intros p Hp Heq. destruct (Hids p Hp) as (t & Ht & Hr).
    rewrite Ht in Heq. injection Heq as Heq. fold prev in Heq. lia.
  - intros j d' Hji Hj Heq. fold prev in Hj.
    apply tracked_from_nth_inv in Hj as (b & Hb & ->).
    destruct (tracked_id_cases this ds j b Hinv Hb)
      as (_ & [(_ & p & t & _ & _ & _ & Ht & Hr) | (Hmb & Ht & _)]);
      fold prev in Ht; rewrite Ht in Heq; injection Heq as Heq.
    + lia.
    + pose proof (fresh_ids_increase prev ds j i b Hji Hb Hmb). fold prev in Heq. lia.
Qed.



(** Two frames with one person each, centres 10 pixels apart: the same
    track id.  Centres 150 pixels apart: a new track id. *)
Example same_id_10px_apart :
  map trackId (previousDetections afterFirstFrame) = [Some 1] /\
  map trackId
    (previousDetections
       (after (DetectObjects (Resolved [prediction "person" 110 100 50 100]) 2000)
              afterFirstFrame)) = [Some 1].
Proof. split; vm_compute; reflexivity. Qed.

Example new_id_150px_apart :
  map trackId
    (previousDetections
       (after (DetectObjects (Resolved [prediction "person" 250 100 50 100]) 2000)
              afterFirstFrame)) = [Some 2].
Proof. vm_compute; reflexivity. Qed.

(** C6.  The inner loop only ever returns a previous detection with the
    label of the current one.  After a frame, no tracked detection
    carries the track id of a previous detection with another label; and
    a detection whose label no previous detection has, wherever its
    centre lies, gets a track id that was not in use before. *)
Theorem no_cross_label_match (this : ObjectDetector) (predictions : list Prediction)
  (now : Z) :
  reachable this -> loaded this ->
  let prev := previousDetections this in
  let current := adaptPredictions now predictions in
  (forall d p, findBestMatch prev d = Some p -> In p prev /\ label p = label d) /\
  exists tracked this',
    detectObjects (Resolved predictions) now this = (Resolved tracked, this') /\
    (forall d' p, In d' tracked -> In p prev -> label p <> label d' ->
                  trackId d' <> trackId p) /\
    (forall i d, nth_error current i = Some d ->
       (forall p, In p prev -> label p <> label d) ->
       exists t, nth_error tracked i = Some (set_trackId d (Some t)) /\
                 unused_before this tracked i t /\ t <= trackingId this').
Proof.
  intros Hreach Hloaded prev current.
  pose proof (reachable_inv this Hreach) as Hinv.
  split.
  { intros d p H. pose proof (findBestMatch_spec prev d) as Hs.
    rewrite H in Hs. destruct Hs as (Hin & Hl & _). now split. }
  rewrite detectObjects_resolved by assumption.
  eexists; eexists. split; [reflexivity|].
  fold prev current. split.
  - intros d' p Hd' Hp Hlabel Heq.
    apply In_nth_error in Hd' as [i Hi].
    apply tracked_from_nth_inv in Hi as (d & Hd & ->).
    destruct (tracked_id_cases this current i d Hinv Hd) as (Hl & Hcase).
    fold prev in Hl, Hcase, Heq, Hlabel. rewrite Hl in Hlabel.
    destruct Hinv as (Hc & Hids & Hlabels).
    destruct Hcase as [(_ & p0 & t & Hp0 & Hp0l & Hp0t & Ht & _) | (_ & Ht & _)].
    + apply Hlabel. rewrite <- Hp0l. apply Hlabels; try assumption.
      fold prev. congruence.
    + destruct (Hids p Hp) as (u & Hu & Hr).
      pose proof (newTracks_nonneg prev (firstn i current)).
      rewrite Ht, Hu in Heq. injection Heq as Heq. lia.
  - intros i d Hd Hnone.
    assert (Hm : has_match prev d = false).
    { destruct (has_match prev d) eqn:E; [|reflexivity].
      apply has_match_true_iff in E as (p & [Hp Hl] & _).
      exfalso. exact (Hnone p Hp Hl). }
    rewrite (tracked_from_nth _ _ _ _ _ Hd).
    destruct (tracked_at_spec prev
                (trackingId this + newTracks prev (firstn i current)) d)
      as [(Hm' & _) | (_ & _ & _ & Heq)]; [congruence|].
    rewrite Heq. eexists. split; [reflexivity|]. split.
    + exact (fresh_id_unused this current i d Hinv Hd Hm).
    + cbn [with_previousDetections with_trackingId trackingId].
      pose proof (newTracks_firstn_S prev current i d Hd) as HS.
      pose proof (newTracks_firstn_le prev current (S i)) as Hle.
      unfold counter_after in HS. rewrite Hm in HS. lia.
Qed.

(** A car detected exactly where the person of the previous frame stood
    gets the new track id 2, not the person's id 1. *)
Lemma no_cross_label_match_witness :
  exists tracked this',
    detectObjects (Resolved carInPlace) 2000 afterFirstFrame = (Resolved tracked, this') /\
    map centerX tracked = map centerX (previousDetections afterFirstFrame) /\
    map centerY tracked = map centerY (previousDetections afterFirstFrame) /\
    map trackId (previousDetections afterFirstFrame) = [Some 1] /\
    map trackId tracked = [Some 2].
Proof.
  destruct (no_cross_label_match afterFirstFrame carInPlace 2000
              afterFirstFrame_reachable afterFirstFrame_loaded)
    as (_ & tracked & this' & Hrun & _).
  exists tracked, this'. split; [exact Hrun|].
  rewrite (detectObjects_resolved carInPlace 2000 afterFirstFrame
             afterFirstFrame_loaded) in Hrun.
  apply run_inv in Hrun as [<- _].
  repeat split; vm_compute; reflexivity.
Defined.

(** C7.  Matching is not exclusive: after a frame with one person, a
    frame with two people, each less than 100 pixels from that person,
    gives both of them that person's track id. *)
Theorem matching_is_not_exclusive :
  exists (this : ObjectDetector) (p : DetectionResult)
         (predictions : list Prediction) (now : Z)
         (d1 d2 : DetectionResult) (this' : ObjectDetector),
    reachable this /\ loaded this /\
    previousDetections this = [p] /\
    detectObjects (Resolved predictions) now this = (Resolved [d1; d2], this') /\
    id d1 <> id d2 /\
    nearest_candidate [p] d1 p /\ (distance d1 p < 100)%R /\
    nearest_candidate [p] d2 p /\ (distance d2 p < 100)%R /\
    trackId p = Some 1 /\ trackId d1 = trackId p /\ trackId d2 = trackId p.
Proof.
  exists afterFirstFrame.
  exists (nth 0 (previousDetections afterFirstFrame)
              (toDetection 0 0 (prediction "" 0 0 0 0))).
  exists twoPeople, 2000.
  pose proof (detectObjects_resolved twoPeople 2000 afterFirstFrame
                afterFirstFrame_loaded) as Hrun.
  cbv zeta in Hrun.
  set (tracked := tracked_from _ _ _) in Hrun.
  exists (nth 0 tracked (toDetection 0 0 (prediction "" 0 0 0 0))).
  exists (nth 1 tracked (toDetection 0 0 (prediction "" 0 0 0 0))).
  eexists.
  split; [exact afterFirstFrame_reachable|].
  split; [exact afterFirstFrame_loaded|].
  split; [vm_compute; reflexivity|].
  split; [rewrite Hrun; subst tracked; vm_compute; reflexivity|].
  assert (Hnear : forall p d, label p = label d -> nearest_candidate [p] d p).
  { intros p d Hl. split.
    - split; [now left | assumption].
    - intros q [[<- | []] _]. apply Rle_refl. }
  split; [vm_compute; discriminate|].
  split; [apply Hnear; vm_compute; reflexivity|].
  split; [apply distance_lt_100_iff; vm_compute; reflexivity|].
  split; [apply Hnear; vm_compute; reflexivity|].
  split; [apply distance_lt_100_iff; vm_compute; reflexivity|].
  repeat split; vm_compute; reflexivity.
Qed.

(** ** The snapshot and the adapter *)

Lemma set_trackId_None (d : DetectionResult) :
  trackId d = None -> set_trackId d None = d.
Proof. destruct d; cbn. now intros ->. Qed.

Lemma adaptPredictions_untracked (now : Z) (predictions : list Prediction)
  (d : DetectionResult) :
  In d (adaptPredictions now predictions) -> trackId d = None.
Proof.
  unfold adaptPredictions. generalize 0%nat.
  induction predictions as [|p ps IH]; intros n H; cbn [mapi_from] in H.
  - destruct H.
  - destruct H as [<- | H].
    + unfold toDetection. now destruct (bbox p) as [[[? ?] ?] ?].
    + exact (IH _ H).
Qed.

Lemma tracked_at_erase (prev : list DetectionResult) (c : Z) (d : DetectionResult) :
  set_trackId (tracked_at prev c d) None = set_trackId d None.
Proof. unfold tracked_at. now destruct (findBestMatch prev d). Qed.

Lemma tracked_from_erase (prev : list DetectionResult) (c : Z)
  (ds : list DetectionResult) :
  map (fun d => set_trackId d None) (tracked_from prev c ds) =
  map (fun d => set_trackId d None) ds.
Proof.
  revert c. induction ds as [|d ds IH]; intro c; cbn [tracked_from map].
  - reflexivity.
  - now rewrite tracked_at_erase, IH.
Qed.

Lemma tracked_adapted_erase (prev : list DetectionResult) (c : Z) (now : Z)
  (predictions : list Prediction) :
  map (fun d => set_trackId d None)
      (tracked_from prev c (adaptPredictions now predictions)) =
  adaptPredictions now predictions.
Proof.
  rewrite tracked_from_erase.
  rewrite <- (map_id (adaptPredictions now predictions)) at 2.
  apply map_ext_in. intros d Hd.
  apply set_trackId_None. now apply adaptPredictions_untracked in Hd.
Qed.

(** C8.  After a call on a loaded model whose model call resolves, the
    stored snapshot is the list just returned; every element of it is a
    detection of this frame, the adapter's record with a track id set,
    so nothing of the older snapshot is kept.  On a detector reached
    from the initial one by calls of its methods, the record stored at
    each position is the adapter's record of that position carrying a
    track id between 1 and the counter. *)
Theorem snapshot_is_last_frame (this : ObjectDetector)
  (predictions : list Prediction) (now : Z) :
  loaded this ->
  exists tracked this',
    detectObjects (Resolved predictions) now this = (Resolved tracked, this') /\
    previousDetections this' = tracked /\
    map (fun d => set_trackId d None) tracked = adaptPredictions now predictions /\
    (reachable this ->
     forall i d0,
       nth_error (adaptPredictions now predictions) i = Some d0 ->
       exists t,
         nth_error (previousDetections this') i = Some (set_trackId d0 (Some t)) /\
         trackId (set_trackId d0 (Some t)) = Some t /\
         1 <= t <= trackingId this').
Proof.
  intro Hloaded.
  rewrite detectObjects_resolved by assumption.
  eexists; eexists. split; [reflexivity|]. split; [reflexivity|].
  split; [apply tracked_adapted_erase|].
  intros Hreach i d0 Hd0.
  pose proof (tracker_inv_frame this (adaptPredictions now predictions)
                (reachable_inv this Hreach)) as (_ & Hids & _).
  cbv zeta in Hids.
  unfold with_previousDetections, with_trackingId in *;
    cbn [previousDetections trackingId] in *.
  pose proof (tracked_from_nth (previousDetections this) _ (trackingId this)
                i d0 Hd0) as Hnth.
  destruct (Hids _ (nth_error_In _ _ Hnth)) as (t & Ht & Hrange).
  exists t. split; [|split; [reflexivity | exact Hrange]].
  rewrite Hnth. f_equal. rewrite tracked_at_fields. now rewrite Ht.
Qed.

(** The second frame of the sample run: the record stored first is the
    adapter's record of the first person with a track id. *)
Lemma snapshot_is_last_frame_witness :
  exists tracked this' t,
    detectObjects (Resolved twoPeople) 2000 afterFirstFrame = (Resolved tracked, this') /\
    previousDetections this' = tracked /\
    nth_error (previousDetections this') 0 =
      Some (set_trackId (toDetection 2000 0 (prediction "person" 110 100 50 100))
              (Some t)) /\
    1 <= t <= trackingId this'.
Proof.
  destruct (snapshot_is_last_frame afterFirstFrame twoPeople 2000
              afterFirstFrame_loaded) as (tracked & this' & Hrun & Hprev & _ & Hids).
  destruct (Hids afterFirstFrame_reachable 0%nat _ eq_refl) as (t & Hnth & _ & Ht).
  exists tracked, this', t.
  split; [exact Hrun|]. split; [exact Hprev|]. split; [exact Hnth | exact Ht].
Defined.

(** C9.  The adapter step computes its records from the predictions and
    the timestamp alone and leaves them without track id; what
    [detectObjects] does to the detector is what the tracking step, run
    on the adapter's output, does to it, followed by the assignment of the
    snapshot; the returned records differ from the adapter's in their
    track id only. *)
Theorem adapter_leaves_tracker_alone (this : ObjectDetector)
  (predictions : list Prediction) (now : Z) :
  loaded this ->
  let detections := adaptPredictions now predictions in
  (forall d, In d detections -> trackId d = None) /\
  exists tracked this1,
    assignTrackingIds detections this = (Resolved tracked, this1) /\
    detectObjects (Resolved predictions) now this =
      (Resolved tracked, with_previousDetections this1 tracked) /\
    map (fun d => set_trackId d None) tracked = detections.
Proof.
  intros Hloaded detections. split.
  - intros d Hd. exact (adaptPredictions_untracked now predictions d Hd).
  - rewrite assignTrackingIds_run.
    rewrite detectObjects_resolved by assumption.
    eexists; eexists. split; [reflexivity|]. split; [reflexivity|].
    apply tracked_adapted_erase.
Qed.

Lemma adapter_leaves_tracker_alone_witness :
  Forall (fun d => trackId d = None) (adaptPredictions 2000 twoPeople).
Proof.
  apply Forall_forall.
  exact (proj1 (adapter_leaves_tracker_alone afterFirstFrame twoPeople 2000
                  afterFirstFrame_loaded)).
Defined.

(** ** Failures *)

(** C10.  When the model call of [detectObjects] is rejected, the call
    returns the empty list and the detector is left as it was: same
    counter, same snapshot.  After a frame that went through, a failing
    frame therefore leaves the snapshot at the list the earlier frame
    returned. *)
Theorem failed_frame_keeps_tracker (this : ObjectDetector) (e : Error) (now : Z) :
  loaded this ->
  (exists this',
     detectObjects (Rejected e) now this = (Resolved [], this') /\
     this' = this /\
     trackingId this' = trackingId this /\
     previousDetections this' = previousDetections this) /\
  (forall predictions before,
     exists tracked this1 this2,
       detectObjects (Resolved predictions) before this = (Resolved tracked, this1) /\
       detectObjects (Rejected e) now this1 = (Resolved [], this2) /\
       previousDetections this2 = tracked /\
       trackingId this2 = trackingId this1).
Proof.
  intro Hloaded. split.
  - exists this. rewrite detectObjects_rejected by assumption. auto.
  - intros predictions before.
    pose proof (after_model (DetectObjects (Resolved predictions) before) this Hloaded)
      as Hloaded1.
    cbn [after] in Hloaded1.
    rewrite detectObjects_resolved in * by assumption. cbn [snd] in Hloaded1.
    eexists; eexists; eexists. split; [reflexivity|].
    rewrite detectObjects_rejected by assumption.
    split; [reflexivity|]. split; reflexivity.
Qed.

Lemma failed_frame_keeps_tracker_witness :
  exists this',
    detectObjects (Rejected "WebGL context lost"%string) 3000 afterFirstFrame =
      (Resolved [], this') /\
    map trackId (previousDetections this') = [Some 1] /\ trackingId this' = 1.
Proof.
  destruct (proj1 (failed_frame_keeps_tracker afterFirstFrame
                     "WebGL context lost"%string 3000 afterFirstFrame_loaded))
    as (this' & Hrun & -> & _).
  exists afterFirstFrame. split; [exact Hrun|].
  split; vm_compute; reflexivity.
Defined.

Lemma loadModel_attempt (env : LoadEnv) (this : ObjectDetector) :
  model this = None -> isLoading this = false ->
  loadModel env this =
  match loadFailure env with
  | Some e => (Rejected e, this)
  | None =>
      (Resolved tt,
       {| model := match cocoSsd_load env with
                   | Resolved m => Some m
                   | Rejected _ => None
                   end;
          isLoading := false; trackingId := trackingId this;
          previousDetections := previousDetections this |})
  end.
Proof.
  intros Hm Hl. destruct this as [m l c prev]. cbn in Hm, Hl. subst m l.
  unfold loadModel, loadFailure, Method.bind, Method.get, Method.tryFinally,
    Method.tryCatch, Method.await, Method.throw, Method.ret, set_isLoading,
    set_model.
  cbn.
  destruct (tf_setBackend env), (tf_ready env), (cocoSsd_load env); reflexivity.
Qed.

Lemma loadModel_skipped (env : LoadEnv) (this : ObjectDetector) :
  truthy (model this) || isLoading this = true ->
  loadModel env this = (Resolved tt, this).
Proof.
  intro H. unfold loadModel, Method.bind, Method.get. now rewrite H.
Qed.

(** C5.  [detectObjects] throws exactly when the model is not loaded; on
    a loaded model a rejected model call yields the empty list.
    [loadModel] throws exactly when it attempts the load (no model yet,
    no load under way) and one of its awaited calls is rejected, and it
    throws that rejection. *)
Theorem error_propagation :
  (forall detect now this,
     (exists e this', detectObjects detect now this = (Rejected e, this')) <->
     model this = None) /\
  (forall e now this,
     loaded this ->
     exists this', detectObjects (Rejected e) now this = (Resolved [], this')) /\
  (forall env this e,
     (exists this', loadModel env this = (Rejected e, this')) <->
     (model this = None /\ isLoading this = false /\ loadFailure env = Some e)).
Proof.
  split; [|split].
  - intros detect now this. split.
    + intros (e & this' & H).
      destruct (model this) as [m|] eqn:E; [exfalso | reflexivity].
      assert (Hl : loaded this) by (unfold loaded; congruence).
      destruct detect as [predictions | e0].
      * rewrite detectObjects_resolved in H by assumption. discriminate.
      * rewrite detectObjects_rejected in H by assumption. discriminate.
    + intro H. rewrite detectObjects_unloaded by assumption.
      eexists; eexists; reflexivity.
  - intros e now this Hl. exists this. now apply detectObjects_rejected.
  - intros env this e. split.
    + intros (this' & H).
      destruct (truthy (model this) || isLoading this) eqn:E.
      * rewrite loadModel_skipped in H by assumption. discriminate.
      * apply orb_false_iff in E as [Em El].
        assert (Hm : model this = None) by (destruct (model this); [discriminate|reflexivity]).
        rewrite loadModel_attempt in H by assumption.
        destruct (loadFailure env) as [e0|]; [|discriminate].
        injection H as -> _. auto.
    + intros (Hm & Hl & Hf). rewrite loadModel_attempt by assumption.
      rewrite Hf. now exists this.
Qed.

Lemma error_propagation_witness :
  (exists this',
     detectObjects (Rejected "WebGL context lost"%string) 3000 readyDetector =
       (Resolved [], this')) /\
  (exists this',
     loadModel failingEnv newObjectDetector = (Rejected "Failed to fetch"%string, this')).
Proof.
  destruct error_propagation as (_ & Hdetect & Hload). split.
  - apply Hdetect. exact readyDetector_loaded.
  - apply Hload. repeat split.
Defined.

(** ** ROI monitor *)

Lemma violation_Some_iff (now : Z) (d : ROI.Detection.t) (z : ROI.Zone.t) :
  (exists a, ROI.violation now d z = Some a) <-> violates d z.
Proof.
  unfold ROI.violation, violates, inside. cbv zeta. cbn [fst snd].
  destruct (ROI.Zone.isActive z); cbn [negb].
  - rewrite <- !Qle_bool_iff.
    destruct (Qle_bool _ _), (Qle_bool _ _), (Qle_bool _ _), (Qle_bool _ _);
      cbn [andb];
      try (split; [intros [a H]; discriminate | intros (_ & _ & H); intuition discriminate]).
    destruct (ROI.Zone.type z); cbn [ROI.ZoneType_eqb].
    + split; [intros _; repeat split | intros _; eexists; reflexivity].
    + split; [intros [a H]; discriminate | intros (_ & H & _); discriminate].
    + split; [intros [a H]; discriminate | intros (_ & H & _); discriminate].
  - split; [intros [a H]; discriminate | intros (H & _); discriminate].
Qed.

Lemma violation_severity (now : Z) (d : ROI.Detection.t) (z : ROI.Zone.t)
  (a : ROI.Alert.t) :
  ROI.violation now d z = Some a ->
  ROI.Alert.severity a = ROI.high /\
  ROI.Alert.zoneName a = ROI.Zone.name z /\
  ROI.Alert.objectType a = ROI.Detection.label d.
Proof.
  unfold ROI.violation. cbv zeta.
  destruct (negb (ROI.Zone.isActive z)); [discriminate|].
  match goal with |- (if ?c then _ else _) = _ -> _ => destruct c end;
    [|discriminate].
  intro H. injection H as <-. repeat split.
Qed.

Lemma fold_checkZone (now : Z) (d : ROI.Detection.t) (zs : list ROI.Zone.t)
  (st : ROI.State) :
  fold_left (ROI.checkZone now d) zs st =
  recordAll
    (flat_map (fun zone => match ROI.violation now d zone with
                           | Some newAlert => [(newAlert, ROI.Zone.id zone)]
                           | None => []
                           end) zs) st.
Proof.
  unfold recordAll. revert st.
  induction zs as [|z zs IH]; intro st; cbn [fold_left flat_map].
  - reflexivity.
  - rewrite fold_left_app, IH. unfold ROI.checkZone.
    now destruct (ROI.violation now d z).
Qed.

(** One run of the effect records the violations of its loops, in order. *)
Lemma effect_records_violations (now : Z) (ds : list ROI.Detection.t)
  (zs : list ROI.Zone.t) (st : ROI.State) :
  ROI.effect now ds zs st = recordAll (ROI.violations now ds zs) st.
Proof.
  unfold ROI.effect, ROI.violations. revert st.
  induction ds as [|d ds IH]; intro st; cbn [fold_left flat_map].
  - reflexivity.
  - rewrite IH, fold_checkZone. unfold recordAll. now rewrite fold_left_app.
Qed.

Lemma In_violations (now : Z) (ds : list ROI.Detection.t) (zs : list ROI.Zone.t)
  (a : ROI.Alert.t) (zoneId : string) :
  In (a, zoneId) (ROI.violations now ds zs) <->
  exists d z, In d ds /\ In z zs /\ ROI.violation now d z = Some a /\
              zoneId = ROI.Zone.id z.
Proof.
  unfold ROI.violations. rewrite in_flat_map. split.
  - intros (d & Hd & H). apply in_flat_map in H as (z & Hz & H).
    exists d, z. destruct (ROI.violation now d z) as [a'|]; [|destruct H].
    destruct H as [H|[]]. injection H as -> ->. auto.
  - intros (d & z & Hd & Hz & Hv & ->). exists d. split; [assumption|].
    apply in_flat_map. exists z. split; [assumption|]. rewrite Hv. now left.
Qed.

Lemma initial_restrictedArea :
  nth_error (ROI.zones ROI.initialState) 0 = Some restrictedArea.
Proof. reflexivity. Qed.

(** *** The alert history *)

Lemma pushAlert_firstn (a : ROI.Alert.t) (prev : list ROI.Alert.t) :
  ROI.pushAlert a prev = firstn 10 (a :: prev).
Proof. reflexivity. Qed.

Lemma pushAlert_length (a : ROI.Alert.t) (prev : list ROI.Alert.t) :
  (List.length (ROI.pushAlert a prev) <= 10)%nat.
Proof.
  unfold ROI.pushAlert. cbn [List.length].
  pose proof (firstn_le_length 9 prev). lia.
Qed.

Lemma firstn_app_firstn {A : Type} (l m : list A) (n k : nat) :
  (n <= k)%nat -> firstn n (l ++ firstn k m) = firstn n (l ++ m).
Proof.
  revert n. induction l as [|a l IH]; intros n Hnk; cbn [app].
  - rewrite firstn_firstn. now rewrite Nat.min_l.
  - destruct n as [|n]; [reflexivity|]. cbn [firstn].
    rewrite IH by lia. reflexivity.
Qed.

Lemma recordAll_cons (v : ROI.Alert.t * string) (vs : list (ROI.Alert.t * string))
  (st : ROI.State) :
  recordAll (v :: vs) st = recordAll vs (ROI.recordViolation (fst v) (snd v) st).
Proof. reflexivity. Qed.

(** After at least one violation the history is the ten latest alerts,
    newest first. *)
Lemma recordAll_alerts (vs : list (ROI.Alert.t * string)) (st : ROI.State) :
  ROI.alerts (recordAll vs st) =
  match vs with
  | [] => ROI.alerts st
  | _ :: _ => firstn 10 (rev (map fst vs) ++ ROI.alerts st)
  end.
Proof.
  revert st. induction vs as [|v vs IH]; intro st; [reflexivity|].
  rewrite recordAll_cons, IH. cbn [map rev ROI.recordViolation ROI.alerts].
  rewrite <- app_assoc. cbn [app].
  destruct vs as [|w vs]; [reflexivity|].
  rewrite pushAlert_firstn. now apply firstn_app_firstn.
Qed.

(** *** The alert counters *)

Lemma with_alertCount_same (z : ROI.Zone.t) :
  with_alertCount z (ROI.Zone.alertCount z) = z.
Proof. now destruct z. Qed.

Lemma countAlert_nth (zoneId : string) (zs : list ROI.Zone.t) (j : nat)
  (z : ROI.Zone.t) :
  nth_error zs j = Some z ->
  nth_error (ROI.countAlert zoneId zs) j =
  Some (with_alertCount z
          (ROI.Zone.alertCount z +
           (if String.eqb (ROI.Zone.id z) zoneId then 1 else 0))).
Proof.
  intro H. unfold ROI.countAlert. rewrite nth_error_map, H. cbn [option_map].
  destruct (String.eqb (ROI.Zone.id z) zoneId).
  - reflexivity.
  - now rewrite Z.add_0_r, with_alertCount_same.
Qed.

Lemma recordAll_zones_nth (vs : list (ROI.Alert.t * string)) (st : ROI.State)
  (j : nat) (z : ROI.Zone.t) :
  nth_error (ROI.zones st) j = Some z ->
  nth_error (ROI.zones (recordAll vs st)) j =
  Some (with_alertCount z (ROI.Zone.alertCount z + hits (ROI.Zone.id z) vs)).
Proof.
  revert st z. induction vs as [|v vs IH]; intros st z H.
  - cbn. unfold hits; cbn. now rewrite Z.add_0_r, with_alertCount_same.
  - rewrite recordAll_cons.
    pose proof (countAlert_nth (snd v) _ _ _ H) as H1.
    rewrite (IH (ROI.recordViolation (fst v) (snd v) st) _ H1).
    f_equal. unfold with_alertCount, hits;
      cbn [ROI.Zone.id ROI.Zone.alertCount filter].
    f_equal.
    destruct (String.eqb (ROI.Zone.id z) (snd v)); cbn [List.length]; lia.
Qed.

Lemma hits_nonneg (zoneId : string) (vs : list (ROI.Alert.t * string)) :
  0 <= hits zoneId vs.
Proof. unfold hits. lia. Qed.

Lemma hits_same_zone (zoneId : string) (newAlerts : list ROI.Alert.t) :
  hits zoneId (map (fun a => (a, zoneId)) newAlerts) =
  Z.of_nat (List.length newAlerts).
Proof.
  unfold hits. f_equal.
  induction newAlerts as [|a l IH]; cbn [map filter snd List.length].
  - reflexivity.
  - rewrite String.eqb_refl. cbn [List.length]. now rewrite IH.
Qed.

Lemma counters_kept_recordAll (vs : list (ROI.Alert.t * string)) (st : ROI.State) :
  counters_kept st (recordAll vs st).
Proof.
  intros j z H. rewrite (recordAll_zones_nth vs st j z H).
  eexists. split; [reflexivity|]. cbn.
  pose proof (hits_nonneg (ROI.Zone.id z) vs). split; [reflexivity | lia].
Qed.

Lemma counters_kept_step (st : ROI.State) (action : ROI.Action) :
  (forall zoneId, action <> ROI.RemoveZone zoneId) ->
  counters_kept st (ROI.step st action).
Proof.
  intro Hkeep. destruct action as [now ds | now | zoneId | zoneId]; cbn [ROI.step].
  - unfold ROI.onFrame. rewrite effect_records_violations.
    apply counters_kept_recordAll.
  - intros j z H. exists z. cbn [ROI.addZone ROI.zones].
    rewrite nth_error_app1 by (apply nth_error_Some; congruence).
    split; [assumption|]. split; [reflexivity | lia].
  - exfalso. now apply (Hkeep zoneId).
  - intros j z H. cbn [ROI.toggleZone ROI.zones].
    rewrite nth_error_map, H. cbn [option_map].
    eexists. split; [reflexivity|].
    destruct (String.eqb (ROI.Zone.id z) zoneId); cbn; split; (reflexivity || lia).
Qed.

Lemma violation_timestamp (now : Z) (d : ROI.Detection.t) (z : ROI.Zone.t)
  (a : ROI.Alert.t) :
  ROI.violation now d z = Some a -> ROI.Alert.timestamp a = now.
Proof.
  unfold ROI.violation. cbv zeta.
  destruct (negb (ROI.Zone.isActive z)); [discriminate|].
  match goal with |- (if ?c then _ else _) = _ -> _ => destruct c end;
    [|discriminate].
  intro H. injection H as <-. reflexivity.
Qed.

Lemma violation_None (now : Z) (d : ROI.Detection.t) (z : ROI.Zone.t) :
  ~ violates d z -> ROI.violation now d z = None.
Proof.
  intro H. destruct (ROI.violation now d z) as [a|] eqn:E; [|reflexivity].
  exfalso. apply H. apply (violation_Some_iff now). now exists a.
Qed.

Lemma no_violations_iff (now : Z) (ds : list ROI.Detection.t)
  (zs : list ROI.Zone.t) :
  ROI.violations now ds zs = [] <->
  forall d z, In d ds -> In z zs -> ~ violates d z.
Proof.
  split.
  - intros E d z Hd Hz Hv.
    apply (violation_Some_iff now) in Hv as [a Ha].
    assert (Hin : In (a, ROI.Zone.id z) (ROI.violations now ds zs))
      by (apply In_violations; now exists d, z).
    rewrite E in Hin. destruct Hin.
  - intro H. destruct (ROI.violations now ds zs) as [|[a zoneId] vs] eqn:E;
      [reflexivity | exfalso].
    assert (Hin : In (a, zoneId) (ROI.violations now ds zs))
      by (rewrite E; now left).
    apply In_violations in Hin as (d & z & Hd & Hz & Hv & _).
    apply (H d z Hd Hz). apply (violation_Some_iff now). now exists a.
Qed.

(** C3.  A (detection, zone) pair raises an alert exactly when the zone
    is active, its type is restricted and the centre of the detection is
    inside its rectangle, borders included; the alert has severity high;
    an inactive zone raises none.  The loop body, on a pair that meets
    the condition, puts the alert at the head of the history, in front
    of the nine latest, and adds one to the counter of every zone with
    the id of the zone; on any other pair it leaves the state as it is.
    One run of the effect raises the alerts of exactly the pairs of its
    detections and zones that meet the condition, and records each of
    them: if no pair meets it the state is unchanged, otherwise the
    history is the ten latest of the raised alerts, newest first,
    followed by the older ones, and every counter has grown by the
    number of alerts raised for its zone id. *)
Theorem roi_alert_condition :
  (forall now d z, (exists a, ROI.violation now d z = Some a) <-> violates d z) /\
  (forall now d z a, ROI.violation now d z = Some a -> ROI.Alert.severity a = ROI.high) /\
  (forall now d z, ROI.Zone.isActive z = false -> ROI.violation now d z = None) /\
  (forall now ds zs st,
     ROI.effect now ds zs st = recordAll (ROI.violations now ds zs) st /\
     (forall a zoneId,
        In (a, zoneId) (ROI.violations now ds zs) <->
        exists d z, In d ds /\ In z zs /\ violates d z /\
                    ROI.violation now d z = Some a /\ zoneId = ROI.Zone.id z) /\
     (forall a zoneId, In (a, zoneId) (ROI.violations now ds zs) ->
                       ROI.Alert.severity a = ROI.high)) /\
  (forall now d z st,
     violates d z ->
     exists a,
       ROI.violation now d z = Some a /\
       ROI.alerts (ROI.checkZone now d st z) = a :: firstn 9 (ROI.alerts st) /\
       ROI.Alert.severity a = ROI.high /\
       ROI.Alert.zoneName a = ROI.Zone.name z /\
       ROI.Alert.objectType a = ROI.Detection.label d /\
       ROI.Alert.timestamp a = now /\
       forall j z',
         nth_error (ROI.zones st) j = Some z' ->
         nth_error (ROI.zones (ROI.checkZone now d st z)) j =
         Some (with_alertCount z'
                 (ROI.Zone.alertCount z' +
                  (if String.eqb (ROI.Zone.id z') (ROI.Zone.id z) then 1 else 0)))) /\
  (forall now d z st, ~ violates d z -> ROI.checkZone now d st z = st) /\
  (forall now ds zs st,
     (ROI.violations now ds zs = [] <->
      forall d z, In d ds -> In z zs -> ~ violates d z) /\
     (ROI.violations now ds zs = [] -> ROI.effect now ds zs st = st) /\
     (ROI.violations now ds zs <> [] ->
      ROI.alerts (ROI.effect now ds zs st) =
      firstn 10 (rev (map fst (ROI.violations now ds zs)) ++ ROI.alerts st)) /\
     (forall j z,
        nth_error (ROI.zones st) j = Some z ->
        nth_error (ROI.zones (ROI.effect now ds zs st)) j =
        Some (with_alertCount z
                (ROI.Zone.alertCount z +
                 hits (ROI.Zone.id z) (ROI.violations now ds zs))))).
Proof.
  split; [exact violation_Some_iff|].
  split; [intros now d z a H; now apply violation_severity in H|].
  split.
  { intros now d z H. unfold ROI.violation. now rewrite H. }
  split.
  { intros now ds zs st.
    split; [apply effect_records_violations|]. split.
    - intros a zoneId. rewrite In_violations. split.
      + intros (d & z & Hd & Hz & Hv & Hid). exists d, z.
        assert (Hviol : violates d z)
          by (apply (violation_Some_iff now); now exists a).
        auto.
      + intros (d & z & Hd & Hz & _ & Hv & Hid). now exists d, z.
    - intros a zoneId H. apply In_violations in H as (d & z & _ & _ & Hv & _).
      now apply violation_severity in Hv. }
  split.
  { intros now d z st Hviol.
    apply (violation_Some_iff now) in Hviol as [a Ha].
    exists a. split; [exact Ha|].
    destruct (violation_severity _ _ _ _ Ha) as (Hs & Hn & Ho).
    unfold ROI.checkZone. rewrite Ha.
    cbn [ROI.recordViolation ROI.alerts ROI.zones].
    split; [reflexivity|].
    split; [exact Hs|]. split; [exact Hn|]. split; [exact Ho|].
    split; [exact (violation_timestamp _ _ _ _ Ha)|].
    intros j z' Hz'. now apply countAlert_nth. }
  split.
  { intros now d z st Hn. unfold ROI.checkZone.
    now rewrite (violation_None now d z Hn). }
  intros now ds zs st.
  split; [apply no_violations_iff|]. split; [|split].
  - intro E. now rewrite effect_records_violations, E.
  - intro Hne. rewrite effect_records_violations, recordAll_alerts.
    destruct (ROI.violations now ds zs); [now contradiction Hne | reflexivity].
  - intros j z Hz. rewrite effect_records_violations.
    now apply recordAll_zones_nth.
Qed.

(** A detection centred on the right border of the initial restricted
    zone, (300, 160), raises an alert there: from the initial state the
    history becomes that one alert and the counter of the zone 1. *)
Lemma roi_alert_condition_witness :
  exists a,
    ROI.violation 5 onBorder restrictedArea = Some a /\
    ROI.alerts (ROI.checkZone 5 onBorder ROI.initialState restrictedArea) = [a] /\
    ROI.Alert.severity a = ROI.high /\
    nth_error (ROI.zones (ROI.checkZone 5 onBorder ROI.initialState restrictedArea)) 0 =
      Some (with_alertCount restrictedArea 1).
Proof.
  assert (Hv : violates onBorder restrictedArea).
  { split; [reflexivity|]. split; [reflexivity|].
    unfold inside. repeat split; vm_compute; discriminate. }
  destruct (proj1 (proj2 (proj2 (proj2 (proj2 roi_alert_condition))))
              5 onBorder restrictedArea ROI.initialState Hv)
    as (a & Ha & Halerts & Hs & _ & _ & _ & Hz).
  exists a. split; [exact Ha|]. split; [exact Halerts|]. split; [exact Hs|].
  exact (Hz 0%nat restrictedArea eq_refl).
Defined.

(** C4.  Each violation the effect finds is recorded by one
    [recordViolation]: the counter of every zone with the violated
    zone's id goes up by exactly one and no other counter changes, and
    the new alert goes to the front of the history, of which the ten
    newest entries are kept.  No action but the removal of a zone lowers
    a counter, and a removal leaves the remaining zones as they were.
    After eleven violations of one zone the history is the ten latest
    alerts, newest first, and the counter of a zone that started at 0
    reads 11; so it is after eleven frames with an intruder in the
    initial restricted zone. *)
Theorem alert_accounting :
  (forall now d z a st,
     ROI.violation now d z = Some a ->
     ROI.checkZone now d st z = ROI.recordViolation a (ROI.Zone.id z) st) /\
  (forall a zoneId st,
     let st' := ROI.recordViolation a zoneId st in
     ROI.alerts st' = firstn 10 (a :: ROI.alerts st) /\
     (List.length (ROI.alerts st') <= 10)%nat /\
     forall j z, nth_error (ROI.zones st) j = Some z ->
       nth_error (ROI.zones st') j =
       Some (with_alertCount z
               (ROI.Zone.alertCount z +
                (if String.eqb (ROI.Zone.id z) zoneId then 1 else 0)))) /\
  (forall st action,
     (forall zoneId, action <> ROI.RemoveZone zoneId) ->
     counters_kept st (ROI.step st action)) /\
  (forall st zoneId z,
     In z (ROI.zones (ROI.step st (ROI.RemoveZone zoneId))) -> In z (ROI.zones st)) /\
  (forall st zoneId newAlerts,
     List.length newAlerts = 11%nat ->
     let st' := recordAll (map (fun a => (a, zoneId)) newAlerts) st in
     ROI.alerts st' = rev (skipn 1 newAlerts) /\
     List.length (ROI.alerts st') = 10%nat /\
     forall j z, nth_error (ROI.zones st) j = Some z ->
       ROI.Zone.id z = zoneId -> ROI.Zone.alertCount z = 0 ->
       nth_error (ROI.zones st') j = Some (with_alertCount z 11)) /\
  (let st' := fold_left ROI.step elevenFrames ROI.initialState in
   map ROI.Alert.timestamp (ROI.alerts st') = [11; 10; 9; 8; 7; 6; 5; 4; 3; 2] /\
   map ROI.Zone.alertCount (ROI.zones st') = [11; 0]).
Proof.
  split.
  { intros now d z a st H. unfold ROI.checkZone. now rewrite H. }
  split.
  { intros a zoneId st. cbv zeta. cbn [ROI.recordViolation ROI.alerts ROI.zones].
    split; [apply pushAlert_firstn|]. split; [apply pushAlert_length|].
    intros j z H. now apply countAlert_nth. }
  split; [exact counters_kept_step|].
  split.
  { intros st zoneId z H. cbn [ROI.step ROI.removeZone ROI.zones] in H.
    now apply filter_In in H as [H _]. }
  split.
  - intros st zoneId newAlerts Hlen. cbv zeta.
    assert (Halerts :
      ROI.alerts (recordAll (map (fun a => (a, zoneId)) newAlerts) st) =
      rev (skipn 1 newAlerts)).
    { assert (Hfst : forall l : list ROI.Alert.t,
                map fst (map (fun a => (a, zoneId)) l) = l).
      { intro l. rewrite map_map. cbn [fst]. apply map_id. }
      rewrite recordAll_alerts.
      destruct newAlerts as [|a0 rest]; [discriminate|].
      change (map (fun a => (a, zoneId)) (a0 :: rest))
        with ((a0, zoneId) :: map (fun a => (a, zoneId)) rest).
      cbv iota.
      change ((a0, zoneId) :: map (fun a => (a, zoneId)) rest)
        with (map (fun a => (a, zoneId)) (a0 :: rest)).
      rewrite Hfst.
      assert (Hrev : List.length (rev (a0 :: rest)) = 11%nat)
        by now rewrite length_rev.
      assert (Hrest : List.length (rev rest) = 10%nat)
        by (rewrite length_rev; cbn [List.length] in Hlen; lia).
      rewrite firstn_app, Hrev.
      replace (10 - 11)%nat with 0%nat by reflexivity.
      rewrite firstn_O, app_nil_r.
      change (rev (a0 :: rest)) with (rev rest ++ [a0]).
      rewrite firstn_app, Hrest.
      replace (10 - 10)%nat with 0%nat by reflexivity.
      rewrite firstn_O, app_nil_r.
      change (skipn 1 (a0 :: rest)) with rest.
      rewrite <- Hrest. apply firstn_all. }
    split; [exact Halerts|]. split.
    + rewrite Halerts, length_rev, length_skipn. lia.
    + intros j z Hz Hid Hzero.
      rewrite (recordAll_zones_nth _ st j z Hz).
      rewrite Hid, hits_same_zone, Hlen, Hzero. reflexivity.
  - cbv zeta. split; vm_compute; reflexivity.
Qed.

(** Eleven alerts of the initial restricted zone, numbered 1 to 11: the
    history ends as alerts 11 down to 2 and the zone's counter as 11. *)
Lemma alert_accounting_witness :
  ROI.alerts (recordAll (map (fun a => (a, "1"%string)) elevenAlerts) ROI.initialState) =
    rev (skipn 1 elevenAlerts) /\
  nth_error
    (ROI.zones (recordAll (map (fun a => (a, "1"%string)) elevenAlerts) ROI.initialState))
    0 = Some (with_alertCount restrictedArea 11).
Proof.
  destruct alert_accounting as (_ & _ & _ & _ & H11 & _).
  destruct (H11 ROI.initialState "1"%string elevenAlerts eq_refl)
    as (Halerts & _ & Hzone).
  split; [exact Halerts|].
  exact (Hzone 0%nat restrictedArea eq_refl eq_refl eq_refl).
Defined.

(** * Further properties of the detector *)

Lemma afterAll_snoc (cs : list Call) (c : Call) (this : ObjectDetector) :
  afterAll (cs ++ [c]) this = after c (afterAll cs this).
Proof. unfold afterAll. now rewrite fold_left_app. Qed.

Lemma after_keeps_model (c : Call) (this : ObjectDetector) :
  loaded this -> model (after c this) = model this.
Proof.
  intro H. destruct c as [env | detect now]; cbn [after].
  - rewrite loadModel_skipped; [reflexivity|].
    unfold loaded in H. destruct (model this); [reflexivity | contradiction].
  - destruct detect as [predictions | e].
    + now rewrite detectObjects_resolved.
    + now rewrite detectObjects_rejected.
Qed.

(** X1.  Once the model is loaded, [loadModel] returns at once whatever
    its awaited calls would do, leaving the detector as it is; and no
    sequence of calls unloads or replaces the model. *)
Theorem loaded_model_is_kept :
  (forall env this, loaded this -> loadModel env this = (Resolved tt, this)) /\
  (forall cs this, loaded this ->
     loaded (afterAll cs this) /\ model (afterAll cs this) = model this).
Proof.
  split.
  - intros env this H. apply loadModel_skipped.
    unfold loaded in H. destruct (model this); [reflexivity | contradiction].
  - intros cs. induction cs as [|c cs IH] using rev_ind; intros this H.
    + split; [exact H | reflexivity].
    + rewrite afterAll_snoc. destruct (IH this H) as [Hl Hm].
      split.
      * now apply after_model.
      * rewrite <- Hm. now apply after_keeps_model.
Qed.

Lemma loaded_model_is_kept_witness :
  loadModel failingEnv readyDetector = (Resolved tt, readyDetector) /\
  loaded (afterAll [DetectObjects (Rejected "lost"%string) 5; LoadModel failingEnv]
                   readyDetector).
Proof.
  destruct loaded_model_is_kept as [Hskip Hkeep]. split.
  - apply Hskip. exact readyDetector_loaded.
  - apply Hkeep. exact readyDetector_loaded.
Defined.

Lemma reachable_not_loading (this : ObjectDetector) :
  reachable this -> isLoading this = false.
Proof.
  induction 1 as [|c this _ IH]; [reflexivity|].
  destruct c as [env | detect now]; cbn [after].
  - destruct (model this) as [m|] eqn:E.
    + rewrite loadModel_skipped by (now rewrite E). exact IH.
    + rewrite loadModel_attempt by assumption.
      destruct (loadFailure env); [exact IH | reflexivity].
  - destruct (model this) as [m|] eqn:E.
    + assert (Hl : loaded this) by (unfold loaded; congruence).
      destruct detect as [predictions | e].
      * now rewrite detectObjects_resolved.
      * now rewrite detectObjects_rejected.
    + now rewrite detectObjects_unloaded.
Qed.

(** X2.  Once every call made has settled, [isLoading] is false, after a
    failed [loadModel] as after any other call.  A load that fails
    leaves the detector exactly as it was, so a later [loadModel]
    attempts the load again and, if its awaited calls resolve, ends with
    the model loaded and the tracker fields untouched. *)
Theorem failed_load_can_be_retried :
  (forall this, reachable this -> isLoading this = false) /\
  (forall env1 env2 e this,
     reachable this -> model this = None ->
     loadFailure env1 = Some e -> loadFailure env2 = None ->
     loadModel env1 this = (Rejected e, this) /\
     exists this',
       loadModel env2 (snd (loadModel env1 this)) = (Resolved tt, this') /\
       loaded this' /\ isLoading this' = false /\
       trackingId this' = trackingId this /\
       previousDetections this' = previousDetections this).
Proof.
  split; [exact reachable_not_loading|].
  intros env1 env2 e this Hreach Hm Hf1 Hf2.
  pose proof (reachable_not_loading this Hreach) as Hl.
  assert (H1 : loadModel env1 this = (Rejected e, this)).
  { rewrite loadModel_attempt by assumption. now rewrite Hf1. }
  split; [exact H1|].
  rewrite H1. cbn [snd].
  rewrite loadModel_attempt by assumption. rewrite Hf2.
  eexists. split; [reflexivity|].
  unfold loaded, loadFailure in *; cbn.
  destruct (tf_setBackend env2); [|discriminate].
  destruct (tf_ready env2); [|discriminate].
  destruct (cocoSsd_load env2); [|discriminate].
  repeat split. discriminate.
Qed.

Lemma failed_load_can_be_retried_witness :
  loadModel failingEnv newObjectDetector =
    (Rejected "Failed to fetch"%string, newObjectDetector) /\
  exists this',
    loadModel okEnv (snd (loadModel failingEnv newObjectDetector)) =
      (Resolved tt, this') /\
    loaded this'.
Proof.
  destruct (proj2 failed_load_can_be_retried failingEnv okEnv
              "Failed to fetch"%string newObjectDetector
              reachable_new eq_refl eq_refl eq_refl)
    as (H1 & this' & H2 & Hl & _).
  split; [exact H1|]. exists this'. split; [exact H2 | exact Hl].
Defined.

(** ** Per-frame ids *)

Lemma to_int_normal (z : Z) :
  Z.to_int z <> Decimal.Pos Decimal.Nil /\ Z.to_int z <> Decimal.Neg Decimal.Nil.
Proof.
  pose proof (DecimalZ.to_of (Z.to_int z)) as H.
  rewrite DecimalZ.of_to in H.
  split; intro E; rewrite E in H; discriminate.
Qed.

Lemma toString_inj (a b : Z) : Js.toString a = Js.toString b -> a = b.
Proof.
  unfold Js.toString. intro H.
  destruct (to_int_normal a) as [Ha1 Ha2].
  destruct (to_int_normal b) as [Hb1 Hb2].
  pose proof (NilZero.isi (Z.to_int a) Ha1 Ha2) as Ia.
  pose proof (NilZero.isi (Z.to_int b) Hb1 Hb2) as Ib.
  rewrite H in Ia. rewrite Ia in Ib. injection Ib as Hab.
  rewrite <- (DecimalZ.of_to a), <- (DecimalZ.of_to b). now rewrite Hab.
Qed.

Lemma append_inj_r (s a b : string) : (s ++ a = s ++ b)%string -> a = b.
Proof.
  induction s as [|c s IH]; cbn; intro H; [assumption|].
  injection H as H. now apply IH.
Qed.

Lemma frameId_inj (now : Z) (i j : nat) : frameId now i = frameId now j -> i = j.
Proof.
  unfold frameId. intro H.
  apply append_inj_r, append_inj_r, toString_inj in H. lia.
Qed.

Lemma toDetection_fields (now : Z) (i : nat) (p : Prediction) :
  id (toDetection now i p) = frameId now i /\
  label (toDetection now i p) = class p /\
  confidence (toDetection now i p) = score p /\
  timestamp (toDetection now i p) = now.
Proof.
  unfold toDetection, frameId. destruct (bbox p) as [[[? ?] ?] ?]. cbn. auto.
Qed.

Lemma mapi_from_ids (now : Z) (k : nat) (ps : list Prediction) (s : string) :
  In s (map id (mapi_from (toDetection now) k ps)) ->
  exists j, (k <= j)%nat /\ s = frameId now j.
Proof.
  revert k. induction ps as [|p ps IH]; intros k H; cbn [mapi_from map] in H.
  - destruct H.
  - destruct H as [<- | H].
    + exists k. split; [lia|]. apply toDetection_fields.
    + destruct (IH _ H) as (j & Hj & ->). exists j. split; [lia | reflexivity].
Qed.

Lemma mapi_from_ids_NoDup (now : Z) (k : nat) (ps : list Prediction) :
  NoDup (map id (mapi_from (toDetection now) k ps)).
Proof.
  revert k. induction ps as [|p ps IH]; intro k; cbn [mapi_from map].
  - constructor.
  - constructor; [|apply IH].
    intro H. apply mapi_from_ids in H as (j & Hj & Heq).
    rewrite (proj1 (toDetection_fields now k p)) in Heq.
    apply frameId_inj in Heq. lia.
Qed.

Lemma tracked_at_id (prev : list DetectionResult) (c : Z) (d : DetectionResult) :
  id (tracked_at prev c d) = id d /\ label (tracked_at prev c d) = label d /\
  confidence (tracked_at prev c d) = confidence d /\
  timestamp (tracked_at prev c d) = timestamp d /\
  centerX (tracked_at prev c d) = centerX d /\
  centerY (tracked_at prev c d) = centerY d.
Proof. unfold tracked_at. destruct (findBestMatch prev d); cbn; auto 10. Qed.

Lemma tracked_from_ids (prev : list DetectionResult) (c : Z)
  (ds : list DetectionResult) :
  map id (tracked_from prev c ds) = map id ds.
Proof.
  revert c. induction ds as [|d ds IH]; intro c; cbn [tracked_from map].
  - reflexivity.
  - rewrite IH. f_equal. apply tracked_at_id.
Qed.

(** X3.  The records of one frame come back in the order of the model's
    predictions, each with the class and score of its prediction, the
    timestamp of the call and the id [`${timestamp}-${index}`]; within
    the frame these ids are pairwise distinct. *)
Theorem frame_records_identified (this : ObjectDetector)
  (predictions : list Prediction) (now : Z) :
  loaded this ->
  exists tracked this',
    detectObjects (Resolved predictions) now this = (Resolved tracked, this') /\
    List.length tracked = List.length predictions /\
    NoDup (map id tracked) /\
    forall i p, nth_error predictions i = Some p ->
      exists d, nth_error tracked i = Some d /\
                id d = frameId now i /\ label d = class p /\
                confidence d = score p /\ timestamp d = now.
Proof.
  intro Hloaded. rewrite detectObjects_resolved by assumption.
  eexists; eexists. split; [reflexivity|]. split; [|split].
  - rewrite tracked_from_length. unfold adaptPredictions. generalize 0%nat.
    induction predictions as [|p ps IH]; intro k; cbn [mapi_from List.length];
      [reflexivity | now rewrite IH].
  - rewrite tracked_from_ids. apply mapi_from_ids_NoDup.
  - intros i p Hp.
    pose proof (mapi_from_nth (toDetection now) predictions 0 i p Hp) as Hd.
    fold (adaptPredictions now predictions) in Hd. cbn [Nat.add] in Hd.
    rewrite (tracked_from_nth _ _ _ _ _ Hd).
    eexists. split; [reflexivity|].
    destruct (tracked_at_id (previousDetections this)
                (trackingId this +
                 newTracks (previousDetections this)
                   (firstn i (adaptPredictions now predictions)))
                (toDetection now i p)) as (-> & -> & -> & -> & _).
    apply toDetection_fields.
Qed.

Lemma frame_records_identified_witness :
  exists tracked this',
    detectObjects (Resolved twoPeople) 2000 afterFirstFrame = (Resolved tracked, this') /\
    NoDup (map id tracked).
Proof.
  destruct (frame_records_identified afterFirstFrame twoPeople 2000
              afterFirstFrame_loaded) as (tracked & this' & Hrun & _ & Hnd & _).
  exists tracked, this'. split; [exact Hrun | exact Hnd].
Defined.

(** ** Track ids *)

(** X4.  On a reachable detector with a loaded model, every record a
    frame returns carries a track id, and that id lies between 1 and the
    counter as the call leaves it. *)
Theorem track_ids_in_range (this : ObjectDetector) (predictions : list Prediction)
  (now : Z) :
  reachable this -> loaded this ->
  exists tracked this',
    detectObjects (Resolved predictions) now this = (Resolved tracked, this') /\
    forall d, In d tracked ->
      exists t, trackId d = Some t /\ 1 <= t <= trackingId this'.
Proof.
  intros Hreach Hloaded.
  pose proof (tracker_inv_frame this (adaptPredictions now predictions)
                (reachable_inv this Hreach)) as Hinv.
  rewrite detectObjects_resolved by assumption.
  eexists; eexists. split; [reflexivity|].
  cbv zeta in Hinv. destruct Hinv as (_ & Hids & _). exact Hids.
Qed.

Lemma track_ids_in_range_witness :
  exists tracked this',
    detectObjects (Resolved twoPeople) 2000 afterFirstFrame = (Resolved tracked, this') /\
    Forall (fun d => exists t, trackId d = Some t /\ 1 <= t <= trackingId this') tracked.
Proof.
  destruct (track_ids_in_range afterFirstFrame twoPeople 2000
              afterFirstFrame_reachable afterFirstFrame_loaded)
    as (tracked & this' & Hrun & Hids).
  exists tracked, this'. split; [exact Hrun|]. apply Forall_forall. exact Hids.
Defined.

(** X5.  Two records of one frame share a track id only when that id is
    the id of a detection of the previous frame; the three then have the
    same label.  Ids handed out fresh within a frame are never shared. *)
Theorem shared_track_id_is_inherited (this : ObjectDetector)
  (predictions : list Prediction) (now : Z) :
  reachable this -> loaded this ->
  exists tracked this',
    detectObjects (Resolved predictions) now this = (Resolved tracked, this') /\
    forall i j di dj,
      i <> j -> nth_error tracked i = Some di -> nth_error tracked j = Some dj ->
      trackId di = trackId dj ->
      label di = label dj /\
      exists p, In p (previousDetections this) /\
                trackId p = trackId di /\ label p = label di.
Proof.
  intros Hreach Hloaded.
  pose proof (reachable_inv this Hreach) as Hinv.
  rewrite detectObjects_resolved by assumption.
  eexists; eexists. split; [reflexivity|].
  set (prev := previousDetections this).
  set (ds := adaptPredictions now predictions).
  intros i j di dj Hij Hi Hj Heq.
  apply tracked_from_nth_inv in Hi as (a & Ha & ->).
  apply tracked_from_nth_inv in Hj as (b & Hb & ->).
  destruct (tracked_id_cases this ds i a Hinv Ha) as (Hla & Hcase_a).
  destruct (tracked_id_cases this ds j b Hinv Hb) as (Hlb & Hcase_b).
  fold prev in Hla, Hlb, Hcase_a, Hcase_b, Heq |- *.
  pose proof (newTracks_nonneg prev (firstn i ds)).
  pose proof (newTracks_nonneg prev (firstn j ds)).
  destruct Hinv as (_ & _ & Hlabels).
  destruct Hcase_a as [(_ & p & t & Hp & Hpl & Hpt & Hat & Hr) | (Hma & Hat & _)];
    destruct Hcase_b as [(_ & q & u & Hq & Hql & Hqu & Hbu & Hs) | (Hmb & Hbu & _)];
    rewrite Hat, Hbu in Heq; injection Heq as Heq.
  - subst u. split.
    + rewrite Hla, Hlb, <- Hpl, <- Hql. apply Hlabels; try assumption. congruence.
    + exists p. rewrite Hla, Hat. auto.
  - exfalso. lia.
  - exfalso. lia.
  - exfalso. destruct (Nat.lt_trichotomy i j) as [Hlt | [-> | Hlt]].
    + pose proof (fresh_ids_increase prev ds i j a Hlt Ha Hma). lia.
    + now apply Hij.
    + pose proof (fresh_ids_increase prev ds j i b Hlt Hb Hmb). lia.
Qed.

Lemma shared_track_id_is_inherited_witness :
  exists tracked this',
    detectObjects (Resolved twoPeople) 2000 afterFirstFrame = (Resolved tracked, this') /\
    map trackId tracked = [Some 1; Some 1] /\
    map trackId (previousDetections afterFirstFrame) = [Some 1].
Proof.
  destruct (shared_track_id_is_inherited afterFirstFrame twoPeople 2000
              afterFirstFrame_reachable afterFirstFrame_loaded)
    as (tracked & this' & Hrun & _).
  exists tracked, this'. split; [exact Hrun|].
  rewrite (detectObjects_resolved twoPeople 2000 afterFirstFrame
             afterFirstFrame_loaded) in Hrun.
  apply run_inv in Hrun as [<- _]. split; vm_compute; reflexivity.
Defined.

Lemma has_match_nil (d : DetectionResult) : has_match [] d = false.
Proof. reflexivity. Qed.

Lemma newTracks_nil (ds : list DetectionResult) :
  newTracks [] ds = Z.of_nat (List.length ds).
Proof.
  unfold newTracks. f_equal.
  induction ds as [|d ds IH]; [reflexivity|].
  cbn [filter]. rewrite has_match_nil. cbn [negb List.length]. now rewrite IH.
Qed.

Lemma adaptPredictions_length (now : Z) (predictions : list Prediction) :
  List.length (adaptPredictions now predictions) = List.length predictions.
Proof.
  unfold adaptPredictions. generalize 0%nat.
  induction predictions as [|p ps IH]; intro k; cbn [mapi_from List.length];
    [reflexivity | now rewrite IH].
Qed.

(** With nothing remembered, the detections are numbered from the counter. *)
Lemma tracked_from_nil_nth (c : Z) (ds : list DetectionResult) (i : nat)
  (d' : DetectionResult) :
  nth_error (tracked_from [] c ds) i = Some d' ->
  trackId d' = Some (c + Z.of_nat i + 1).
Proof.
  intro H. apply tracked_from_nth_inv in H as (d & Hd & ->).
  rewrite newTracks_nil.
  assert (Hi : (i < List.length ds)%nat) by (apply nth_error_Some; congruence).
  rewrite length_firstn, Nat.min_l by lia.
  unfold tracked_at, findBestMatch. reflexivity.
Qed.

(** X6.  When the snapshot is empty (a new detector, or after a frame
    without detections) every detection of the frame starts a track:
    the record at position [i] gets the counter plus [i + 1], and the
    counter advances by the number of detections. *)
Theorem fresh_tracks_are_numbered (this : ObjectDetector)
  (predictions : list Prediction) (now : Z) :
  loaded this -> previousDetections this = [] ->
  exists tracked this',
    detectObjects (Resolved predictions) now this = (Resolved tracked, this') /\
    trackingId this' = trackingId this + Z.of_nat (List.length predictions) /\
    forall i d, nth_error tracked i = Some d ->
      trackId d = Some (trackingId this + Z.of_nat i + 1).
Proof.
  intros Hloaded Hprev. rewrite detectObjects_resolved by assumption.
  rewrite Hprev.
  eexists; eexists. split; [reflexivity|]. split.
  - cbn [with_previousDetections with_trackingId trackingId].
    now rewrite newTracks_nil, adaptPredictions_length.
  - intros i d. apply tracked_from_nil_nth.
Qed.

Lemma fresh_tracks_are_numbered_witness :
  exists tracked this',
    detectObjects (Resolved twoPeople) 1000 readyDetector = (Resolved tracked, this') /\
    trackingId this' = 2.
Proof.
  destruct (fresh_tracks_are_numbered readyDetector twoPeople 1000
              readyDetector_loaded eq_refl) as (tracked & this' & Hrun & Hc & _).
  exists tracked, this'. split; [exact Hrun | exact Hc].
Defined.

(** X7.  A frame in which the model sees nothing, unlike a frame whose
    model call fails, empties the snapshot: it returns the empty list,
    keeps the counter, and after it no detection of the next frame
    inherits a track id, whatever was tracked before. *)
Theorem empty_frame_forgets_tracks (this : ObjectDetector) (now now' : Z)
  (predictions : list Prediction) :
  loaded this ->
  exists this1,
    detectObjects (Resolved []) now this = (Resolved [], this1) /\
    previousDetections this1 = [] /\
    trackingId this1 = trackingId this /\
    exists tracked this2,
      detectObjects (Resolved predictions) now' this1 = (Resolved tracked, this2) /\
      forall i d, nth_error tracked i = Some d ->
        trackId d = Some (trackingId this + Z.of_nat i + 1).
Proof.
  intro Hloaded.
  pose proof (after_model (DetectObjects (Resolved []) now) this Hloaded) as Hl1.
  cbn [after] in Hl1.
  rewrite detectObjects_resolved in * by assumption.
  cbn [adaptPredictions mapi_from tracked_from snd] in *.
  eexists. split; [reflexivity|]. split; [reflexivity|]. split.
  - cbn [with_previousDetections with_trackingId trackingId].
    unfold newTracks; cbn. lia.
  - rewrite detectObjects_resolved by assumption.
    eexists; eexists. split; [reflexivity|].
    cbn [with_previousDetections with_trackingId trackingId previousDetections].
    intros i d H. apply tracked_from_nil_nth in H. rewrite H.
    unfold newTracks; cbn. f_equal. lia.
Qed.

Lemma empty_frame_forgets_tracks_witness :
  exists this1 tracked this2,
    detectObjects (Resolved []) 2000 afterFirstFrame = (Resolved [], this1) /\
    detectObjects (Resolved [prediction "person" 100 100 50 100]) 3000 this1 =
      (Resolved tracked, this2) /\
    forall i d, nth_error tracked i = Some d ->
      trackId d = Some (trackingId afterFirstFrame + Z.of_nat i + 1).
Proof.
  destruct (empty_frame_forgets_tracks afterFirstFrame 2000 3000
              [prediction "person" 100 100 50 100] afterFirstFrame_loaded)
    as (this1 & H1 & _ & _ & tracked & this2 & H2 & Hids).
  exists this1, tracked, this2. split; [exact H1|]. split; [exact H2 | exact Hids].
Defined.

(** ** Ties between candidates *)

Section FirstNearest.

Variable d : DetectionResult.

Lemma considerPrev_first (seen : list DetectionResult)
  (locals : option Z * option DetectionResult) (q : DetectionResult) :
  locals_first d seen locals ->
  locals_first d (seen ++ [q]) (considerPrev d locals q).
Proof.
  destruct locals as [[m|] [p|]]; cbn [locals_first]; try contradiction.
  - intros (Hm & Hlt & before & after_ & Hseen & Hbefore & Hafter).
    unfold considerPrev. cbn [lt_minDistance].
    destruct (String.eqb_spec (label q) (label d)) as [Hq|Hq].
    + destruct (Z.ltb_spec (distance2 d q) m) as [Hqm|Hqm]; cbn [andb].
      * destruct (Z.ltb_spec (distance2 d q) (100 * 100)) as [Hq100|Hq100];
          [|lia].
        cbn [locals_first]. split; [reflexivity|]. split; [assumption|].
        exists seen, []. split; [reflexivity|]. split.
        -- intros r Hr Hrl. rewrite Hseen in Hr.
           apply in_app_or in Hr as [Hr | [<- | Hr]].
           ++ specialize (Hbefore r Hr Hrl). lia.
           ++ lia.
           ++ specialize (Hafter r Hr Hrl). lia.
        -- intros r [].
      * cbn [locals_first]. split; [assumption|]. split; [assumption|].
        exists before, (after_ ++ [q]). split.
        -- rewrite Hseen, <- app_assoc. reflexivity.
        -- split; [assumption|].
           intros r Hr Hrl. in_snoc Hr; [now apply Hafter | assumption].
    + cbn [locals_first]. split; [assumption|]. split; [assumption|].
      exists before, (after_ ++ [q]). split.
      * rewrite Hseen, <- app_assoc. reflexivity.
      * split; [assumption|].
        intros r Hr Hrl. in_snoc Hr; [now apply Hafter | contradiction].
  - intros Hnone. unfold considerPrev. cbn [lt_minDistance andb].
    destruct (String.eqb_spec (label q) (label d)) as [Hq|Hq].
    + destruct (Z.ltb_spec (distance2 d q) (100 * 100)) as [Hq100|Hq100];
        cbn [locals_first].
      * split; [reflexivity|]. split; [assumption|].
        exists seen, []. split; [reflexivity|]. split.
        -- intros r Hr Hrl. specialize (Hnone r Hr Hrl). lia.
        -- intros r [].
      * intros r Hr Hrl. in_snoc Hr; [now apply Hnone | assumption].
    + cbn [locals_first].
      intros r Hr Hrl. in_snoc Hr; [now apply Hnone | contradiction].
Qed.

Lemma fold_considerPrev_first (rest seen : list DetectionResult)
  (locals : option Z * option DetectionResult) :
  locals_first d seen locals ->
  locals_first d (seen ++ rest) (fold_left (considerPrev d) rest locals).
Proof.
  revert seen locals.
  induction rest as [|q rest IH]; intros seen locals H; cbn [fold_left].
  - now rewrite app_nil_r.
  - replace (seen ++ q :: rest) with ((seen ++ [q]) ++ rest)
      by (now rewrite <- app_assoc).
    apply IH. now apply considerPrev_first.
Qed.

End FirstNearest.

(** X8.  Among the candidates the inner loop keeps the first nearest one:
    when it returns [p], every same-label detection listed before [p] in
    the snapshot is strictly farther from the detection than [p], and
    every one listed after [p] is at least as far. *)
Theorem first_nearest_candidate_wins (prev : list DetectionResult)
  (d p : DetectionResult) :
  findBestMatch prev d = Some p ->
  exists before after_,
    prev = before ++ p :: after_ /\
    (forall q, In q before -> label q = label d ->
               (distance d p < distance d q)%R) /\
    (forall q, In q after_ -> label q = label d ->
               (distance d p <= distance d q)%R).
Proof.
  unfold findBestMatch. intro H.
  assert (H0 : locals_first d [] (None, None)) by (intros q []).
  pose proof (fold_considerPrev_first d prev [] _ H0) as Hfold.
  cbn [app] in Hfold.
  destruct (fold_left (considerPrev d) prev (None, None)) as [[m|] [p'|]];
    cbn [locals_first snd] in *; try contradiction; try discriminate.
  injection H as ->.
  destruct Hfold as (-> & _ & before & after_ & Hprev & Hbefore & Hafter).
  exists before, after_. split; [assumption|]. split.
  - intros q Hq Hl. apply distance_lt_iff. now apply Hbefore.
  - intros q Hq Hl. apply distance_le_iff. now apply Hafter.
Qed.

(** Midway between two people of the previous frame, the one listed
    first is kept. *)
Lemma first_nearest_candidate_wins_witness :
  exists p before after_,
    findBestMatch (previousDetections afterPairFrame) between = Some p /\
    trackId p = Some 1 /\
    previousDetections afterPairFrame = before ++ p :: after_.
Proof.
  exists (nth 0 (previousDetections afterPairFrame) between).
  assert (H : findBestMatch (previousDetections afterPairFrame) between =
              Some (nth 0 (previousDetections afterPairFrame) between))
    by (vm_compute; reflexivity).
  destruct (first_nearest_candidate_wins _ _ _ H) as (before & after_ & Hprev & _).
  exists before, after_. split; [exact H|]. split; [vm_compute; reflexivity|].
  exact Hprev.
Defined.

(** ** Boxes with integer or non-negative values *)

Lemma Math_round_le (a b : Q) : (a <= b)%Q -> Js.Math_round a <= Js.Math_round b.
Proof.
  intro H. unfold Js.Math_round. apply Qfloor_resp_le. Lqa.lra.
Qed.

Lemma Math_round_0 : Js.Math_round 0 = 0.
Proof. reflexivity. Qed.

Lemma Math_round_half (n : Z) :
  Js.Math_round (inject_Z n / 2) = (n + 1) / 2.
Proof.
  unfold Js.Math_round.
  assert (H : (inject_Z n / 2 + (1 # 2) == (n + 1) # 2)%Q).
  { unfold Qeq, Qplus, Qdiv, Qmult, Qinv, inject_Z. cbn. lia. }
  rewrite H. reflexivity.
Qed.

Lemma Math_round_fl_inject_Z (n : Z) :
  - 2 ^ 53 < n < 2 ^ 53 -> Js.Math_round (Js.fl (inject_Z n)) = n.
Proof.
  intro H. rewrite (Math_round_comp _ _ (fl_inject_Z n H)).
  apply Math_round_inject_Z.
Qed.

(** Integers and their halves add up without rounding. *)
Lemma add_half_exact (a b : Z) :
  - 2 ^ 53 < a < 2 ^ 53 -> - 2 ^ 53 < b < 2 ^ 53 ->
  - 2 ^ 53 < 2 * a + b < 2 ^ 53 ->
  (Js.add (Js.fl (inject_Z a)) (Js.quot (Js.fl (inject_Z b)) 2) ==
   inject_Z (2 * a + b) / 2)%Q.
Proof.
  intros Ha Hb Hab. unfold Js.add, Js.quot.
  rewrite (fl_comp (Js.fl (inject_Z b) / 2) (inject_Z b / 2))
    by (rewrite (fl_inject_Z b Hb); reflexivity).
  assert (E : (Js.fl (inject_Z a) + Js.fl (inject_Z b / 2) ==
               inject_Z (2 * a + b) / 2)%Q).
  { rewrite (fl_inject_Z a Ha), (fl_half b Hb).
    rewrite inject_Z_plus, inject_Z_mult. change (inject_Z 2) with 2%Q. field. }
  rewrite (fl_comp _ _ E). now apply fl_half.
Qed.

(** X9.  For a box with integer values of magnitude at most [2^26] the
    record holds the values themselves, the exact product as [area], and
    the centre rounded half up: [centerX] is the quotient of
    [2 x + width + 1] by 2, which is [x + width / 2] when the width is
    even.  Past [2^53] the product is rounded: a square of side 94906267
    has the area 9007199515875288, one below the product. *)
Theorem integer_box_is_exact :
  (forall (timestamp : Z) (index : nat) (bx by_ bw bh : Z) (c : string) (s : Q),
     Z.abs bx <= 2 ^ 26 -> Z.abs by_ <= 2 ^ 26 ->
     Z.abs bw <= 2 ^ 26 -> Z.abs bh <= 2 ^ 26 ->
     let d := toDetection timestamp index
                (mkPrediction
                   (inject_Z bx, inject_Z by_, inject_Z bw, inject_Z bh) c s) in
     x d = bx /\ y d = by_ /\ width d = bw /\ height d = bh /\
     area d = bw * bh /\
     centerX d = (2 * bx + bw + 1) / 2 /\
     centerY d = (2 * by_ + bh + 1) / 2) /\
  area (toDetection 0 0 (prediction "car" 0 0 94906267 94906267)) =
    94906267 * 94906267 - 1.
Proof.
  split; [|vm_compute; reflexivity].
  intros timestamp index bx by_ bw bh c s Hx Hy Hw Hh.
  cbv zeta. unfold toDetection;
    cbn [bbox x y width height centerX centerY area].
  change (2 ^ 26) with 67108864 in *.
  assert (B : 2 ^ 53 = 9007199254740992) by reflexivity.
  rewrite !Math_round_fl_inject_Z by lia.
  assert (Hc : forall a b : Z,
    Z.abs a <= 67108864 -> Z.abs b <= 67108864 ->
    Js.Math_round (Js.add (Js.fl (inject_Z a)) (Js.quot (Js.fl (inject_Z b)) 2)) =
    (2 * a + b + 1) / 2).
  { intros a b Ha Hb.
    rewrite (Math_round_comp _ _ (add_half_exact a b ltac:(lia) ltac:(lia) ltac:(lia))).
    apply Math_round_half. }
  repeat split; try (apply Hc; assumption).
  unfold Js.mul.
  assert (E : (Js.fl (inject_Z bw) * Js.fl (inject_Z bh) == inject_Z (bw * bh))%Q).
  { rewrite !fl_inject_Z by lia. now rewrite inject_Z_mult. }
  rewrite (fl_comp _ _ E). apply Math_round_fl_inject_Z. nia.
Qed.

(** A box of 640 by 480 pixels at the origin. *)
Lemma integer_box_is_exact_witness :
  area (toDetection 0 0 (prediction "person" 0 0 640 480)) = 640 * 480 /\
  centerX (toDetection 0 0 (prediction "person" 0 0 640 480)) = (2 * 0 + 640 + 1) / 2.
Proof.
  assert (H0 : Z.abs 0 <= 2 ^ 26) by (vm_compute; discriminate).
  assert (H640 : Z.abs 640 <= 2 ^ 26) by (vm_compute; discriminate).
  assert (H480 : Z.abs 480 <= 2 ^ 26) by (vm_compute; discriminate).
  destruct (proj1 integer_box_is_exact 0 0%nat 0 0 640 480 "person"%string
              (9 # 10)%Q H0 H0 H640 H480)
    as (_ & _ & _ & _ & Ha & Hc & _).
  split; [exact Ha | exact Hc].
Defined.

(** X10.  For a box whose values are all non-negative, the integer fields
    of the record are non-negative and the centre is not left of or
    above the corner. *)
Theorem nonnegative_box_fields (timestamp : Z) (index : nat) (bx by_ bw bh : Q)
  (c : string) (s : Q) :
  (0 <= bx)%Q -> (0 <= by_)%Q -> (0 <= bw)%Q -> (0 <= bh)%Q ->
  let d := toDetection timestamp index (mkPrediction (bx, by_, bw, bh) c s) in
  0 <= x d /\ 0 <= y d /\ 0 <= width d /\ 0 <= height d /\ 0 <= area d /\
  x d <= centerX d /\ y d <= centerY d.
Proof.
  intros Hx Hy Hw Hh. cbv zeta. unfold toDetection;
    cbn [bbox x y width height centerX centerY area].
  apply fl_nonneg in Hx, Hy, Hw, Hh.
  assert (Hc : forall a b : Q, (0 <= Js.fl b)%Q ->
    Js.Math_round (Js.fl a) <= Js.Math_round (Js.add (Js.fl a) (Js.quot (Js.fl b) 2))).
  { intros a b Hb. apply Math_round_le. unfold Js.add, Js.quot.
    rewrite <- (fl_fl a) at 1. apply fl_le.
    assert (0 <= Js.fl (Js.fl b / 2))%Q.
    { apply fl_nonneg. unfold Qdiv. change (/ 2)%Q with (1 # 2)%Q. Lqa.lra. }
    Lqa.lra. }
  rewrite <- Math_round_0.
  repeat split; try (apply Math_round_le; assumption); try (now apply Hc).
  apply Math_round_le. unfold Js.mul. apply fl_nonneg.
  now apply Qmult_le_0_compat.
Qed.

Lemma nonnegative_box_fields_witness :
  0 <= area (toDetection 0 0 (mkPrediction ((1 # 2), 0, (3 # 2), 7)%Q "cup" 1)) /\
  x (toDetection 0 0 (mkPrediction ((1 # 2), 0, (3 # 2), 7)%Q "cup" 1)) <=
  centerX (toDetection 0 0 (mkPrediction ((1 # 2), 0, (3 # 2), 7)%Q "cup" 1)).
Proof.
  destruct (nonnegative_box_fields 0 0%nat (1 # 2) 0 (3 # 2) 7 "cup"%string 1)
    as (_ & _ & _ & _ & Ha & Hc & _); try discriminate.
  split; [exact Ha | exact Hc].
Defined.

(** * Further properties of the ROI component *)

Lemma recordViolation_zone (a : ROI.Alert.t) (zoneId : string) (st : ROI.State)
  (z' : ROI.Zone.t) :
  In z' (ROI.zones (ROI.recordViolation a zoneId st)) ->
  exists z, In z (ROI.zones st) /\
            z' = with_alertCount z (ROI.Zone.alertCount z').
Proof.
  cbn [ROI.recordViolation ROI.zones]. unfold ROI.countAlert.
  intro H. apply in_map_iff in H as (z & <- & Hz). exists z. split; [assumption|].
  destruct (String.eqb (ROI.Zone.id z) zoneId).
  - reflexivity.
  - now rewrite with_alertCount_same.
Qed.

(** Recording violations changes nothing of a zone but its counter. *)
Lemma recordAll_zone (vs : list (ROI.Alert.t * string)) (st : ROI.State)
  (z' : ROI.Zone.t) :
  In z' (ROI.zones (recordAll vs st)) ->
  exists z, In z (ROI.zones st) /\
            z' = with_alertCount z (ROI.Zone.alertCount z').
Proof.
  revert st. induction vs as [|v vs IH]; intros st H.
  - exists z'. split; [exact H | now rewrite with_alertCount_same].
  - rewrite recordAll_cons in H. apply IH in H as (z1 & Hz1 & Heq).
    apply recordViolation_zone in Hz1 as (z & Hz & Heq1).
    exists z. split; [assumption|]. rewrite Heq, Heq1. reflexivity.
Qed.

Lemma firstn_In {A : Type} (n : nat) (l : list A) (a : A) :
  In a (firstn n l) -> In a l.
Proof.
  intro H. rewrite <- (firstn_skipn n l). apply in_or_app. now left.
Qed.

(** A property of the recorded alerts and of the history holds of the
    history afterwards. *)
Lemma recordAll_alerts_Forall (P : ROI.Alert.t -> Prop)
  (vs : list (ROI.Alert.t * string)) (st : ROI.State) :
  (forall v, In v vs -> P (fst v)) ->
  (forall a, In a (ROI.alerts st) -> P a) ->
  forall a, In a (ROI.alerts (recordAll vs st)) -> P a.
Proof.
  revert st. induction vs as [|v vs IH]; intros st Hvs Hst a Ha.
  - now apply Hst.
  - rewrite recordAll_cons in Ha. revert a Ha. apply IH.
    + intros w Hw. apply Hvs. now right.
    + intros a. cbn [ROI.recordViolation ROI.alerts]. unfold ROI.pushAlert.
      intros [<- | Ha].
      * apply Hvs. now left.
      * apply Hst. eapply firstn_In. exact Ha.
Qed.

(** X11.  In every state the component can reach, a zone of type
    restricted is the initial "Restricted Area" with id "1" ([addZone]
    only creates monitored zones and nothing changes a type), so every
    alert of the history names that zone and has severity high. *)
Theorem only_the_initial_zone_alerts (st : ROI.State) :
  roi_reachable st ->
  (forall z, In z (ROI.zones st) -> ROI.Zone.type z = ROI.restricted ->
     ROI.Zone.id z = "1"%string /\ ROI.Zone.name z = "Restricted Area"%string) /\
  (forall a, In a (ROI.alerts st) ->
     ROI.Alert.zoneName a = "Restricted Area"%string /\
     ROI.Alert.severity a = ROI.high).
Proof.
  induction 1 as [|st act _ [IHz IHa]].
  - split.
    + intros z [<- | [<- | []]]; [auto | discriminate].
    + intros a [].
  - destruct act as [now ds | now | zoneId | zoneId]; cbn [ROI.step].
    + unfold ROI.onFrame. rewrite effect_records_violations. split.
      * intros z' Hz' Ht.
        apply recordAll_zone in Hz' as (z & Hz & Heq).
        rewrite Heq in Ht |- *. cbn in Ht |- *. now apply IHz.
      * apply recordAll_alerts_Forall; [|exact IHa].
        intros [a zid] Hv. cbn [fst].
        apply In_violations in Hv as (d & z & _ & Hz & Hv & _).
        pose proof (proj1 (violation_Some_iff now d z) (ex_intro _ a Hv))
          as (_ & Ht & _).
        apply violation_severity in Hv as (Hs & Hn & _).
        split; [|assumption]. rewrite Hn. now apply IHz.
    + split; [|exact IHa].
      cbn [ROI.addZone ROI.zones]. intros z Hz Ht.
      apply in_app_or in Hz as [Hz | [<- | []]]; [now apply IHz | discriminate].
    + split; [|exact IHa].
      cbn [ROI.removeZone ROI.zones]. intros z Hz Ht.
      apply filter_In in Hz as [Hz _]. now apply IHz.
    + split; [|exact IHa].
      cbn [ROI.toggleZone ROI.zones]. intros z' Hz' Ht.
      apply in_map_iff in Hz' as (z & <- & Hz).
      destruct (String.eqb (ROI.Zone.id z) zoneId); cbn in Ht |- *; now apply IHz.
Qed.

Lemma only_the_initial_zone_alerts_witness :
  Forall (fun a => ROI.Alert.zoneName a = "Restricted Area"%string /\
                   ROI.Alert.severity a = ROI.high)
    (ROI.alerts
       (ROI.step (ROI.step (ROI.step ROI.initialState (ROI.AddZone 7))
                           (ROI.Frame 8 [intruder]))
                 (ROI.ToggleZone "1"))).
Proof.
  apply Forall_forall.
  apply (proj2 (only_the_initial_zone_alerts _
           (roi_step _ (ROI.ToggleZone "1")
              (roi_step _ (ROI.Frame 8 [intruder])
                 (roi_step _ (ROI.AddZone 7) roi_initial))))).
Defined.

(** X12.  In every state the component can reach the alert history holds
    at most ten alerts. *)
Theorem alert_history_is_bounded (st : ROI.State) :
  roi_reachable st -> (List.length (ROI.alerts st) <= 10)%nat.
Proof.
  induction 1 as [|st act _ IH].
  - cbn. lia.
  - destruct act as [now ds | now | zoneId | zoneId]; cbn [ROI.step];
      try exact IH.
    unfold ROI.onFrame. rewrite effect_records_violations, recordAll_alerts.
    destruct (ROI.violations now ds (ROI.zones st)); [exact IH|].
    apply firstn_le_length.
Qed.

Lemma alert_history_is_bounded_witness :
  (List.length (ROI.alerts (fold_left ROI.step elevenFrames ROI.initialState)) <= 10)%nat.
Proof.
  apply alert_history_is_bounded.
  unfold elevenFrames. cbn [map fold_left].
  repeat apply roi_step. apply roi_initial.
Defined.

Lemma flipActive_flipActive (z : ROI.Zone.t) :
  ROI.flipActive (ROI.flipActive z) = z.
Proof. destruct z as [? ? ? ? ? b ?]. unfold ROI.flipActive; cbn. now destruct b. Qed.

(** X13.  Toggling a zone twice restores the state: [toggleZone] changes
    nothing but the active flag of the zones with the given id. *)
Theorem toggleZone_twice (zoneId : string) (st : ROI.State) :
  ROI.toggleZone zoneId (ROI.toggleZone zoneId st) = st.
Proof.
  destruct st as [zs al]. unfold ROI.toggleZone; cbn [ROI.zones ROI.alerts].
  f_equal. rewrite map_map. rewrite <- (map_id zs) at 2.
  apply map_ext. intro z.
  destruct (String.eqb (ROI.Zone.id z) zoneId) eqn:E.
  - cbn [ROI.flipActive ROI.Zone.id]. rewrite E. apply flipActive_flipActive.
  - now rewrite E.
Qed.

Lemma filter_all {A : Type} (f : A -> bool) (l : list A) :
  (forall a, In a l -> f a = true) -> filter f l = l.
Proof.
  induction l as [|a l IH]; intro H; [reflexivity|]. cbn [filter].
  rewrite (H a (or_introl eq_refl)). f_equal. apply IH.
  intros b Hb. apply H. now right.
Qed.

(** X14.  [removeZone] drops exactly the zones with the given id: none of
    them is left, every other zone stays, the alert history is kept,
    removing an id no zone has changes nothing, and after the removal no
    frame raises an alert under that id. *)
Theorem removeZone_removes_the_id (zoneId : string) (st : ROI.State) :
  let st' := ROI.removeZone zoneId st in
  (forall z, In z (ROI.zones st') <->
             In z (ROI.zones st) /\ ROI.Zone.id z <> zoneId) /\
  ROI.alerts st' = ROI.alerts st /\
  ((forall z, In z (ROI.zones st) -> ROI.Zone.id z <> zoneId) -> st' = st) /\
  (forall now ds a, ~ In (a, zoneId) (ROI.violations now ds (ROI.zones st'))).
Proof.
  cbv zeta.
  assert (Hin : forall z, In z (ROI.zones (ROI.removeZone zoneId st)) <->
                          In z (ROI.zones st) /\ ROI.Zone.id z <> zoneId).
  { intro z. cbn [ROI.removeZone ROI.zones]. rewrite filter_In.
    destruct (String.eqb_spec (ROI.Zone.id z) zoneId); cbn [negb]; intuition congruence. }
  split; [exact Hin|]. split; [reflexivity|]. split.
  - intro Hnone. destruct st as [zs al].
    unfold ROI.removeZone; cbn [ROI.zones ROI.alerts] in *. f_equal.
    apply filter_all. intros z Hz.
    destruct (String.eqb_spec (ROI.Zone.id z) zoneId) as [E|E]; [|reflexivity].
    exfalso. now apply (Hnone z).
  - intros now ds a H. apply In_violations in H as (d & z & _ & Hz & _ & Hid).
    apply Hin in Hz as [_ Hne]. now apply Hne.
Qed.

Lemma violations_nil (now : Z) (ds : list ROI.Detection.t) (zs : list ROI.Zone.t) :
  (forall d z, In d ds -> In z zs -> ~ violates d z) ->
  ROI.violations now ds zs = [].
Proof.
  intro Hnone.
  destruct (ROI.violations now ds zs) as [|[a zid] vs] eqn:E; [reflexivity|].
  exfalso.
  assert (Hin : In (a, zid) (ROI.violations now ds zs)) by (rewrite E; now left).
  apply In_violations in Hin as (d & z & Hd & Hz & Hv & _).
  apply (Hnone d z Hd Hz). apply (violation_Some_iff now). now exists a.
Qed.

(** X15.  A frame in which no detection violates any zone leaves the
    state as it is: no alert, no counter moves.  So does a frame without
    detections, and so does any frame while every zone is switched off. *)
Theorem quiet_frame_changes_nothing :
  (forall now ds st,
     (forall d z, In d ds -> In z (ROI.zones st) -> ~ violates d z) ->
     ROI.onFrame now ds st = st) /\
  (forall now st, ROI.onFrame now [] st = st) /\
  (forall now ds st,
     (forall z, In z (ROI.zones st) -> ROI.Zone.isActive z = false) ->
     ROI.onFrame now ds st = st).
Proof.
  assert (H : forall now ds st,
     (forall d z, In d ds -> In z (ROI.zones st) -> ~ violates d z) ->
     ROI.onFrame now ds st = st).
  { intros now ds st Hnone. unfold ROI.onFrame.
    rewrite effect_records_violations, violations_nil by assumption.
    reflexivity. }
  split; [exact H|]. split.
  - intros now st. reflexivity.
  - intros now ds st Hoff. apply H. intros d z _ Hz (Hact & _).
    rewrite (Hoff z Hz) in Hact. discriminate.
Qed.

(** With the initial restricted zone switched off, an intruder raises
    nothing. *)
Lemma quiet_frame_changes_nothing_witness :
  ROI.onFrame 9 [intruder]
    (ROI.toggleZone "2" (ROI.toggleZone "1" ROI.initialState)) =
  ROI.toggleZone "2" (ROI.toggleZone "1" ROI.initialState).
Proof.
  apply (proj2 (proj2 quiet_frame_changes_nothing)).
  intros z [<- | [<- | []]]; reflexivity.
Defined.

Lemma hits_app (zoneId : string) (vs ws : list (ROI.Alert.t * string)) :
  hits zoneId (vs ++ ws) = hits zoneId vs + hits zoneId ws.
Proof. unfold hits. rewrite filter_app, length_app. lia. Qed.

(** Among zones with distinct ids, the violations of one detection under
    the id of [z] are the violation of [z] itself, if any. *)
Lemma hits_one_detection (now : Z) (d : ROI.Detection.t) (zs : list ROI.Zone.t)
  (z : ROI.Zone.t) :
  NoDup (map ROI.Zone.id zs) -> In z zs ->
  hits (ROI.Zone.id z)
    (flat_map (fun zone => match ROI.violation now d zone with
                           | Some newAlert => [(newAlert, ROI.Zone.id zone)]
                           | None => []
                           end) zs) =
  if truthy (ROI.violation now d z) then 1 else 0.
Proof.
  induction zs as [|z0 zs IH]; intros Hnd Hz; [destruct Hz|].
  cbn [map] in Hnd. apply NoDup_cons_iff in Hnd as [Hnotin Hnd].
  cbn [flat_map]. rewrite hits_app.
  assert (Hother : forall zs', ~ In (ROI.Zone.id z) (map ROI.Zone.id zs') ->
    hits (ROI.Zone.id z)
      (flat_map (fun zone => match ROI.violation now d zone with
                             | Some newAlert => [(newAlert, ROI.Zone.id zone)]
                             | None => []
                             end) zs') = 0).
  { induction zs' as [|z1 zs' IH']; intro Hn; [reflexivity|].
    cbn [flat_map]. rewrite hits_app, IH'.
    - destruct (ROI.violation now d z1); [|reflexivity].
      unfold hits; cbn [filter snd].
      destruct (String.eqb_spec (ROI.Zone.id z) (ROI.Zone.id z1)) as [E|E];
        [|reflexivity].
      exfalso. apply Hn. left. now symmetry.
    - intro Hc. apply Hn. now right. }
  destruct Hz as [-> | Hz].
  - rewrite (Hother zs Hnotin), Z.add_0_r.
    destruct (ROI.violation now d z); cbn [truthy]; [|reflexivity].
    unfold hits; cbn [filter snd]. now rewrite String.eqb_refl.
  - rewrite (IH Hnd Hz).
    assert (Hne : ROI.Zone.id z <> ROI.Zone.id z0).
    { intro E. apply Hnotin. rewrite <- E. now apply in_map. }
    destruct (ROI.violation now d z0); [|reflexivity].
    unfold hits at 1; cbn [filter snd].
    apply String.eqb_neq in Hne. rewrite Hne. reflexivity.
Qed.

Lemma hits_violations (now : Z) (ds : list ROI.Detection.t) (zs : list ROI.Zone.t)
  (z : ROI.Zone.t) :
  NoDup (map ROI.Zone.id zs) -> In z zs ->
  hits (ROI.Zone.id z) (ROI.violations now ds zs) = intrusions now ds z.
Proof.
  intros Hnd Hz. unfold ROI.violations, intrusions.
  induction ds as [|d ds IH]; [reflexivity|].
  cbn [flat_map filter]. rewrite hits_app, IH, (hits_one_detection now d zs z Hnd Hz).
  destruct (truthy (ROI.violation now d z)); cbn [List.length]; lia.
Qed.

(** X16.  While the zones have distinct ids, a frame raises the alert
    counter of each zone by the number of detections of the frame that
    violate it, and changes nothing else of the zone. *)
Theorem frame_counts_intrusions (now : Z) (ds : list ROI.Detection.t)
  (st : ROI.State) (j : nat) (z : ROI.Zone.t) :
  NoDup (map ROI.Zone.id (ROI.zones st)) ->
  nth_error (ROI.zones st) j = Some z ->
  nth_error (ROI.zones (ROI.onFrame now ds st)) j =
  Some (with_alertCount z (ROI.Zone.alertCount z + intrusions now ds z)).
Proof.
  intros Hnd Hz. unfold ROI.onFrame.
  rewrite effect_records_violations, (recordAll_zones_nth _ st j z Hz).
  rewrite hits_violations; [reflexivity | assumption |].
  eapply nth_error_In. exact Hz.
Qed.

(** A frame with two intruders and one passer-by outside the zone: the
    counter of the restricted zone goes from 0 to 2. *)
Lemma frame_counts_intrusions_witness :
  nth_error
    (ROI.zones (ROI.onFrame 3 [intruder; onBorder; outsider] ROI.initialState)) 0 =
  Some (with_alertCount restrictedArea 2).
Proof.
  rewrite (frame_counts_intrusions 3 [intruder; onBorder; outsider]
             ROI.initialState 0 restrictedArea).
  - reflexivity.
  - cbn. repeat constructor; cbn; intuition discriminate.
  - reflexivity.
Defined.

(** Without a bound on the values the two centres can be further apart:
    around [2^55] the doubles are 8 apart, and the sum [2^55 + 3] is
    stored as [2^55]. *)
Remark centre_far_from_rounded_box :
  let d := toDetection 0 0 (prediction "car" 36028797018963968 0 6 0) in
  let r := ROI.ofDetectionResult d in
  centerX d = 36028797018963968 /\
  (ROI.Detection.x r + ROI.Detection.width r / 2 == 36028797018963971)%Q.
Proof. vm_compute. split; reflexivity. Qed.



Lemma recordViolation_addZone (a : ROI.Alert.t) (zoneId : string) (t : Z)
  (st : ROI.State) :
  zoneId <> Js.toString t ->
  ROI.recordViolation a zoneId (ROI.addZone t st) =
  ROI.addZone t (ROI.recordViolation a zoneId st).
Proof.
  intro Hne. unfold ROI.recordViolation, ROI.addZone, ROI.countAlert;
    cbn [ROI.zones ROI.alerts].
  rewrite map_app, length_map. cbn [map ROI.Zone.id].
  assert (E : String.eqb (Js.toString t) zoneId = false)
    by (apply String.eqb_neq; congruence).
  rewrite E. reflexivity.
Qed.

Lemma recordAll_addZone (vs : list (ROI.Alert.t * string)) (t : Z) (st : ROI.State) :
  (forall v, In v vs -> snd v <> Js.toString t) ->
  recordAll vs (ROI.addZone t st) = ROI.addZone t (recordAll vs st).
Proof.
  revert st. induction vs as [|v vs IH]; intros st H; [reflexivity|].
  rewrite !recordAll_cons, recordViolation_addZone by (apply H; now left).
  apply IH. intros w Hw. apply H. now right.
Qed.

Lemma violations_snoc_monitored (now : Z) (ds : list ROI.Detection.t)
  (zs : list ROI.Zone.t) (z : ROI.Zone.t) :
  ROI.Zone.type z <> ROI.restricted ->
  ROI.violations now ds (zs ++ [z]) = ROI.violations now ds zs.
Proof.
  intro Ht. unfold ROI.violations.
  induction ds as [|d ds IH]; [reflexivity|].
  cbn [flat_map]. rewrite IH. f_equal.
  rewrite flat_map_app. cbn [flat_map].
  destruct (ROI.violation now d z) as [a|] eqn:E; [|now rewrite !app_nil_r].
  exfalso. apply Ht.
  now destruct (proj1 (violation_Some_iff now d z) (ex_intro _ a E)) as (_ & ? & _).
Qed.

(** X18.  A zone added with an id no zone has yet takes no part in the
    frames that follow: adding the zone and then processing a frame gives
    the state that processing the frame and then adding the zone gives. *)
Theorem addZone_commutes_with_frame (t now : Z) (ds : list ROI.Detection.t)
  (st : ROI.State) :
  (forall z, In z (ROI.zones st) -> ROI.Zone.id z <> Js.toString t) ->
  ROI.onFrame now ds (ROI.addZone t st) = ROI.addZone t (ROI.onFrame now ds st).
Proof.
  intro Hfresh. unfold ROI.onFrame.
  rewrite !effect_records_violations.
  cbn [ROI.addZone ROI.zones].
  rewrite violations_snoc_monitored by discriminate.
  apply recordAll_addZone.
  intros [a zid] Hv. cbn [snd].
  apply In_violations in Hv as (d & z & _ & Hz & _ & ->).
  now apply Hfresh.
Qed.

Lemma addZone_commutes_with_frame_witness :
  ROI.onFrame 8 [intruder] (ROI.addZone 7 ROI.initialState) =
  ROI.addZone 7 (ROI.onFrame 8 [intruder] ROI.initialState).
Proof.
  apply addZone_commutes_with_frame.
  intros z [<- | [<- | []]]; vm_compute; discriminate.
Defined.

(** * The tracking panel *)

Lemma In_mapi_from {A B : Type} (f : nat -> A -> B) (k : nat) (l : list A) (b : B) :
  In b (mapi_from f k l) -> exists i a, b = f i a /\ In a l.
Proof.
  revert k. induction l as [|a l IH]; intros k H; cbn [mapi_from] in H.
  - destruct H.
  - destruct H as [<- | H].
    + exists k, a. split; [reflexivity | now left].
    + destruct (IH _ H) as (i & a' & Hb & Ha'). exists i, a'. split; [assumption | now right].
Qed.

Lemma map_mapi_from {A B C : Type} (g : B -> C) (f : nat -> A -> B) (h : A -> C)
  (k : nat) (l : list A) :
  (forall i a, g (f i a) = h a) ->
  map g (mapi_from f k l) = map h l.
Proof.
  intro H. revert k. induction l as [|a l IH]; intro k; cbn [mapi_from map].
  - reflexivity.
  - now rewrite H, IH.
Qed.

(** Objects whose ids are strings are never found by the search, which
    compares ids with numbers. *)
Lemma find_sameTrack_None (detection : DetectionResult) (index : nat)
  (objs : list Tracking.TrackedObject.t) :
  (forall obj, In obj objs -> exists s, Tracking.TrackedObject.id obj = Tracking.Str s) ->
  find (Tracking.sameTrack detection index) objs = None.
Proof.
  intro H. induction objs as [|obj objs IH]; [reflexivity|].
  cbn [find]. destruct (H obj (or_introl eq_refl)) as [s Hs].
  unfold Tracking.sameTrack at 1. rewrite Hs. cbn [Tracking.strictEq].
  destruct (trackId detection); cbn [orb].
  - apply IH. intros o Ho. apply H. now right.
  - apply IH. intros o Ho. apply H. now right.
Qed.

Lemma updateObject_id (now : Z) (objs : list Tracking.TrackedObject.t)
  (index : nat) (detection : DetectionResult) :
  Tracking.TrackedObject.id (Tracking.updateObject now objs index detection) =
  Tracking.Str (id detection) /\
  label (Tracking.TrackedObject.fields
           (Tracking.updateObject now objs index detection)) = label detection.
Proof.
  unfold Tracking.updateObject.
  destruct (find (Tracking.sameTrack detection index) objs); cbn; auto.
Qed.

Lemma effect_ids (now : Z) (ds : list DetectionResult) (st : Tracking.State)
  (obj : Tracking.TrackedObject.t) :
  (forall o, In o (Tracking.trackedObjects st) ->
             exists s, Tracking.TrackedObject.id o = Tracking.Str s) ->
  In obj (Tracking.trackedObjects (Tracking.effect now ds st)) ->
  exists s, Tracking.TrackedObject.id obj = Tracking.Str s.
Proof.
  intros Hst. unfold Tracking.effect.
  destruct (0 <? List.length ds)%nat; cbn [Tracking.trackedObjects].
  - intro H. apply In_mapi_from in H as (i & d & -> & _).
    eexists. apply updateObject_id.
  - apply Hst.
Qed.

Lemma tracking_ids_are_strings (st : Tracking.State) :
  tracking_reachable st ->
  forall obj, In obj (Tracking.trackedObjects st) ->
              exists s, Tracking.TrackedObject.id obj = Tracking.Str s.
Proof.
  induction 1 as [|now ds st _ IH].
  - intros obj [].
  - intros obj. now apply effect_ids.
Qed.

Lemma updateObject_fresh (now : Z) (objs : list Tracking.TrackedObject.t)
  (index : nat) (detection : DetectionResult) :
  (forall obj, In obj objs -> exists s, Tracking.TrackedObject.id obj = Tracking.Str s) ->
  Tracking.updateObject now objs index detection =
  {| Tracking.TrackedObject.id := Tracking.Str (id detection);
     Tracking.TrackedObject.fields := detection;
     Tracking.TrackedObject.firstSeen := now;
     Tracking.TrackedObject.lastSeen := now;
     Tracking.TrackedObject.frameCount := 1;
     Tracking.TrackedObject.trajectory :=
       [ {| Tracking.Point.x := x detection; Tracking.Point.y := y detection;
            Tracking.Point.timestamp := now |} ] |}.
Proof.
  intro H. unfold Tracking.updateObject. now rewrite find_sameTrack_None.
Qed.

Lemma tracked_objects_are_fresh (st : Tracking.State) :
  tracking_reachable st ->
  forall obj, In obj (Tracking.trackedObjects st) ->
    Tracking.TrackedObject.frameCount obj = 1 /\
    Tracking.TrackedObject.firstSeen obj = Tracking.TrackedObject.lastSeen obj /\
    List.length (Tracking.TrackedObject.trajectory obj) = 1%nat.
Proof.
  induction 1 as [|now ds st Hreach IH].
  - intros obj [].
  - intros obj. unfold Tracking.effect.
    destruct (0 <? List.length ds)%nat; cbn [Tracking.trackedObjects]; [|apply IH].
    intro H. apply In_mapi_from in H as (i & d & -> & _).
    rewrite updateObject_fresh by (now apply tracking_ids_are_strings).
    cbn. auto.
Qed.

(** X19.  The tracking panel never follows an object across frames.  The
    id of a tracked object is the string id spread from its detection,
    while the search for an existing object compares ids with numbers
    (the track id, the position plus one); so in every reachable state
    each tracked object has frame count 1, first and last sighting at
    the same time and a trajectory of one point, and a frame with
    detections replaces the list by one new object per detection. *)
Theorem tracks_never_persist :
  (forall st, tracking_reachable st ->
     forall obj, In obj (Tracking.trackedObjects st) ->
       (exists s, Tracking.TrackedObject.id obj = Tracking.Str s) /\
       Tracking.TrackedObject.frameCount obj = 1 /\
       Tracking.TrackedObject.firstSeen obj = Tracking.TrackedObject.lastSeen obj /\
       List.length (Tracking.TrackedObject.trajectory obj) = 1%nat) /\
  (forall st now ds,
     tracking_reachable st -> ds <> [] ->
     map Tracking.TrackedObject.fields
         (Tracking.trackedObjects (Tracking.effect now ds st)) = ds /\
     forall obj, In obj (Tracking.trackedObjects (Tracking.effect now ds st)) ->
                 Tracking.TrackedObject.firstSeen obj = now).
Proof.
  split.
  - intros st Hreach obj Hobj. split.
    + now apply (tracking_ids_are_strings st).
    + now apply (tracked_objects_are_fresh st).
  - intros st now ds Hreach Hds.
    pose proof (tracking_ids_are_strings st Hreach) as Hids.
    unfold Tracking.effect.
    destruct ds as [|d0 ds]; [contradiction|].
    cbn [List.length Nat.ltb Nat.leb Tracking.trackedObjects]. split.
    + rewrite <- (map_id (d0 :: ds)) at 2. apply map_mapi_from.
      intros i a. now rewrite updateObject_fresh.
    + intros obj H. apply In_mapi_from in H as (i & d & -> & _).
      now rewrite updateObject_fresh.
Qed.

(** Two frames showing the same tracked person: the panel still counts
    one frame for it. *)
Lemma tracks_never_persist_witness :
  Forall (fun obj => Tracking.TrackedObject.frameCount obj = 1)
    (Tracking.trackedObjects
       (Tracking.effect 2001 (previousDetections afterFirstFrame)
          (Tracking.effect 1001 (previousDetections afterFirstFrame)
             Tracking.initialState))).
Proof.
  apply Forall_forall. intros obj Hobj.
  apply (proj1 tracks_never_persist _
           (tracking_effect 2001 _ _ (tracking_effect 1001 _ _ tracking_initial))
           obj Hobj).
Defined.

(** ** Counts *)

Lemma fold_countObject (objs : list Tracking.TrackedObject.t) (c : Tracking.Counts) :
  Tracking.person (fold_left Tracking.countObject objs c) =
  Tracking.person c +
  howMany (mentions "person") (map Tracking.TrackedObject.fields objs) /\
  Tracking.car (fold_left Tracking.countObject objs c) =
  Tracking.car c +
  howMany (fun d => negb (mentions "person" d) && mentions "car" d)
          (map Tracking.TrackedObject.fields objs) /\
  Tracking.bicycle (fold_left Tracking.countObject objs c) =
  Tracking.bicycle c +
  howMany (fun d => negb (mentions "person" d) && negb (mentions "car" d) &&
                    mentions "bicycle" d)
          (map Tracking.TrackedObject.fields objs) /\
  Tracking.truck (fold_left Tracking.countObject objs c) =
  Tracking.truck c +
  howMany (fun d => negb (mentions "person" d) && negb (mentions "car" d) &&
                    negb (mentions "bicycle" d) && mentions "truck" d)
          (map Tracking.TrackedObject.fields objs) /\
  Tracking.person (fold_left Tracking.countObject objs c) +
  Tracking.car (fold_left Tracking.countObject objs c) +
  Tracking.bicycle (fold_left Tracking.countObject objs c) +
  Tracking.truck (fold_left Tracking.countObject objs c) <=
  Tracking.person c + Tracking.car c + Tracking.bicycle c + Tracking.truck c +
  Z.of_nat (List.length objs).
Proof.
  revert c. induction objs as [|o objs IH]; intro c.
  - unfold howMany; cbn. lia.
  - cbn [fold_left map].
    destruct (IH (Tracking.countObject c o)) as (Hp & Hc & Hb & Ht & Hs).
    clear IH. unfold howMany, mentions in *. cbn [filter]. cbv beta.
    unfold Tracking.countObject in *.
    set (lab := Tracking.toLowerCase (label (Tracking.TrackedObject.fields o))) in *.
    destruct (Tracking.includes lab "person"), (Tracking.includes lab "car"),
      (Tracking.includes lab "bicycle"), (Tracking.includes lab "truck");
      cbn [negb andb Tracking.person Tracking.car Tracking.bicycle Tracking.truck
           List.length] in *; lia.
Qed.

Lemma mapi_from_length {A B : Type} (f : nat -> A -> B) (k : nat) (l : list A) :
  List.length (mapi_from f k l) = List.length l.
Proof.
  revert k. induction l as [|a l IH]; intro k; cbn [mapi_from List.length];
    [reflexivity | now rewrite IH].
Qed.

(** A test on the label gives the same count on the updated objects as
    on the detections. *)
Lemma howMany_updated (f : DetectionResult -> bool) (now : Z)
  (objs : list Tracking.TrackedObject.t) (k : nat) (ds : list DetectionResult) :
  (forall d d', label d = label d' -> f d = f d') ->
  howMany f (map Tracking.TrackedObject.fields
               (mapi_from (Tracking.updateObject now objs) k ds)) =
  howMany f ds.
Proof.
  intro Hf. unfold howMany. f_equal. revert k.
  induction ds as [|a ds IH]; intro k; cbn [mapi_from map filter]; [reflexivity|].
  rewrite (Hf (Tracking.TrackedObject.fields (Tracking.updateObject now objs k a)) a)
    by apply updateObject_id.
  destruct (f a); cbn [List.length]; now rewrite IH.
Qed.

(** X20.  After a frame with detections the four counts are those of
    that frame alone, whatever the counts were: each detection is
    counted once at most, under the first of person, car, bicycle, truck
    that its lower-cased label contains, so the counts add up to at most
    the number of detections. *)
Theorem counts_are_per_frame (st : Tracking.State) (now : Z)
  (ds : list DetectionResult) :
  ds <> [] ->
  let c := Tracking.totalCounts (Tracking.effect now ds st) in
  Tracking.person c = howMany (mentions "person") ds /\
  Tracking.car c =
    howMany (fun d => negb (mentions "person" d) && mentions "car" d) ds /\
  Tracking.bicycle c =
    howMany (fun d => negb (mentions "person" d) && negb (mentions "car" d) &&
                      mentions "bicycle" d) ds /\
  Tracking.truck c =
    howMany (fun d => negb (mentions "person" d) && negb (mentions "car" d) &&
                      negb (mentions "bicycle" d) && mentions "truck" d) ds /\
  Tracking.person c + Tracking.car c + Tracking.bicycle c + Tracking.truck c <=
  Z.of_nat (List.length ds).
Proof.
  intro Hds. cbv zeta. unfold Tracking.effect.
  destruct ds as [|d0 ds]; [contradiction|].
  cbn [List.length Nat.ltb Nat.leb Tracking.totalCounts].
  set (objs := mapi_from (Tracking.updateObject now (Tracking.trackedObjects st)) 0
                         (d0 :: ds)).
  destruct (fold_countObject objs (Tracking.mkCounts 0 0 0 0))
    as (Hp & Hc & Hb & Ht & Hs).
  assert (Hlen : List.length objs = S (List.length ds))
    by (subst objs; now rewrite mapi_from_length).
  rewrite Hlen in Hs. cbn [Tracking.person Tracking.car Tracking.bicycle
                           Tracking.truck] in Hp, Hc, Hb, Ht, Hs.
  subst objs.
  rewrite howMany_updated in Hp, Hc, Hb, Ht
    by (intros d d' Hl; unfold mentions; now rewrite Hl).
  repeat split; assumption || lia.
Qed.

(** A person and a carrot: one person, and one car. *)
Lemma counts_are_per_frame_witness :
  Tracking.person (Tracking.totalCounts (Tracking.effect 1001 snack Tracking.initialState)) = 1 /\
  Tracking.car (Tracking.totalCounts (Tracking.effect 1001 snack Tracking.initialState)) = 1.
Proof.
  destruct (counts_are_per_frame Tracking.initialState 1001 snack)
    as (Hp & Hc & _); [discriminate|].
  split; [rewrite Hp | rewrite Hc]; vm_compute; reflexivity.
Defined.

(** ** Trajectory paths *)

Lemma append_assoc (a b c : string) : ((a ++ b) ++ c = a ++ (b ++ c))%string.
Proof. induction a as [|ch a IH]; cbn; [reflexivity | now rewrite IH]. Qed.

Lemma append_nil_r (a : string) : (a ++ EmptyString)%string = a.
Proof. induction a as [|ch a IH]; cbn; [reflexivity | now rewrite IH]. Qed.

Lemma reducePath_later (path : string) (k : nat) (trajectory : list Tracking.Point.t) :
  Tracking.reducePath path (S k) trajectory =
  (path ++ joinAll (map (segment "L") trajectory))%string.
Proof.
  revert path k. induction trajectory as [|p rest IH]; intros path k.
  - cbn. now rewrite append_nil_r.
  - change (Tracking.reducePath path (S k) (p :: rest))
      with (Tracking.reducePath (path ++ segment "L" p) (S (S k)) rest).
    rewrite IH. apply append_assoc.
Qed.

(** X21.  [getTrajectoryPath] gives the empty path for fewer than two
    points, and otherwise one "M" piece for the first point followed by
    one "L" piece for each further point, in order.  Tracked objects
    having a single point, the path drawn for a tracked object is always
    empty. *)
Theorem trajectory_path_shape :
  (forall trajectory,
     (List.length trajectory < 2)%nat ->
     Tracking.getTrajectoryPath trajectory = EmptyString) /\
  (forall p0 p1 rest,
     Tracking.getTrajectoryPath (p0 :: p1 :: rest) =
     (segment "M" p0 ++ joinAll (map (segment "L") (p1 :: rest)))%string) /\
  (forall st, tracking_reachable st ->
     forall obj, In obj (Tracking.trackedObjects st) ->
       Tracking.getTrajectoryPath (Tracking.TrackedObject.trajectory obj) =
       EmptyString).
Proof.
  assert (Hshort : forall trajectory,
     (List.length trajectory < 2)%nat ->
     Tracking.getTrajectoryPath trajectory = EmptyString).
  { intros trajectory H. unfold Tracking.getTrajectoryPath.
    apply Nat.ltb_lt in H. now rewrite H. }
  split; [exact Hshort|]. split.
  - intros p0 p1 rest. unfold Tracking.getTrajectoryPath.
    change (List.length (p0 :: p1 :: rest) <? 2)%nat with false. cbv iota.
    change (Tracking.reducePath EmptyString 0 (p0 :: p1 :: rest))
      with (Tracking.reducePath (EmptyString ++ segment "M" p0) 1 (p1 :: rest)).
    rewrite reducePath_later. reflexivity.
  - intros st Hreach obj Hobj. apply Hshort.
    destruct (tracked_objects_are_fresh st Hreach obj Hobj) as (_ & _ & ->). lia.
Qed.

Lemma trajectory_path_shape_witness :
  Tracking.getTrajectoryPath
    [Tracking.Point.mk 10 20 1; Tracking.Point.mk 30 40 2; Tracking.Point.mk 50 60 3] =
  " M 10 20 L 30 40 L 50 60"%string.
Proof.
  rewrite (proj1 (proj2 trajectory_path_shape)). reflexivity.
Defined.

(** * The detection panel *)

Lemma tracked_at_roi (prev : list DetectionResult) (c : Z) (d : DetectionResult) :
  ROI.ofDetectionResult (tracked_at prev c d) = ROI.ofDetectionResult d.
Proof. unfold tracked_at. now destruct (findBestMatch prev d). Qed.

Lemma tracked_from_roi (prev : list DetectionResult) (c : Z)
  (ds : list DetectionResult) :
  map ROI.ofDetectionResult (tracked_from prev c ds) = map ROI.ofDetectionResult ds.
Proof.
  revert c. induction ds as [|d ds IH]; intro c; cbn [tracked_from map].
  - reflexivity.
  - now rewrite tracked_at_roi, IH.
Qed.

(** X22.  [processImage] never throws.  On an unloaded model it calls
    nothing and changes nothing.  On a loaded model whose call resolves,
    the list shown by the panel and the list published to the page are
    the tracker's snapshot, and [isProcessing] ends false.  On a loaded
    model whose call is rejected, the page receives the empty list while
    the tracker keeps its snapshot and counter. *)
Theorem processImage_publishes_the_frame :
  (forall detect now this ui,
     exists this' ui',
       Panel.processImage detect now this ui = (Resolved tt, this', ui')) /\
  (forall detect now this ui,
     model this = None ->
     Panel.processImage detect now this ui = (Resolved tt, this, ui)) /\
  (forall predictions now this ui,
     loaded this ->
     exists this' ui',
       Panel.processImage (Resolved predictions) now this ui = (Resolved tt, this', ui') /\
       Panel.detectionResults ui' = previousDetections this' /\
       Panel.detections ui' = previousDetections this' /\
       Panel.isProcessing ui' = false) /\
  (forall e now this ui,
     loaded this ->
     Panel.processImage (Rejected e) now this ui =
     (Resolved tt, this, Panel.mkState false [] [])).
Proof.
  assert (Hloaded : forall this, loaded this ->
            isModelLoaded this = (Resolved true, this)).
  { intros this H. unfold isModelLoaded, Method.bind, Method.get, Method.ret, loaded in *.
    destruct (model this); [reflexivity | contradiction]. }
  assert (Hunloaded : forall this, model this = None ->
            isModelLoaded this = (Resolved false, this)).
  { intros this H. unfold isModelLoaded, Method.bind, Method.get, Method.ret.
    now rewrite H. }
  split; [|split; [|split]].
  - intros detect now this ui. unfold Panel.processImage.
    destruct (model this) as [m|] eqn:E.
    + assert (Hl : loaded this) by (unfold loaded; congruence).
      rewrite (Hloaded this Hl).
      destruct detect as [predictions | e].
      * rewrite detectObjects_resolved by assumption. eexists; eexists; reflexivity.
      * rewrite detectObjects_rejected by assumption. eexists; eexists; reflexivity.
    + rewrite (Hunloaded this E). eexists; eexists; reflexivity.
  - intros detect now this ui H. unfold Panel.processImage.
    now rewrite (Hunloaded this H).
  - intros predictions now this ui Hl. unfold Panel.processImage.
    rewrite (Hloaded this Hl), detectObjects_resolved by assumption.
    eexists; eexists. split; [reflexivity|]. repeat split.
  - intros e now this ui Hl. unfold Panel.processImage.
    rewrite (Hloaded this Hl), detectObjects_rejected by assumption.
    reflexivity.
Qed.

Lemma processImage_publishes_the_frame_witness :
  Panel.processImage (Rejected "WebGL context lost"%string) 3000 afterFirstFrame
    (Panel.mkState false (previousDetections afterFirstFrame)
                   (previousDetections afterFirstFrame)) =
  (Resolved tt, afterFirstFrame, Panel.mkState false [] []).
Proof.
  apply (proj2 (proj2 (proj2 processImage_publishes_the_frame))).
  exact afterFirstFrame_loaded.
Defined.

(** X23.  The alerts and counters a frame produces in the ROI component
    do not depend on the tracker: fed with the records [detectObjects]
    returns, the effect gives the state it gives on the adapter's
    records, whatever the detector remembered. *)
Theorem roi_ignores_the_tracker (this : ObjectDetector)
  (predictions : list Prediction) (now t : Z) (st : ROI.State) :
  loaded this ->
  exists tracked this',
    detectObjects (Resolved predictions) now this = (Resolved tracked, this') /\
    ROI.onFrame t (map ROI.ofDetectionResult tracked) st =
    ROI.onFrame t (map ROI.ofDetectionResult (adaptPredictions now predictions)) st.
Proof.
  intro Hl. rewrite detectObjects_resolved by assumption.
  eexists; eexists. split; [reflexivity|]. now rewrite tracked_from_roi.
Qed.

Lemma roi_ignores_the_tracker_witness :
  exists tracked this',
    detectObjects (Resolved twoPeople) 2000 afterFirstFrame = (Resolved tracked, this') /\
    ROI.onFrame 2001 (map ROI.ofDetectionResult tracked) ROI.initialState =
    ROI.onFrame 2001 (map ROI.ofDetectionResult (adaptPredictions 2000 twoPeople))
                ROI.initialState.
Proof.
  exact (roi_ignores_the_tracker afterFirstFrame twoPeople 2000 2001
           ROI.initialState afterFirstFrame_loaded).
Defined.
